(** * gptme/util.py: identifier names, ages and chat directives

    A shallow embedding of the helper functions of [gptme/util.py]
    ([generate_name], [is_generated_name], [epoch_to_age] and
    [transform_examples_to_chat_directives]) together with the parts of the
    Python standard library they call ([str], [re], [textwrap], [datetime],
    [random]), followed by the properties proved about them.

    A Python [str] is a sequence of Unicode code points: a text is a list of
    code points, each an [N]. *)

From Stdlib Require Import Strings.String Strings.Ascii Numbers.DecimalString.
From Stdlib Require Import List NArith ZArith Arith Bool Lia.
Import ListNotations.

Set Implicit Arguments.

(* ================================================================= *)
(** ** Python strings *)

Module Py.

Abbreviation char := N (only parsing).
Abbreviation text := (list N) (only parsing).

(** The text of a literal (literals of the source are ASCII). *)
Definition str (s : string) : text :=
  List.map N_of_ascii (list_ascii_of_string s).

Definition LF : char := 10%N.
Definition CR : char := 13%N.

(** [a == b] on [str]. *)
Fixpoint text_eqb (a b : text) : bool :=
  match a, b with
  | [], [] => true
  | x :: a', y :: b' => N.eqb x y && text_eqb a' b'
  | _, _ => false
  end.

(** [x in l] for a list [l] of strings. *)
Definition mem (x : text) (l : list text) : bool := existsb (text_eqb x) l.

(** [s.startswith(w)]. *)
Fixpoint startswith (s w : text) {struct w} : bool :=
  match w, s with
  | [], _ => true
  | y :: w', x :: s' => N.eqb x y && startswith s' w'
  | _ :: _, [] => false
  end.

(** [str.isspace] on one code point (Py_UNICODE_ISSPACE); the regular
    expression class [\s] of a [str] pattern is the same set. *)
Definition isspace (c : char) : bool :=
  ((9 <=? c) && (c <=? 13) || (28 <=? c) && (c <=? 32)
   || (c =? 133) || (c =? 160) || (c =? 5760)
   || (8192 <=? c) && (c <=? 8202) || (c =? 8232) || (c =? 8233)
   || (c =? 8239) || (c =? 8287) || (c =? 12288))%N.

(** The line boundaries of [str.splitlines] (Py_UNICODE_ISLINEBREAK). *)
Definition islinebreak (c : char) : bool :=
  ((10 <=? c) && (c <=? 13) || (28 <=? c) && (c <=? 30)
   || (c =? 133) || (c =? 8232) || (c =? 8233))%N.

(** [s.count(sub)]: the number of non-overlapping occurrences of [sub],
    scanning from the left.  [skip] is the number of characters of [s] still
    covered by the occurrence found last. *)
Fixpoint count_from (sub : text) (skip : nat) (s : text) : nat :=
  match s with
  | [] => 0
  | _ :: s' =>
      match skip with
      | S k => count_from sub k s'
      | O =>
          if startswith s sub
          then S (count_from sub (length sub - 1) s')
          else count_from sub 0 s'
      end
  end.

Definition count (s sub : text) : nat :=
  match sub with
  | [] => S (length s)
  | _ :: _ => count_from sub 0 s
  end.

(** [s.split(sep)] for a non-empty separator (Python raises [ValueError] on
    an empty one; the program only splits on ["-"]).  The head of the result
    is the field being read. *)
Fixpoint split_from (sep : text) (skip : nat) (s : text) : list text :=
  match s with
  | [] => [[]]
  | c :: s' =>
      match skip with
      | S k => split_from sep k s'
      | O =>
          if startswith s sep
          then [] :: split_from sep (length sep - 1) s'
          else match split_from sep 0 s' with
               | f :: fs => (c :: f) :: fs
               | [] => [[c]]
               end
      end
  end.

Definition split (s sep : text) : list text :=
  match sep with
  | [] => [s]
  | _ :: _ => split_from sep 0 s
  end.

(** [s.splitlines(True)]: the lines of [s], each with its line break kept;
    ["\r\n"] is one break. *)
Fixpoint splitlines_keepends (s : text) : list text :=
  match s with
  | [] => []
  | c :: s' =>
      if islinebreak c && negb ((c =? CR)%N && startswith s' [LF])
      then [c] :: splitlines_keepends s'
      else match splitlines_keepends s' with
           | l :: ls => (c :: l) :: ls
           | [] => [[c]]
           end
  end.

(** [textwrap.indent(text, prefix)]: the prefix is added to every line that
    does not consist solely of whitespace ([line.strip()] is non-empty). *)
Definition indent (s prefix : text) : text :=
  concat (List.map (fun line => if forallb isspace line then line
                                else prefix ++ line)
                   (splitlines_keepends s)).

(** [str(n)] for an integer. *)
Definition str_of_Z (n : Z) : text :=
  str (NilZero.string_of_int (Z.to_int n)).

(** [random]: the generator is a tape of raw draws and a cursor on it;
    [randbelow n] reads one draw and reduces it below [n]. *)
Record rng := { draws : nat -> nat; cursor : nat }.

Definition randbelow (n : nat) (g : rng) : nat * rng :=
  (draws g (cursor g) mod n, {| draws := draws g; cursor := S (cursor g) |}).

(** [random.choice(seq)] is [seq[randbelow(len(seq))]] ([IndexError] on an
    empty sequence: the default is never read on a non-empty one). *)
Definition choice (seq : list text) (g : rng) : text * rng :=
  let (i, g') := randbelow (length seq) g in (nth i seq [], g').

End Py.

Import Py.

(* ================================================================= *)
(** ** Regular expressions: the part of [re] the program uses

    A backtracking matcher in the list-of-successes style: [matches r st]
    lists, in the order in which the engine of [re] tries them, the states in
    which a match of [r] started in [st] can end.  The match the engine
    reports is the first of the list. *)

Module Re.

Inductive regex : Type :=
| Chr (c : char)                (* one literal character *)
| Lit (w : text)                (* a run of literal characters *)
| Dot                           (* [.]: any character but the newline *)
| Set_ (cs : text)              (* a class listing its characters *)
| Space                         (* [\s] *)
| Bol                           (* [^]: the start of the string *)
| Seq (r1 r2 : regex)
| Alt (r1 r2 : regex)           (* [r1|r2] *)
| Group (n : nat) (r : regex)   (* the capturing group number [n] *)
| Opt (r : regex)               (* [r?], greedy *)
| Star (r : regex)              (* [r*], greedy *)
| Plus (r : regex).             (* [r+], greedy *)

Declare Scope regex_scope.
Delimit Scope regex_scope with re.
Bind Scope regex_scope with regex.
Notation "r1 ;; r2" := (Seq r1 r2)
  (at level 61, right associativity) : regex_scope.

(** The position in the subject string, what is left of it from there, and
    the text of the groups matched so far (the latest binding first). *)
Record state := { pos : nat; rest : text; caps : list (nat * text) }.

Definition advance (n : nat) (st : state) : state :=
  {| pos := pos st + n; rest := skipn n (rest st); caps := caps st |}.

(** [m.group(n)]: [None] when the group took no part in the match. *)
Fixpoint lookup (n : nat) (l : list (nat * text)) : option text :=
  match l with
  | [] => None
  | (k, w) :: l' => if Nat.eqb k n then Some w else lookup n l'
  end.

Definition group (m : state) (n : nat) : option text := lookup n (caps m).

(** One character satisfying [p]. *)
Definition one (p : char -> bool) (st : state) : list state :=
  match rest st with
  | c :: _ => if p c then [advance 1 st] else []
  | [] => []
  end.

(** Group [n] matched from [st] to [st']. *)
Definition capture (n : nat) (st st' : state) : state :=
  {| pos := pos st'; rest := rest st';
     caps := (n, firstn (pos st' - pos st) (rest st)) :: caps st' |}.

(** Greedy repetition: one more round of [body] first, then none.  A round
    that consumes nothing is not repeated (so [n], the number of characters
    left, bounds the rounds). *)
Fixpoint iter (body : state -> list state) (n : nat) (st : state)
  : list state :=
  match n with
  | O => [st]
  | S n' =>
      flat_map (fun st' => if pos st <? pos st' then iter body n' st' else [])
               (body st)
      ++ [st]
  end.

Fixpoint matches (r : regex) (st : state) : list state :=
  match r with
  | Chr c => one (N.eqb c) st
  | Lit w =>
      if startswith (rest st) w then [advance (length w) st] else []
  | Dot => one (fun c => negb (N.eqb c LF)) st
  | Set_ cs => one (fun c => existsb (N.eqb c) cs) st
  | Space => one isspace st
  | Bol => if pos st =? 0 then [st] else []
  | Seq r1 r2 => flat_map (matches r2) (matches r1 st)
  | Alt r1 r2 => matches r1 st ++ matches r2 st
  | Group n r1 => List.map (capture n st) (matches r1 st)
  | Opt r1 => matches r1 st ++ [st]
  | Star r1 => iter (matches r1) (length (rest st)) st
  | Plus r1 =>
      flat_map (fun st' => iter (matches r1) (length (rest st')) st')
               (matches r1 st)
  end.

(** The match starting at [st], if any.  With [must_advance] (set after an
    empty match) a match that ends where it starts is passed over. *)
Definition match_at (p : regex) (must_advance : bool) (st : state)
  : option state :=
  find (fun m => negb must_advance || (pos st <? pos m)) (matches p st).

(** [search]: the leftmost match at or after position [i], where [s] is the
    subject from [i] on: the text skipped before the match, the position
    where the match starts and the state in which it ends. *)
Fixpoint search (p : regex) (must_advance : bool) (i : nat) (s : text)
  : option (text * nat * state) :=
  match match_at p must_advance {| pos := i; rest := s; caps := [] |} with
  | Some m => Some ([], i, m)
  | None =>
      match s with
      | [] => None
      | c :: s' =>
          match search p false (S i) s' with
          | Some (skipped, j, m) => Some (c :: skipped, j, m)
          | None => None
          end
      end
  end.

(** A replacement template: literal text and references to groups by
    their numbers.  A group that took no part in the match is replaced by
    the empty string. *)
Inductive item : Type :=
| T (w : text)
| G (n : nat).

Definition expand (repl : list item) (m : state) : text :=
  concat (List.map (fun it => match it with
                              | T w => w
                              | G n => match group m n with
                                       | Some w => w
                                       | None => []
                                       end
                              end) repl).

(** The loop of [re.sub]: search, copy what was skipped, put the expansion
    of the template, go on from the end of the match.  Each round either
    consumes a character or sets [must_advance], so twice the length of the
    subject plus two rounds are enough. *)
Fixpoint sub_loop (fuel : nat) (p : regex) (repl : list item)
  (must_advance : bool) (i : nat) (s : text) : text :=
  match fuel with
  | O => s
  | S fuel' =>
      match search p must_advance i s with
      | None => s
      | Some (skipped, j, m) =>
          skipped ++ expand repl m
          ++ sub_loop fuel' p repl (pos m =? j) (pos m) (rest m)
      end
  end.

(** [re.sub(pattern, repl, string)]. *)
Definition sub (p : regex) (repl : list item) (s : text) : text :=
  sub_loop (2 * length s + 2) p repl false 0 s.

End Re.

Import Re.

(* ================================================================= *)
(** ** Identifier names (util.py, lines 31-107) *)

Definition actions : list text :=
  List.map str
    [ "running"; "jumping"; "walking"; "skipping"; "hopping"; "flying";
      "swimming"; "crawling"; "sneaking"; "sprinting"; "sneaking";
      "dancing"; "singing"; "laughing" ]%string.

Definition adjectives : list text :=
  List.map str
    [ "funny"; "happy"; "sad"; "angry"; "silly"; "crazy"; "sneaky";
      "sleepy"; "hungry";
      "red"; "blue"; "green"; "pink"; "purple"; "yellow"; "orange" ]%string.

Definition nouns : list text :=
  List.map str
    [ "cat"; "dog"; "rat"; "mouse"; "fish"; "elephant"; "dinosaur";
      "bird"; "pelican";
      "dragon"; "unicorn"; "mermaid"; "monster"; "alien"; "robot";
      "whale"; "shark"; "walrus"; "octopus"; "squid"; "jellyfish";
      "starfish"; "penguin"; "seal" ]%string.

(** [f"{action}-{adjective}-{noun}"]. *)
Definition name_of (action adjective noun : text) : text :=
  action ++ str "-" ++ adjective ++ str "-" ++ noun.

Definition generate_name (g : rng) : text * rng :=
  let (action, g1) := choice actions g in
  let (adjective, g2) := choice adjectives g1 in
  let (noun, g3) := choice nouns g2 in
  (name_of action adjective noun, g3).

Definition is_generated_name (name : text) : bool :=
  let all_words := actions ++ adjectives ++ nouns in
  (count name (str "-") =? 2)
  && forallb (fun word => mem word all_words) (split name (str "-")).

(* ================================================================= *)
(** ** [datetime]: local time, naive datetimes and their differences *)

Module Datetime.

Local Open Scope Z_scope.

(** A [timedelta] in its normal form: [0 <= seconds < 86400] and
    [0 <= microseconds < 1000000]. *)
Record timedelta := { days : Z; seconds : Z; microseconds : Z }.

(** [timedelta(days=d, hours=h, minutes=m, seconds=s, microseconds=us)],
    normalised by floor division as the constructor does. *)
Definition make_timedelta (d h m s us : Z) : timedelta :=
  let s := h * 3600 + m * 60 + s in
  let s := s + us / 1000000 in
  let us := us mod 1000000 in
  let d := d + s / 86400 in
  let s := s mod 86400 in
  {| days := d; seconds := s; microseconds := us |}.

(** [a < b]: the comparison of the triples (days, seconds, microseconds). *)
Definition timedelta_lt (a b : timedelta) : bool :=
  (days a <? days b)
  || (days a =? days b)
     && ((seconds a <? seconds b)
         || (seconds a =? seconds b) && (microseconds a <? microseconds b)).

Record datetime := {
  year : Z; month : Z; day : Z;
  hour : Z; minute : Z; second : Z; microsecond : Z
}.

Definition MINYEAR : Z := 1.
Definition MAXYEAR : Z := 9999.

Definition is_leap (y : Z) : bool :=
  (y mod 4 =? 0) && (negb (y mod 100 =? 0) || (y mod 400 =? 0)).

Definition days_before_year (y : Z) : Z :=
  let y := y - 1 in y * 365 + y / 4 - y / 100 + y / 400.

(** The table [_DAYS_BEFORE_MONTH], from index 1. *)
Definition DAYS_BEFORE_MONTH (m : Z) : Z :=
  nth (Z.to_nat m) [-1; 0; 31; 59; 90; 120; 151; 181; 212; 243; 273; 304; 334]
      0.

Definition days_before_month (y m : Z) : Z :=
  DAYS_BEFORE_MONTH m + (if (2 <? m) && is_leap y then 1 else 0).

(** The ordinal of a date, 1 for 0001-01-01. *)
Definition ymd2ord (y m d : Z) : Z :=
  days_before_year y + days_before_month y m + d.

(** [date.toordinal()]. *)
Definition toordinal (t : datetime) : Z :=
  ymd2ord (year t) (month t) (day t).

(** [a - b] on naive datetimes. *)
Definition datetime_sub (a b : datetime) : timedelta :=
  let secs1 := second a + minute a * 60 + hour a * 3600 in
  let secs2 := second b + minute b * 60 + hour b * 3600 in
  make_timedelta (toordinal a - toordinal b) 0 0 (secs1 - secs2)
                 (microsecond a - microsecond b).

(** A decimal number padded with zeros on the left to [width] digits. *)
Definition zfill (width : nat) (n : Z) : text :=
  let digits := str_of_Z n in
  repeat 48%N (width - length digits) ++ digits.

(** [t.strftime] with the format [%Y-%m-%d], as the C library of the
    platform (glibc) prints it: the year as a decimal number with no
    padding, so with fewer than four digits before the year 1000; the month
    and the day on two digits. *)
Definition strftime_Ymd (t : datetime) : text :=
  str_of_Z (year t) ++ str "-" ++ zfill 2 (month t) ++ str "-"
  ++ zfill 2 (day t).

(** The year, month and day of an ordinal in the proleptic Gregorian
    calendar ([_ord2ymd]), also before the year 1 and after the year 9999,
    where the C library still computes a date. *)
Definition ord2ymd (n : Z) : Z * Z * Z :=
  let n := n - 1 in
  let n400 := n / 146097 in let n := n mod 146097 in
  let n100 := n / 36524 in let n := n mod 36524 in
  let n4 := n / 1461 in let n := n mod 1461 in
  let n1 := n / 365 in let n := n mod 365 in
  let y := n400 * 400 + 1 + n100 * 100 + n4 * 4 + n1 in
  if (n1 =? 4) || (n100 =? 4) then (y - 1, 12, 31)
  else
    let leapyear := (n1 =? 3) && (negb (n4 =? 24) || (n100 =? 3)) in
    let m := (n + 50) / 32 in
    let preceding :=
      DAYS_BEFORE_MONTH m + (if (2 <? m) && leapyear then 1 else 0) in
    if n <? preceding
    then
      let m := m - 1 in
      let dim := if (m =? 2) && leapyear then 29
                 else nth (Z.to_nat m)
                          [-1; 31; 28; 31; 30; 31; 30; 31; 31; 30; 31; 30; 31]
                          0 in
      (y, m, n - (preceding - dim) + 1)
    else (y, m, n - preceding + 1).

(** What [datetime.fromtimestamp] raises for a timestamp it cannot turn
    into a datetime: [ValueError] when the year is not between 1 and 9999,
    [OverflowError] or [OSError] when the C library gives up before that. *)
Inductive exception : Type := OutOfRange.

(** The outcome of a call: the value returned or the exception raised. *)
Inductive outcome (A : Type) : Type :=
| Returns (a : A)
| Raises (e : exception).

Arguments Raises {A} e.

Definition bind (A B : Type) (x : outcome A) (f : A -> outcome B)
  : outcome B :=
  match x with
  | Returns a => f a
  | Raises e => Raises e
  end.

Notation "'let*' x ':=' e1 'in' e2" := (bind e1 (fun x => e2))
  (at level 10, x name, e1 at level 100, e2 at level 200).

(** The ordinal of 1970-01-01, and the seconds from the start of ordinal 0
    to the start of that day. *)
Definition unix_ordinal : Z := 719163.
Definition unix_epoch : Z := unix_ordinal * 24 * 60 * 60.

Definition max_fold_seconds : Z := 24 * 3600.

(** The seconds from the start of ordinal 0 to a broken-down time; the
    year is checked. *)
Definition utc_to_seconds (tm : Z * Z * Z * Z * Z * Z) : outcome Z :=
  let '(y, m, d, hh, mm, ss) := tm in
  if (y <? MINYEAR) || (MAXYEAR <? y) then Raises OutOfRange
  else Returns (((ymd2ord y m d * 24 + hh) * 60 + mm) * 60 + ss).

Section LocalTime.

(** The time zone of the process: the seconds east of UTC that local time
    is at, at each second of POSIX time ([tm_gmtoff]). *)
Variable utcoffset : Z -> Z.

(** [time.localtime(t)]: year, month, day, hour, minute and second of the
    local time at the POSIX second [t]. *)
Definition localtime (t : Z) : Z * Z * Z * Z * Z * Z :=
  let l := t + utcoffset t in
  let '(y, m, d) := ord2ymd (unix_ordinal + l / 86400) in
  let r := l mod 86400 in
  (y, m, d, r / 3600, r mod 3600 / 60, r mod 60).

Definition local (u : Z) : outcome Z :=
  utc_to_seconds (localtime (u - unix_epoch)).

(** The naive local datetime of the POSIX second [timet] and [us]
    microseconds.  The local time is also read a day earlier, and where
    the clock was set back in between once more, to see whether the
    datetime is the second of two equal readings; each reading is checked
    for its year.  (The mark of a second reading, [fold], takes no part in
    a subtraction or in [strftime] and is left out.) *)
Definition datetime_from_timet_and_us (timet us : Z) : outcome datetime :=
  let '(y, m, d, hh, mm, ss) := localtime timet in
  let ss := Z.min 59 ss in
  let* result_seconds := utc_to_seconds (y, m, d, hh, mm, ss) in
  let* probe_seconds := local (unix_epoch + timet - max_fold_seconds) in
  let transition := result_seconds - probe_seconds - max_fold_seconds in
  let* _ := (if transition <? 0
             then local (unix_epoch + timet + transition)
             else Returns 0) in
  Returns {| year := y; month := m; day := d;
             hour := hh; minute := mm; second := ss; microsecond := us |}.

(** [datetime.fromtimestamp(t)].  The timestamp is given in microseconds,
    as the function rounds its argument: an [int] of seconds is 1000000
    times its value. *)
Definition fromtimestamp (t : Z) : outcome datetime :=
  datetime_from_timet_and_us (t / 1000000) (t mod 1000000).

End LocalTime.

End Datetime.

Import Datetime.

(* ================================================================= *)
(** ** Ages (util.py, lines 110-122) *)

Section Clock.

Local Open Scope Z_scope.

(** The time zone of the process. *)
Variable utcoffset : Z -> Z.

(** [epoch_to_age(epoch)] when the system clock reads [time] at the call of
    [datetime.now()], which is the local datetime of that reading; [time]
    and [epoch] are in microseconds.  An exception of either call of
    [fromtimestamp] ends the call. *)
Definition epoch_to_age (time epoch : Z) : outcome text :=
  let* now := fromtimestamp utcoffset time in
  let* then_ := fromtimestamp utcoffset epoch in
  let age := datetime_sub now then_ in
  if timedelta_lt age (make_timedelta 0 0 1 0 0)
  then Returns (str "just now")
  else if timedelta_lt age (make_timedelta 0 1 0 0 0)
  then Returns (str_of_Z (seconds age / 60) ++ str " minutes ago")
  else if timedelta_lt age (make_timedelta 1 0 0 0 0)
  then Returns (str_of_Z (seconds age / 3600) ++ str " hours ago")
  else if timedelta_lt age (make_timedelta 2 0 0 0 0)
  then Returns (str "yesterday")
  else
    let* d := fromtimestamp utcoffset epoch in
    Returns (str_of_Z (days age) ++ str " days ago (" ++ strftime_Ymd d
             ++ str ")").

End Clock.

(* ================================================================= *)
(** ** Chat directives (util.py, lines 145-164) *)

(** The two assertions of the function, by what their messages say: no
    message was found (line 154), no place was found to put the start of the
    directive (line 163).  Assertions are taken as enabled. *)
Inductive error : Type :=
| NoMessageFound
| NoDirectivePlacementFound.

Inductive result : Type :=
| Ok (s : text)
| Raise (e : error).

(** The pattern of the first [re.sub] (line 149), group by group: the start
    of the string or a newline; optionally a [>] and a space; one or more
    characters; a colon.  Its replacement (line 150) keeps groups 1 and 3 and
    the colon. *)
Definition message_pattern : regex :=
  (Group 1 (Alt Bol (Chr LF))
   ;; Opt (Group 2 (Set_ (str ">") ;; Chr 32%N))   (* 32: the space *)
   ;; Group 3 (Plus Dot)
   ;; Chr 58%N)%re.                                 (* 58: the colon *)

Definition message_repl : list item := [G 1; G 3; T (str ":")].

(** The pattern of the second [re.sub] (line 158): the start of the string
    or a newline; optionally (group 2) three spaces, one or more of [#] and
    space, one or more characters (group 3), and one or more times (group 4)
    a newline followed by any whitespace; then three spaces and [User:].
    Its replacement (line 159) puts groups 1 and 3, two newlines, the
    directive opener, two newlines and the indented [User:]. *)
Definition directive_pattern : regex :=
  (Group 1 (Alt Bol (Chr LF))
   ;; Opt (Group 2 (Lit (str "   ")
                    ;; Plus (Set_ (str "# "))
                    ;; Group 3 (Plus Dot)
                    ;; Plus (Group 4 (Chr LF ;; Star Space))))
   ;; Lit (str "   User:"))%re.

Definition directive_repl : list item :=
  [G 1; G 3; T ([LF; LF] ++ str ".. chat::" ++ [LF; LF] ++ str "   User:")].

(** The first pass, the indentation and the second pass. *)
Definition normalize_messages (s : text) : text :=
  Re.sub message_pattern message_repl s.

Definition insert_directive (s : text) : text :=
  Re.sub directive_pattern directive_repl s.

Definition transform_examples_to_chat_directives (s : text) (strict : bool)
  : result :=
  let orig := s in
  let s := normalize_messages s in
  if strict && text_eqb s orig then Raise NoMessageFound else
  let s := indent s (str "   ") in
  let orig := s in
  let s := insert_directive s in
  if strict && text_eqb s orig then Raise NoDirectivePlacementFound else
  Ok s.

(* ================================================================= *)
(** ** Tokenizers (util.py, lines 19-28) *)

(** [sub in s]: [sub] occurs in [s]. *)
Fixpoint contains (s sub : text) : bool :=
  startswith s sub
  || match s with
     | [] => false
     | _ :: s' => contains s' sub
     end.

Section Tokenizers.

(** The two entry points of [tiktoken] the function calls, and the
    tokenizers they return. *)
Variable tokenizer : Type.
Variable encoding_for_model : text -> tokenizer.
Variable get_encoding : text -> tokenizer.

(** The message of the warning the function logs. *)
Definition no_encoder_warning (model : text) : text :=
  str "No encoder implemented for model " ++ model ++ str "."
  ++ str "Defaulting to tiktoken cl100k_base encoder."
  ++ str "Use results only as estimates.".

(** The tokenizer returned and the warnings logged. *)
Definition get_tokenizer (model : text) : tokenizer * list text :=
  if contains model (str "gpt-4") || contains model (str "gpt-3.5")
  then (encoding_for_model model, [])
  else (get_encoding (str "cl100k_base"), [no_encoder_warning model]).

End Tokenizers.

(* ================================================================= *)
(** ** The confirmation prompt (util.py, lines 14, 132-142 and 167-170) *)

(** [EMOJI_WARN]: the warning sign and the variation selector that makes it
    an emoji. *)
Definition EMOJI_WARN : text := [9888; 65039]%N.

(** What the functions do to the terminal: a string written to
    [sys.stdout], a flush of [sys.stdout], and a prompt shown by
    [console.input], which then reads a line. *)
Inductive event : Type :=
| Stdout (s : text)
| Flush
| Input (prompt : text).

Definition print_bell : list event := [Stdout [7%N]; Flush].

Section Console.

(** [str.lower]. *)
Variable lower : text -> text.

(** [ask_execute(question, default)] when the line read is [answer]: what
    happens on the terminal and the value returned. *)
Definition ask_execute (question : text) (default : bool) (answer : text)
  : list event * bool :=
  let choicestr :=
    str "(" ++ (if default then str "Y" else str "y") ++ str "/"
    ++ (if default then str "n" else str "N") ++ str ")" in
  let bell := print_bell in
  let prompt :=
    str "[bold yellow on dark_red] " ++ EMOJI_WARN ++ str " " ++ question
    ++ str " " ++ choicestr ++ str " [/] " in
  (bell ++ [Input prompt],
   mem (lower answer)
       (if default then [str "y"; str "yes"] ++ [[]] else [])).

End Console.

(* ================================================================= *)
(** ** Vocabulary of the statements *)

(** [sep.join(fields)]. *)
Fixpoint join (sep : text) (fields : list text) : text :=
  match fields with
  | [] => []
  | [f] => f
  | f :: fs => f ++ sep ++ join sep fs
  end.

Definition all_words : list text := actions ++ adjectives ++ nouns.

(** The separator of a name, and the lowercase letters [a] to [z]. *)
Definition dash : char := 45%N.

Definition is_lower (c : char) : bool := ((97 <=? c) && (c <=? 122))%N.

(** The lines of a text: what the newline separates. *)
Definition lines (s : text) : list text := split s [LF].

Definition colon : char := 58%N.

(** The opener of the directive and the number of its occurrences. *)
Definition opener : text := str ".. chat::".

Definition occurrences (s : text) : nat := count s opener.

(** The position of a naive datetime on its time line, in microseconds
    since the start of ordinal day 0. *)
Definition to_microseconds (t : datetime) : Z :=
  ((toordinal t * 86400 + hour t * 3600 + minute t * 60 + second t)
   * 1000000 + microsecond t)%Z.

(** The length of a [timedelta] in microseconds, and its normal form. *)
Definition total_microseconds (a : timedelta) : Z :=
  ((days a * 86400 + seconds a) * 1000000 + microseconds a)%Z.

Definition normalized (a : timedelta) : Prop :=
  (0 <= seconds a < 86400 /\ 0 <= microseconds a < 1000000)%Z.

(** The age [epoch_to_age] computes, in microseconds: the time from the
    timestamp to the reading of the system clock, plus what the local
    clock was set forward in between (less what it was set back). *)
Definition elapsed (utcoffset : Z -> Z) (time epoch : Z) : Z :=
  (time - epoch
   + (utcoffset (time / 1000000) - utcoffset (epoch / 1000000)) * 1000000)%Z.

(** The local date at a timestamp: year, month and day. *)
Definition local_date (utcoffset : Z -> Z) (t : Z) : Z * Z * Z :=
  ord2ymd (unix_ordinal
           + (t / 1000000 + utcoffset (t / 1000000)) / 86400)%Z.

(** Decimal digits, written out. *)
Definition digit (n : Z) : char := (48 + Z.to_N n)%N.

Definition two_digits (n : Z) : text := [digit (n / 10); digit (n mod 10)]%Z.

Definition four_digits (n : Z) : text :=
  [digit (n / 1000); digit (n / 100 mod 10); digit (n / 10 mod 10);
   digit (n mod 10)]%Z.

(** The month and the day of the day numbered [n] (from 0) of a year. *)
Definition month_day (n : Z) (leapyear : bool) : Z * Z :=
  (let m := (n + 50) / 32 in
   let preceding :=
     DAYS_BEFORE_MONTH m + (if (2 <? m) && leapyear then 1 else 0) in
   if n <? preceding
   then
     let m := m - 1 in
     let dim := if (m =? 2) && leapyear then 29
                else nth (Z.to_nat m)
                         [-1; 31; 28; 31; 30; 31; 30; 31; 31; 30; 31; 30; 31]
                         0 in
     (m, n - (preceding - dim) + 1)
   else (m, n - preceding + 1))%Z.

(** The check that a day of a year has its month and its day of the
    month, and that they lead back to it. *)
Definition month_day_check (leapyear : bool) (k : nat) : bool :=
  (let n := Z.of_nat k in
   let '(m, d) := month_day n leapyear in
   (1 <=? m) && (m <=? 12) && (1 <=? d) && (d <=? 31)
   && (DAYS_BEFORE_MONTH m + (if (2 <? m) && leapyear then 1 else 0) + d
       =? n + 1))%Z.

(** Two time zones: UTC, and Central European Time in 2023, with summer
    time from 2023-03-26 01:00 UTC to 2023-10-29 01:00 UTC. *)
Definition utc (t : Z) : Z := 0%Z.

Definition cet_2023 (t : Z) : Z :=
  (if (1679792400 <=? t) && (t <? 1698541200) then 7200 else 3600)%Z.

(** Zero or more steps of a relation on states. *)
Inductive rtc (R : state -> state -> Prop) : state -> state -> Prop :=
| rtc_refl : forall st, rtc R st st
| rtc_step : forall st m st', R st m -> rtc R m st' -> rtc R st st'.

(** One character satisfying [p] is read. *)
Definition reads (p : N -> bool) (st st' : state) : Prop :=
  exists c r, rest st = c :: r /\ p c = true /\
              st' = {| pos := pos st + 1; rest := r; caps := caps st |}.

(** The declarative reading of a pattern: [sem r st st'] when a match of
    [r] can lead from [st] to [st']. *)
Fixpoint sem (r : regex) (st st' : state) : Prop :=
  match r with
  | Chr c => reads (N.eqb c) st st'
  | Lit w =>
      exists r, rest st = w ++ r /\
                st' = {| pos := pos st + length w; rest := r;
                         caps := caps st |}
  | Dot => reads (fun c => negb (N.eqb c LF)) st st'
  | Set_ cs => reads (fun c => existsb (N.eqb c) cs) st st'
  | Space => reads isspace st st'
  | Bol => pos st = 0 /\ st' = st
  | Seq r1 r2 => exists m, sem r1 st m /\ sem r2 m st'
  | Alt r1 r2 => sem r1 st st' \/ sem r2 st st'
  | Group n r1 => exists m, sem r1 st m /\ st' = capture n st m
  | Opt r1 => sem r1 st st' \/ st' = st
  | Star r1 => rtc (sem r1) st st'
  | Plus r1 => exists m, sem r1 st m /\ rtc (sem r1) m st'
  end.

(** [st'] is [st] after some characters were read. *)
Definition consumes (st st' : state) : Prop :=
  exists w, rest st = w ++ rest st' /\ pos st' = pos st + length w.

(** The rounds [re.sub] needs on a subject. *)
Definition rounds (must_advance : bool) (s : text) : nat :=
  2 * length s + (if must_advance then 0 else 1).

(** A line and what the first pass makes of it: the same line, or the line
    without its leading marker when a colon follows. *)
Definition stripped (l l' : text) : Prop :=
  l' = l \/ (l = str "> " ++ l' /\ In colon l').

(** The invariant of the loop of the first pass at position [j]: line by
    line the output is the input [stripped], and away from the start of the
    text the line being read is unchanged. *)
Definition normalized_from (j : nat) (s t : text) : Prop :=
  Forall2 stripped (lines s) (lines t) /\
  (j <> 0 -> hd [] (lines s) = hd [] (lines t)).

(** The invariant of the loop of the insertion pass at position [j]: away
    from the start of the text the line being read is unchanged, and the
    output is the input or holds more openers. *)
Definition directive_added (j : nat) (s t : text) : Prop :=
  (j <> 0 -> hd [] (lines s) = hd [] (lines t)) /\
  (t = s \/ occurrences s < occurrences t).

(** The first character of the opener. *)
Definition dot : char := 46%N.

(** A line that ends with a line break, and what [indent] makes of a line. *)
Definition terminated (l : text) : Prop :=
  exists a b, l = a ++ [b] /\ islinebreak b = true.

Definition indent_line (line : text) : text :=
  if forallb isspace line then line else str "   " ++ line.

(** The lower case of an ASCII letter, and the texts of ASCII characters. *)
Definition ascii_lower (c : char) : char :=
  if ((65 <=? c) && (c <=? 90))%N then (c + 32)%N else c.

Definition is_ascii (s : text) : Prop := Forall (fun c => (c < 128)%N) s.

(** The answers [ask_execute] takes for a yes when the default is yes. *)
Definition yes_answers : list text :=
  List.map str
    [ ""; "y"; "Y"; "yes"; "yeS"; "yEs"; "yES"; "Yes"; "YeS"; "YEs";
      "YES" ]%string.

(** The role label the insertion pass looks for. *)
Definition user : text := str "User:".

(** The invariant of the loop of the insertion pass for counting: away from
    the start the line being read is unchanged, no opener is lost, and at
    most one is added for each [User:] of the input. *)
Definition directive_bounded (j : nat) (s t : text) : Prop :=
  (j <> 0 -> hd [] (lines s) = hd [] (lines t)) /\
  occurrences s <= occurrences t <= occurrences s + count s user.

(** The split of a text at its last colon. *)
Fixpoint rsplit_colon (x : text) : option (text * text) :=
  match x with
  | [] => None
  | c :: x' =>
      match rsplit_colon x' with
      | Some (g, r) => Some (c :: g, r)
      | None => if N.eqb c colon then Some ([], x') else None
      end
  end.

(** The end of a line: the end of the text or a newline. *)
Definition line_end (tail : text) : Prop :=
  tail = [] \/ exists s, tail = LF :: s.

Definition not_LF (c : char) : bool := negb (N.eqb c LF).

(** What group 3 and the colon make of what is left of a line: the state
    after the last colon that has a character before it. *)
Definition colon_end (p : nat) (z tail : text) (cs : list (nat * text))
  : option state :=
  match z with
  | [] => None
  | c :: z2 =>
      match rsplit_colon z2 with
      | Some (g, r) =>
          Some {| pos := p + length (c :: g) + 1; rest := r ++ tail;
                  caps := (3, c :: g) :: cs |}
      | None => None
      end
  end.

(** The pattern after its first group. *)
Definition message_tail : regex :=
  (Opt (Group 2 (Set_ (str ">") ;; Chr 32%N))
   ;; Group 3 (Plus Dot)
   ;; Chr 58%N)%re.

(** What the first pass makes of a line: the marker is deleted when the
    line starts with it and a colon comes after at least one character
    more. *)
Definition strip_line (l : text) : text :=
  if startswith l (str "> ") && existsb (N.eqb colon) (skipn 3 l)
  then skipn 2 l else l.

(** The lines of the first pass from a position: at the start of a line
    every line is stripped, inside a line the rest of it is kept. *)
Definition normalize_from (at_start : bool) (s : text) : text :=
  match lines s with
  | [] => []
  | l :: ls =>
      join [LF] ((if at_start then strip_line l else l)
                 :: List.map strip_line ls)
  end.

(** The pattern of the insertion pass after its first group. *)
Definition directive_tail : regex :=
  (Opt (Group 2 (Lit (str "   ")
                 ;; Plus (Set_ (str "# "))
                 ;; Group 3 (Plus Dot)
                 ;; Plus (Group 4 (Chr LF ;; Star Space))))
   ;; Lit (str "   User:"))%re.

(* ================================================================= *)
(** ** Strings: equality, membership, counting and splitting *)

Lemma text_eqb_eq (a b : text) : text_eqb a b = true <-> a = b.
Proof.
  revert b; induction a as [|x a IH]; intros [|y b]; simpl;
    try (split; [discriminate | discriminate]); try tauto.
  rewrite andb_true_iff, N.eqb_eq, IH.
  split; [intros [-> ->]; reflexivity | intros H; inversion H; auto].
Qed.

Lemma text_eqb_refl (a : text) : text_eqb a a = true.
Proof. apply text_eqb_eq; reflexivity. Qed.

Lemma text_eqb_neq (a b : text) : text_eqb a b = false <-> a <> b.
Proof.
  rewrite <- text_eqb_eq. destruct (text_eqb a b); split; congruence.
Qed.

Lemma mem_In (x : text) (l : list text) : mem x l = true <-> In x l.
Proof.
  unfold mem. rewrite existsb_exists. split.
  - intros (y & Hy & E). apply text_eqb_eq in E. subst; assumption.
  - intros H. exists x. split; [assumption | apply text_eqb_refl].
Qed.

Lemma startswith_app (s w : text) :
  startswith s w = true <-> exists r, s = w ++ r.
Proof.
  revert s; induction w as [|y w IH]; intros s; simpl.
  - split; [intros _; exists s; reflexivity | reflexivity].
  - destruct s as [|x s].
    + split; [discriminate | intros (r & E); discriminate].
    + rewrite andb_true_iff, N.eqb_eq, IH. split.
      * intros (-> & r & ->). exists r; reflexivity.
      * intros (r & E). inversion E; subst. split; [reflexivity | eauto].
Qed.

Section SplitOnChar.

Variable d : char.

Lemma count_char (s : text) : count s [d] = count_occ N.eq_dec s d.
Proof.
  unfold count. induction s as [|c s IH]; [reflexivity|].
  cbn [count_from startswith length Nat.sub count_occ].
  rewrite andb_true_r.
  destruct (N.eq_dec c d) as [->|Hn].
  - rewrite N.eqb_refl. f_equal; exact IH.
  - apply N.eqb_neq in Hn. rewrite Hn. exact IH.
Qed.

Lemma split_char_cons (c : char) (s : text) :
  split (c :: s) [d] =
  if N.eqb c d then [] :: split s [d]
  else match split s [d] with
       | f :: fs => (c :: f) :: fs
       | [] => [[c]]
       end.
Proof.
  unfold split. cbn [split_from startswith length Nat.sub].
  rewrite andb_true_r. reflexivity.
Qed.

Lemma split_char_not_nil (s : text) : split s [d] <> [].
Proof.
  induction s as [|c s IH]; [discriminate|].
  rewrite split_char_cons.
  destruct (N.eqb c d); [discriminate|].
  destruct (split s [d]); discriminate.
Qed.

Lemma join_split_char (s : text) : join [d] (split s [d]) = s.
Proof.
  induction s as [|c s IH]; [reflexivity|].
  rewrite split_char_cons.
  destruct (N.eqb c d) eqn:E.
  - apply N.eqb_eq in E; subst c.
    pose proof (split_char_not_nil s) as Hne.
    destruct (split s [d]) as [|f fs] eqn:Es; [congruence|].
    cbn [join app]. rewrite <- IH. reflexivity.
  - pose proof (split_char_not_nil s) as Hne.
    destruct (split s [d]) as [|f fs] eqn:Es; [congruence|].
    rewrite <- IH. destruct fs; reflexivity.
Qed.

Lemma length_split_char (s : text) :
  length (split s [d]) = S (count_occ N.eq_dec s d).
Proof.
  induction s as [|c s IH]; [reflexivity|].
  rewrite split_char_cons. cbn [count_occ].
  destruct (N.eq_dec c d) as [->|Hn].
  - rewrite N.eqb_refl. cbn [length]. rewrite IH. reflexivity.
  - apply N.eqb_neq in Hn. rewrite Hn.
    destruct (split s [d]) as [|f fs]; [discriminate IH | exact IH].
Qed.

Lemma split_char_field (a : text) : ~ In d a -> split a [d] = [a].
Proof.
  induction a as [|c a IH]; intros Hn; [reflexivity|].
  rewrite split_char_cons.
  assert (E : N.eqb c d = false)
    by (apply N.eqb_neq; intros ->; apply Hn; left; reflexivity).
  rewrite E, IH; [reflexivity|]. intros H; apply Hn; right; exact H.
Qed.

Lemma split_char_app (a r : text) :
  ~ In d a -> split (a ++ d :: r) [d] = a :: split r [d].
Proof.
  induction a as [|c a IH]; intros Hn.
  - cbn [app]. rewrite split_char_cons, N.eqb_refl. reflexivity.
  - cbn [app]. rewrite split_char_cons.
    assert (E : N.eqb c d = false)
      by (apply N.eqb_neq; intros ->; apply Hn; left; reflexivity).
    rewrite E, IH; [reflexivity|]. intros H; apply Hn; right; exact H.
Qed.

End SplitOnChar.

(* ================================================================= *)
(** ** Names *)

Lemma no_dash_in_words :
  forallb (fun w => negb (existsb (N.eqb dash) w)) all_words = true.
Proof. vm_compute. reflexivity. Qed.

Lemma word_no_dash (w : text) : In w all_words -> ~ In dash w.
Proof.
  intros Hw Hd.
  pose proof no_dash_in_words as H.
  rewrite forallb_forall in H. specialize (H w Hw).
  apply negb_true_iff in H.
  assert (existsb (N.eqb dash) w = true); [|congruence].
  apply existsb_exists. exists dash. split; [exact Hd | apply N.eqb_refl].
Qed.

Lemma in_all_words (w : text) :
  In w all_words <-> In w actions \/ In w adjectives \/ In w nouns.
Proof. unfold all_words. rewrite !in_app_iff. tauto. Qed.

Lemma is_generated_name_unfold (name : text) :
  is_generated_name name =
  (count_occ N.eq_dec name dash =? 2)
  && forallb (fun word => mem word all_words) (split name [dash]).
Proof.
  unfold is_generated_name. change (str "-") with [dash].
  rewrite count_char. reflexivity.
Qed.

Lemma name_of_unfold (a b c : text) :
  name_of a b c = a ++ dash :: b ++ dash :: c.
Proof. reflexivity. Qed.

Lemma is_generated_name_iff (name : text) :
  is_generated_name name = true <->
  count_occ N.eq_dec name dash = 2 /\
  exists a b c, name = name_of a b c /\
                In a all_words /\ In b all_words /\ In c all_words.
Proof.
  rewrite is_generated_name_unfold, andb_true_iff, Nat.eqb_eq, forallb_forall.
  split.
  - intros [Hc Hall]. split; [exact Hc|].
    pose proof (length_split_char dash name) as Hlen. rewrite Hc in Hlen.
    pose proof (join_split_char dash name) as Hj.
    destruct (split name [dash]) as [|a [|b [|c [|x l]]]]; try discriminate.
    exists a, b, c. rewrite name_of_unfold. split; [symmetry; exact Hj|].
    repeat split; apply mem_In, Hall; simpl; auto.
  - intros [Hc (a & b & c & -> & Ha & Hb & Hc')]. split; [exact Hc|].
    rewrite name_of_unfold.
    rewrite split_char_app by (apply word_no_dash; exact Ha).
    rewrite split_char_app by (apply word_no_dash; exact Hb).
    rewrite split_char_field by (apply word_no_dash; exact Hc').
    intros w [<-|[<-|[<-|[]]]]; apply mem_In; assumption.
Qed.

Lemma count_dash_name_of (a b c : text) :
  In a all_words -> In b all_words -> In c all_words ->
  count_occ N.eq_dec (name_of a b c) dash = 2.
Proof.
  intros Ha Hb Hc. rewrite name_of_unfold.
  apply word_no_dash in Ha, Hb, Hc.
  apply (count_occ_not_In N.eq_dec) in Ha, Hb, Hc.
  rewrite count_occ_app, (count_occ_cons_eq N.eq_dec _ (eq_refl dash)).
  rewrite count_occ_app, (count_occ_cons_eq N.eq_dec _ (eq_refl dash)).
  rewrite Ha, Hb, Hc. reflexivity.
Qed.

Lemma is_generated_name_words (a b c : text) :
  In a all_words -> In b all_words -> In c all_words ->
  is_generated_name (name_of a b c) = true.
Proof.
  intros Ha Hb Hc. apply is_generated_name_iff. split.
  - apply count_dash_name_of; assumption.
  - exists a, b, c. auto.
Qed.

Lemma choice_In (seq : list text) (g : rng) :
  seq <> [] -> In (fst (choice seq g)) seq.
Proof.
  intros Hne. unfold choice, randbelow. cbn [fst].
  apply nth_In. apply Nat.mod_upper_bound.
  destruct seq; [congruence | discriminate].
Qed.

Lemma generate_name_words (g : rng) :
  exists a j n, fst (generate_name g) = name_of a j n /\
                In a actions /\ In j adjectives /\ In n nouns.
Proof.
  unfold generate_name.
  pose proof (choice_In (seq := actions) g) as Ha.
  destruct (choice actions g) as [a g1].
  pose proof (choice_In (seq := adjectives) g1) as Hj.
  destruct (choice adjectives g1) as [j g2].
  pose proof (choice_In (seq := nouns) g2) as Hn.
  destruct (choice nouns g2) as [n g3].
  exists a, j, n. cbn [fst] in *.
  repeat split; [apply Ha | apply Hj | apply Hn]; discriminate.
Qed.

(** C8: the three vocabularies are non-empty, and every word of each of
    them is a non-empty run of the lowercase letters a to z; in particular
    no word holds the separator [-], whitespace or a hyphen. *)
Theorem vocabularies_lowercase :
  actions <> [] /\ adjectives <> [] /\ nouns <> [] /\
  (forall w, In w actions \/ In w adjectives \/ In w nouns ->
     w <> [] /\
     (forall c, In c w -> is_lower c = true) /\
     ~ In dash w /\
     (forall c, In c w -> isspace c = false)).
Proof.
  repeat (split; [discriminate|]).
  assert (H : forallb (fun w => negb (text_eqb w [])
                                && forallb is_lower w
                                && forallb (fun c => negb (isspace c)) w)
                      all_words = true) by (vm_compute; reflexivity).
  rewrite forallb_forall in H.
  intros w Hw. apply in_all_words in Hw.
  pose proof (word_no_dash Hw) as Hd.
  specialize (H w Hw). rewrite !andb_true_iff, !forallb_forall in H.
  destruct H as [[Hne Hl] Hs]. repeat split.
  - apply negb_true_iff, text_eqb_neq in Hne. exact Hne.
  - exact Hl.
  - exact Hd.
  - intros c Hc. apply negb_true_iff. apply Hs; exact Hc.
Qed.

(** C2: [is_generated_name name] holds exactly when [name] has exactly two
    occurrences of the separator [-] and its three segments are words of the
    union of the three vocabularies, whatever their category and with an
    exact (case-sensitive) comparison.  Three words in the order noun, action,
    adjective are recognised; the empty string, names with fewer or more
    than two separators and names with a segment outside the vocabularies
    are not. *)
Theorem is_generated_name_spec :
  (forall name,
     is_generated_name name = true <->
     count_occ N.eq_dec name dash = 2 /\
     exists a b c, name = a ++ str "-" ++ b ++ str "-" ++ c /\
                   In a all_words /\ In b all_words /\ In c all_words) /\
  (forall n a j, In n nouns -> In a actions -> In j adjectives ->
     is_generated_name (n ++ str "-" ++ a ++ str "-" ++ j) = true) /\
  (forall name, count_occ N.eq_dec name dash <> 2 ->
     is_generated_name name = false) /\
  (forall name w, In w (split name (str "-")) -> ~ In w all_words ->
     is_generated_name name = false) /\
  is_generated_name (str "cat-running-funny") = true /\
  is_generated_name [] = false /\
  is_generated_name (str "a-b") = false /\
  is_generated_name (str "a-b-c-d") = false /\
  is_generated_name (str "xyz-unknown-word") = false /\
  is_generated_name (str "running-funny") = false /\
  is_generated_name (str "running-funny-cat-dog") = false /\
  is_generated_name (str "Running-funny-cat") = false /\
  is_generated_name (str "running-funny-cats") = false.
Proof.
  split; [exact is_generated_name_iff|].
  split.
  { intros n a j Hn Ha Hj. apply (is_generated_name_words (a := n) (b := a));
      apply in_all_words; auto. }
  split.
  { intros name Hc. rewrite is_generated_name_unfold.
    apply Nat.eqb_neq in Hc. rewrite Hc. reflexivity. }
  split.
  { intros name w Hw Hn. rewrite is_generated_name_unfold.
    apply andb_false_iff; right.
    destruct (forallb _ _) eqn:E; [|reflexivity].
    rewrite forallb_forall in E. specialize (E w Hw).
    apply mem_In in E. contradiction. }
  repeat split; vm_compute; reflexivity.
Qed.

(** C3: every name that [generate_name] produces, whatever the random
    draws, is recognised by [is_generated_name]; so is every action,
    adjective and noun joined in that order by [-], and each such name is
    produced for some draws. *)
Theorem generated_name_is_recognised :
  (forall g, is_generated_name (fst (generate_name g)) = true) /\
  (forall a j n, In a actions -> In j adjectives -> In n nouns ->
     is_generated_name (a ++ str "-" ++ j ++ str "-" ++ n) = true) /\
  (forall a j n, In a actions -> In j adjectives -> In n nouns ->
     exists g, fst (generate_name g) = a ++ str "-" ++ j ++ str "-" ++ n).
Proof.
  split; [|split].
  - intros g. destruct (generate_name_words g) as (a & j & n & -> & Ha & Hj & Hn).
    apply is_generated_name_words; apply in_all_words; auto.
  - intros a j n Ha Hj Hn.
    apply (is_generated_name_words (a := a) (b := j));
      apply in_all_words; auto.
  - intros a j n Ha Hj Hn.
    destruct (In_nth _ _ [] Ha) as (ia & Hia & Ea).
    destruct (In_nth _ _ [] Hj) as (ij & Hij & Ej).
    destruct (In_nth _ _ [] Hn) as (inn & Hin & En).
    exists {| draws := fun k => match k with
                                | 0 => ia | 1 => ij | _ => inn
                                end;
              cursor := 0 |}.
    unfold generate_name, choice, randbelow. cbn [draws cursor fst].
    rewrite !Nat.mod_small by assumption.
    rewrite Ea, Ej, En. reflexivity.
Qed.

(* ================================================================= *)
(** ** Ages *)

Section TimedeltaFacts.

Local Open Scope Z_scope.

Lemma make_timedelta_normalized (d h m s us : Z) :
  normalized (make_timedelta d h m s us).
Proof.
  unfold normalized, make_timedelta; cbn [seconds microseconds].
  split; apply Z.mod_pos_bound; lia.
Qed.

Lemma make_timedelta_total (d h m s us : Z) :
  total_microseconds (make_timedelta d h m s us) =
  (((d * 24 + h) * 60 + m) * 60 + s) * 1000000 + us.
Proof.
  unfold total_microseconds, make_timedelta;
    cbn [days seconds microseconds].
  pose proof (Z.div_mod us 1000000 ltac:(lia)) as H1.
  pose proof (Z.div_mod (h * 3600 + m * 60 + s + us / 1000000) 86400
                        ltac:(lia)) as H2.
  lia.
Qed.

Lemma timedelta_lt_total (a b : timedelta) :
  normalized a -> normalized b ->
  timedelta_lt a b = (total_microseconds a <? total_microseconds b).
Proof.
  unfold normalized, timedelta_lt, total_microseconds.
  intros [Ha1 Ha2] [Hb1 Hb2].
  destruct (Z.ltb_spec (days a) (days b)) as [H|H]; cbn [orb].
  - symmetry; apply Z.ltb_lt; nia.
  - destruct (Z.eqb_spec (days a) (days b)) as [E|E]; cbn [andb].
    + rewrite E.
      destruct (Z.ltb_spec (seconds a) (seconds b)) as [H'|H']; cbn [orb].
      * symmetry; apply Z.ltb_lt; nia.
      * destruct (Z.eqb_spec (seconds a) (seconds b)) as [E'|E'];
          cbn [andb].
        -- rewrite E'.
           destruct (Z.ltb_spec (microseconds a) (microseconds b));
             symmetry; [apply Z.ltb_lt | apply Z.ltb_ge]; lia.
        -- symmetry; apply Z.ltb_ge; nia.
    + symmetry; apply Z.ltb_ge; nia.
Qed.

(** The fields of a normalised [timedelta], from its length. *)
Lemma normalized_fields (a : timedelta) :
  normalized a ->
  days a = total_microseconds a / 86400000000 /\
  seconds a = (total_microseconds a / 1000000) mod 86400 /\
  microseconds a = total_microseconds a mod 1000000.
Proof.
  unfold normalized, total_microseconds. intros [H1 H2].
  assert (E1 : ((days a * 86400 + seconds a) * 1000000 + microseconds a)
               / 1000000 = days a * 86400 + seconds a).
  { symmetry. apply (Z.div_unique _ _ _ (microseconds a)); lia. }
  repeat split.
  - apply (Z.div_unique _ _ _ (seconds a * 1000000 + microseconds a)); lia.
  - rewrite E1. apply (Z.mod_unique _ _ (days a)); lia.
  - apply (Z.mod_unique _ _ (days a * 86400 + seconds a)); lia.
Qed.

Lemma datetime_sub_total (a b : datetime) :
  total_microseconds (datetime_sub a b) =
  to_microseconds a - to_microseconds b.
Proof.
  unfold datetime_sub. rewrite make_timedelta_total.
  unfold to_microseconds. lia.
Qed.

Lemma datetime_sub_normalized (a b : datetime) :
  normalized (datetime_sub a b).
Proof. apply make_timedelta_normalized. Qed.

End TimedeltaFacts.

Section CalendarFacts.

Local Open Scope Z_scope.

Lemma month_day_checked :
  forallb (month_day_check false) (seq 0 365) = true /\
  forallb (month_day_check true) (seq 0 366) = true.
Proof. split; vm_compute; reflexivity. Qed.

Lemma month_day_ok (leapyear : bool) (n : Z) :
  0 <= n < (if leapyear then 366 else 365) ->
  1 <= fst (month_day n leapyear) <= 12 /\
  1 <= snd (month_day n leapyear) <= 31 /\
  DAYS_BEFORE_MONTH (fst (month_day n leapyear))
  + (if (2 <? fst (month_day n leapyear)) && leapyear then 1 else 0)
  + snd (month_day n leapyear) = n + 1.
Proof.
  intros Hn.
  assert (H : month_day_check leapyear (Z.to_nat n) = true).
  { destruct month_day_checked as [H0 H1].
    destruct leapyear;
      [rewrite forallb_forall in H1; apply H1
      | rewrite forallb_forall in H0; apply H0];
      apply in_seq; lia. }
  unfold month_day_check in H. rewrite Z2Nat.id in H by lia.
  destruct (month_day n leapyear) as [m d]. cbn [fst snd].
  rewrite !andb_true_iff in H.
  destruct H as [[[[H1 H2] H3] H4] H5].
  apply Z.leb_le in H1, H2, H3, H4. apply Z.eqb_eq in H5. lia.
Qed.

Lemma ord2ymd_unfold (n : Z) :
  ord2ymd n =
  let n0 := n - 1 in
  let n400 := n0 / 146097 in let r1 := n0 mod 146097 in
  let n100 := r1 / 36524 in let r2 := r1 mod 36524 in
  let n4 := r2 / 1461 in let r3 := r2 mod 1461 in
  let n1 := r3 / 365 in let r4 := r3 mod 365 in
  let y := n400 * 400 + 1 + n100 * 100 + n4 * 4 + n1 in
  if (n1 =? 4) || (n100 =? 4) then (y - 1, 12, 31)
  else
    let leapyear := (n1 =? 3) && (negb (n4 =? 24) || (n100 =? 3)) in
    (y, fst (month_day r4 leapyear), snd (month_day r4 leapyear)).
Proof.
  unfold ord2ymd, month_day. cbv zeta.
  destruct (_ || _); [reflexivity|].
  destruct (_ <? _); reflexivity.
Qed.

Lemma is_leap_parts (q n100 n4 n1 : Z) :
  0 <= n100 <= 3 -> 0 <= n4 <= 24 -> 0 <= n1 <= 3 ->
  is_leap (q * 400 + 1 + n100 * 100 + n4 * 4 + n1)
  = (n1 =? 3) && (negb (n4 =? 24) || (n100 =? 3)).
Proof.
  intros H100 H4 H1. unfold is_leap.
  set (y := q * 400 + 1 + n100 * 100 + n4 * 4 + n1).
  assert (E4 : y mod 4 = (n1 + 1) mod 4).
  { unfold y.
    replace (q * 400 + 1 + n100 * 100 + n4 * 4 + n1)
      with (n1 + 1 + (q * 100 + n100 * 25 + n4) * 4) by lia.
    apply Z_mod_plus_full. }
  assert (E100 : y mod 100 = (n4 * 4 + n1 + 1) mod 100).
  { unfold y.
    replace (q * 400 + 1 + n100 * 100 + n4 * 4 + n1)
      with (n4 * 4 + n1 + 1 + (q * 4 + n100) * 100) by lia.
    apply Z_mod_plus_full. }
  assert (E400 : y mod 400 = (n100 * 100 + n4 * 4 + n1 + 1) mod 400).
  { unfold y.
    replace (q * 400 + 1 + n100 * 100 + n4 * 4 + n1)
      with (n100 * 100 + n4 * 4 + n1 + 1 + q * 400) by lia.
    apply Z_mod_plus_full. }
  rewrite E4, E100, E400.
  destruct (Z.eqb_spec n1 3) as [->|N1].
  - change ((3 + 1) mod 4 =? 0) with true. cbn [andb].
    destruct (Z.eqb_spec n4 24) as [->|N4].
    + change ((24 * 4 + 3 + 1) mod 100 =? 0) with true. cbn [negb orb].
      destruct (Z.eqb_spec n100 3) as [->|N100]; [reflexivity|].
      apply Z.eqb_neq.
      rewrite Z.mod_small by lia. lia.
    + cbn [negb orb].
      assert (Hm : (n4 * 4 + 3 + 1) mod 100 <> 0).
      { rewrite Z.mod_small by lia. lia. }
      apply Z.eqb_neq in Hm. rewrite Hm. reflexivity.
  - assert (Hm : (n1 + 1) mod 4 <> 0).
    { rewrite Z.mod_small by lia. lia. }
    apply Z.eqb_neq in Hm. rewrite Hm. reflexivity.
Qed.

Lemma days_before_year_parts (q n100 n4 n1 : Z) :
  0 <= n100 <= 3 -> 0 <= n4 <= 24 -> 0 <= n1 <= 3 ->
  days_before_year (q * 400 + 1 + n100 * 100 + n4 * 4 + n1)
  = q * 146097 + n100 * 36524 + n4 * 1461 + n1 * 365.
Proof.
  intros H100 H4 H1. unfold days_before_year. cbv zeta.
  replace (q * 400 + 1 + n100 * 100 + n4 * 4 + n1 - 1)
    with (q * 400 + n100 * 100 + n4 * 4 + n1) by lia.
  assert (D4 : (q * 400 + n100 * 100 + n4 * 4 + n1) / 4
               = q * 100 + n100 * 25 + n4).
  { symmetry. apply (Z.div_unique _ _ _ n1); lia. }
  assert (D100 : (q * 400 + n100 * 100 + n4 * 4 + n1) / 100
                 = q * 4 + n100).
  { symmetry. apply (Z.div_unique _ _ _ (n4 * 4 + n1)); lia. }
  assert (D400 : (q * 400 + n100 * 100 + n4 * 4 + n1) / 400 = q).
  { symmetry. apply (Z.div_unique _ _ _ (n100 * 100 + n4 * 4 + n1)); lia. }
  rewrite D4, D100, D400. lia.
Qed.

(** The last day of a year that ends a cycle of 4, 100 or 400 years. *)
Lemma ymd2ord_last (y : Z) :
  is_leap y = true ->
  ymd2ord y 12 31 = days_before_year (y + 1).
Proof.
  intros L. unfold ymd2ord, days_before_month. rewrite L.
  change (DAYS_BEFORE_MONTH 12) with 334.
  change ((2 <? 12) && true) with true. cbv iota.
  unfold days_before_year. cbv zeta.
  replace (y + 1 - 1) with y by lia.
  unfold is_leap in L. rewrite andb_true_iff, orb_true_iff in L.
  destruct L as [L4 L].
  apply Z.eqb_eq in L4.
  pose proof (Z.div_mod y 4 ltac:(lia)) as Q4.
  pose proof (Z.div_mod (y - 1) 4 ltac:(lia)) as P4.
  pose proof (Z.mod_pos_bound (y - 1) 4 ltac:(lia)) as B4.
  pose proof (Z.div_mod y 100 ltac:(lia)) as Q100.
  pose proof (Z.div_mod (y - 1) 100 ltac:(lia)) as P100.
  pose proof (Z.mod_pos_bound (y - 1) 100 ltac:(lia)) as B100.
  pose proof (Z.mod_pos_bound y 100 ltac:(lia)) as C100.
  pose proof (Z.div_mod y 400 ltac:(lia)) as Q400.
  pose proof (Z.div_mod (y - 1) 400 ltac:(lia)) as P400.
  pose proof (Z.mod_pos_bound (y - 1) 400 ltac:(lia)) as B400.
  pose proof (Z.mod_pos_bound y 400 ltac:(lia)) as C400.
  destruct L as [L|L].
  - apply negb_true_iff, Z.eqb_neq in L.
    assert (y mod 400 <> 0).
    { intros E. apply L.
      rewrite <- (Z.mod_mod_divide y 400 100) by (exists 4; reflexivity).
      rewrite E. reflexivity. }
    lia.
  - apply Z.eqb_eq in L.
    assert (y mod 100 = 0).
    { rewrite <- (Z.mod_mod_divide y 400 100) by (exists 4; reflexivity).
      rewrite L. reflexivity. }
    lia.
Qed.

(** The calendar round trip: the date of an ordinal has that ordinal, and
    its month and day are a month and a day. *)
Lemma ymd2ord_ord2ymd (n : Z) :
  let '(y, m, d) := ord2ymd n in
  ymd2ord y m d = n /\ 1 <= m <= 12 /\ 1 <= d <= 31.
Proof.
  rewrite ord2ymd_unfold. cbv zeta.
  pose proof (Z.div_mod (n - 1) 146097 ltac:(lia)) as E1.
  pose proof (Z.mod_pos_bound (n - 1) 146097 ltac:(lia)) as B1.
  set (q := (n - 1) / 146097) in *.
  set (r1 := (n - 1) mod 146097) in *.
  pose proof (Z.div_mod r1 36524 ltac:(lia)) as E2.
  pose proof (Z.mod_pos_bound r1 36524 ltac:(lia)) as B2.
  set (n100 := r1 / 36524) in *.
  set (r2 := r1 mod 36524) in *.
  pose proof (Z.div_mod r2 1461 ltac:(lia)) as E3.
  pose proof (Z.mod_pos_bound r2 1461 ltac:(lia)) as B3.
  set (n4 := r2 / 1461) in *.
  set (r3 := r2 mod 1461) in *.
  pose proof (Z.div_mod r3 365 ltac:(lia)) as E4.
  pose proof (Z.mod_pos_bound r3 365 ltac:(lia)) as B4.
  set (n1 := r3 / 365) in *.
  set (r4 := r3 mod 365) in *.
  assert (H100 : 0 <= n100 <= 4) by lia.
  assert (H4 : 0 <= n4 <= 24) by lia.
  assert (H1 : 0 <= n1 <= 4) by lia.
  destruct (Z.eqb_spec n1 4) as [N1|N1]; cbn [orb].
  { split; [|lia].
    replace (q * 400 + 1 + n100 * 100 + n4 * 4 + n1 - 1)
      with (q * 400 + 1 + n100 * 100 + n4 * 4 + 3) by lia.
    assert (A100 : 0 <= n100 <= 3) by lia.
    assert (A4 : n4 <> 24) by lia.
    rewrite ymd2ord_last.
    - replace (q * 400 + 1 + n100 * 100 + n4 * 4 + 3 + 1)
        with (q * 400 + 1 + n100 * 100 + (n4 + 1) * 4 + 0) by lia.
      rewrite days_before_year_parts by lia. lia.
    - rewrite is_leap_parts by lia.
      apply Z.eqb_neq in A4. rewrite A4. reflexivity. }
  destruct (Z.eqb_spec n100 4) as [N100|N100].
  { split; [|lia].
    assert (n4 = 0 /\ n1 = 0 /\ r4 = 0) as (-> & -> & Er4) by lia.
    replace (q * 400 + 1 + n100 * 100 + 0 * 4 + 0 - 1)
      with (q * 400 + 1 + 3 * 100 + 24 * 4 + 3) by lia.
    rewrite ymd2ord_last.
    - replace (q * 400 + 1 + 3 * 100 + 24 * 4 + 3 + 1)
        with ((q + 1) * 400 + 1 + 0 * 100 + 0 * 4 + 0) by lia.
      rewrite days_before_year_parts by lia. lia.
    - rewrite is_leap_parts by lia. reflexivity. }
  set (leapyear := (n1 =? 3) && (negb (n4 =? 24) || (n100 =? 3))).
  assert (Hr4 : 0 <= r4 < (if leapyear then 366 else 365))
    by (destruct leapyear; lia).
  destruct (@month_day_ok leapyear r4 Hr4) as (Hm & Hd & Ed).
  split; [|split; assumption].
  unfold ymd2ord, days_before_month.
  rewrite is_leap_parts by lia. fold leapyear.
  rewrite days_before_year_parts by lia. lia.
Qed.

End CalendarFacts.

Section ClockFacts.

Local Open Scope Z_scope.

Variable utcoffset : Z -> Z.

(** What [fromtimestamp] returns, when it returns: the local date of the
    timestamp, with its year between 1 and 9999, at the place on the time
    line that the offset of the zone gives. *)
Lemma fromtimestamp_inv (t : Z) (d : datetime) :
  fromtimestamp utcoffset t = Returns d ->
  (year d, month d, day d) = local_date utcoffset t /\
  (1 <= year d <= 9999 /\ 1 <= month d <= 12 /\ 1 <= day d <= 31) /\
  to_microseconds d
  = t + (utcoffset (t / 1000000) + unix_epoch) * 1000000.
Proof.
  unfold fromtimestamp, datetime_from_timet_and_us, localtime, local_date.
  set (sec := t / 1000000).
  set (l := sec + utcoffset sec).
  pose proof (ymd2ord_ord2ymd (unix_ordinal + l / 86400)) as RT.
  destruct (ord2ymd (unix_ordinal + l / 86400)) as [[y m] dd].
  destruct RT as (RT & Hm & Hd).
  unfold utc_to_seconds at 1.
  destruct ((y <? MINYEAR) || (MAXYEAR <? y)) eqn:Ey; [discriminate|].
  cbn [bind].
  destruct (local utcoffset _) as [p|]; [|discriminate]. cbn [bind].
  destruct (if _ <? 0 then _ else _) as [p'|]; [|discriminate]. cbn [bind].
  intros H. injection H as <-. cbn [year month day].
  apply orb_false_iff in Ey. destruct Ey as [Y1 Y2].
  apply Z.ltb_ge in Y1, Y2. unfold MINYEAR, MAXYEAR in *.
  split; [reflexivity|]. split; [lia|].
  unfold to_microseconds, toordinal.
  cbn [year month day hour minute second microsecond].
  rewrite RT.
  pose proof (Z.div_mod t 1000000 ltac:(lia)) as Et. fold sec in Et.
  pose proof (Z.div_mod l 86400 ltac:(lia)) as El.
  pose proof (Z.mod_pos_bound l 86400 ltac:(lia)) as Bl.
  set (r := l mod 86400) in *.
  pose proof (Z.div_mod r 3600 ltac:(lia)) as E1.
  pose proof (Z.mod_pos_bound r 3600 ltac:(lia)) as B1.
  pose proof (Z.div_mod (r mod 3600) 60 ltac:(lia)) as E2.
  pose proof (Z.mod_pos_bound (r mod 3600) 60 ltac:(lia)) as B2.
  assert (E3 : r mod 60 = (r mod 3600) mod 60).
  { symmetry. apply Z.mod_mod_divide. exists 60. reflexivity. }
  rewrite Z.min_r by (pose proof (Z.mod_pos_bound r 60 ltac:(lia)); lia).
  unfold unix_epoch, unix_ordinal, l in *. lia.
Qed.

Lemma age_total (time epoch : Z) (now d : datetime) :
  fromtimestamp utcoffset time = Returns now ->
  fromtimestamp utcoffset epoch = Returns d ->
  total_microseconds (datetime_sub now d) = elapsed utcoffset time epoch.
Proof.
  intros Hn Hd. apply fromtimestamp_inv in Hn, Hd.
  destruct Hn as (_ & _ & En), Hd as (_ & _ & Ed).
  rewrite datetime_sub_total, En, Ed. unfold elapsed. lia.
Qed.

Lemma age_lt (time epoch : Z) (now d : datetime) (dd h m s us : Z) :
  fromtimestamp utcoffset time = Returns now ->
  fromtimestamp utcoffset epoch = Returns d ->
  timedelta_lt (datetime_sub now d) (make_timedelta dd h m s us)
  = (elapsed utcoffset time epoch
     <? (((dd * 24 + h) * 60 + m) * 60 + s) * 1000000 + us).
Proof.
  intros Hn Hd.
  rewrite timedelta_lt_total
    by (apply datetime_sub_normalized || apply make_timedelta_normalized).
  rewrite (@age_total _ _ _ _ Hn Hd), make_timedelta_total. reflexivity.
Qed.

Lemma age_fields (time epoch : Z) (now d : datetime) :
  fromtimestamp utcoffset time = Returns now ->
  fromtimestamp utcoffset epoch = Returns d ->
  days (datetime_sub now d) = elapsed utcoffset time epoch / 86400000000 /\
  seconds (datetime_sub now d)
  = (elapsed utcoffset time epoch / 1000000) mod 86400.
Proof.
  intros Hn Hd.
  destruct (normalized_fields (datetime_sub_normalized now d))
    as (Ed & Es & _).
  rewrite (@age_total _ _ _ _ Hn Hd) in Ed, Es. split; assumption.
Qed.

(** The five buckets of [epoch_to_age], by the age in microseconds. *)
Lemma epoch_to_age_buckets (time epoch : Z) (now d : datetime) :
  fromtimestamp utcoffset time = Returns now ->
  fromtimestamp utcoffset epoch = Returns d ->
  let e := elapsed utcoffset time epoch in
  epoch_to_age utcoffset time epoch =
  Returns
    (if e <? 60000000 then str "just now"
     else if e <? 3600000000
     then str_of_Z ((e / 1000000) mod 86400 / 60) ++ str " minutes ago"
     else if e <? 86400000000
     then str_of_Z ((e / 1000000) mod 86400 / 3600) ++ str " hours ago"
     else if e <? 172800000000 then str "yesterday"
     else str_of_Z (e / 86400000000) ++ str " days ago ("
          ++ strftime_Ymd d ++ str ")").
Proof.
  intros Hn Hd e. unfold epoch_to_age. rewrite Hn, Hd. cbn [bind].
  rewrite !(fun dd h m s us => @age_lt _ _ _ _ dd h m s us Hn Hd).
  destruct (@age_fields _ _ _ _ Hn Hd) as [Ed Es]. rewrite Ed, Es. fold e.
  change ((((0 * 24 + 0) * 60 + 1) * 60 + 0) * 1000000 + 0) with 60000000.
  change ((((0 * 24 + 1) * 60 + 0) * 60 + 0) * 1000000 + 0) with 3600000000.
  change ((((1 * 24 + 0) * 60 + 0) * 60 + 0) * 1000000 + 0) with 86400000000.
  change ((((2 * 24 + 0) * 60 + 0) * 60 + 0) * 1000000 + 0)
    with 172800000000.
  repeat (destruct (e <? _); [reflexivity|]). reflexivity.
Qed.

(** [epoch_to_age] raises when, and only when, one of the two calls of
    [fromtimestamp] does. *)
Lemma epoch_to_age_raises (time epoch : Z) :
  epoch_to_age utcoffset time epoch = Raises OutOfRange <->
  fromtimestamp utcoffset time = Raises OutOfRange \/
  fromtimestamp utcoffset epoch = Raises OutOfRange.
Proof.
  destruct (fromtimestamp utcoffset time) as [now|[]] eqn:Hn.
  - destruct (fromtimestamp utcoffset epoch) as [d|[]] eqn:Hd.
    + rewrite (@epoch_to_age_buckets _ _ _ _ Hn Hd). cbv zeta.
      split; [discriminate | intros [H|H]; discriminate H].
    + unfold epoch_to_age. rewrite Hn, Hd. cbn [bind]. tauto.
  - unfold epoch_to_age. rewrite Hn. cbn [bind]. tauto.
Qed.

End ClockFacts.

Section DigitFacts.

Local Open Scope Z_scope.

Lemma two_digits_checked :
  forallb (fun k => text_eqb (zfill 2 (Z.of_nat k)) (two_digits (Z.of_nat k)))
          (seq 0 100) = true.
Proof. vm_compute. reflexivity. Qed.

Lemma zfill_two_digits (n : Z) :
  0 <= n <= 99 -> zfill 2 n = two_digits n.
Proof.
  intros Hn. pose proof two_digits_checked as H.
  rewrite forallb_forall in H. specialize (H (Z.to_nat n)).
  rewrite Z2Nat.id in H by lia.
  apply text_eqb_eq, H, in_seq. lia.
Qed.

Lemma four_digits_checked :
  forallb (fun k => text_eqb (str_of_Z (Z.of_nat k))
                             (four_digits (Z.of_nat k)))
          (seq (Z.to_nat 1000) (Z.to_nat 9000)) = true.
Proof. vm_compute. reflexivity. Qed.

Lemma str_of_Z_four_digits (n : Z) :
  1000 <= n <= 9999 -> str_of_Z n = four_digits n.
Proof.
  intros Hn. pose proof four_digits_checked as H.
  rewrite forallb_forall in H. specialize (H (Z.to_nat n)).
  rewrite Z2Nat.id in H by lia.
  apply text_eqb_eq, H, in_seq. lia.
Qed.

(** The date as [strftime] prints it. *)
Lemma strftime_Ymd_digits (d : datetime) :
  1 <= month d <= 12 -> 1 <= day d <= 31 ->
  strftime_Ymd d
  = str_of_Z (year d) ++ str "-" ++ two_digits (month d) ++ str "-"
    ++ two_digits (day d).
Proof.
  intros Hm Hd. unfold strftime_Ymd.
  rewrite !zfill_two_digits by lia. reflexivity.
Qed.

End DigitFacts.

Section AgeTheorems.

Local Open Scope Z_scope.

(** C4 as stated fails at the ends of the calendar: on a UTC clock reading
    2023-11-14 22:13:20, the timestamp of 0987-08-25 is shown with a year
    of three digits, and for the first second of the year 10000 the call
    raises. *)
Lemma epoch_to_age_counterexample :
  epoch_to_age utc 1700000000000000 (-31000060800000000)
  = Returns (str "378472 days ago (987-08-25)") /\
  epoch_to_age utc 1700000000000000 253402300800000000
  = Raises OutOfRange.
Proof. split; vm_compute; reflexivity. Qed.

(** C4, amended: when [datetime.fromtimestamp] accepts the reading of the
    clock and the timestamp, [epoch_to_age] tries its buckets in order on
    the age, the difference of the two local datetimes: the time elapsed,
    plus the change of the offset of the zone in between.  Below one minute
    (negative ages too) it is "just now"; below one hour the minutes, the
    floor of the remainder-of-day seconds of the age by 60; below one day
    the hours, the floor of the same seconds by 3600; below two days
    "yesterday"; from two days on the whole elapsed days and the local date
    of the timestamp: the year as a number (four digits from the year 1000
    on), a dash, the month on two digits, a dash, the day on two digits.
    An age of 90 seconds gives "1 minutes ago" and one of 90000 seconds
    "yesterday".  The call raises exactly when [datetime.fromtimestamp]
    rejects the reading of the clock or the timestamp.  The examples are
    evaluated on a UTC clock reading 2023-11-14 22:13:20. *)
Theorem epoch_to_age_spec :
  (forall (utcoffset : Z -> Z) (time epoch : Z) (now d : datetime),
     fromtimestamp utcoffset time = Returns now ->
     fromtimestamp utcoffset epoch = Returns d ->
     let age := datetime_sub now d in
     let e := elapsed utcoffset time epoch in
     let out := epoch_to_age utcoffset time epoch in
     (total_microseconds age = e /\
      seconds age = (e / 1000000) mod 86400 /\
      days age = e / 86400000000) /\
     (utcoffset (time / 1000000) = utcoffset (epoch / 1000000) ->
      e = time - epoch) /\
     (e < 60000000 -> out = Returns (str "just now")) /\
     (60000000 <= e < 3600000000 ->
        out = Returns (str_of_Z (seconds age / 60) ++ str " minutes ago")) /\
     (3600000000 <= e < 86400000000 ->
        out = Returns (str_of_Z (seconds age / 3600) ++ str " hours ago")) /\
     (86400000000 <= e < 172800000000 -> out = Returns (str "yesterday")) /\
     (172800000000 <= e ->
        out = Returns (str_of_Z (days age) ++ str " days ago ("
                       ++ str_of_Z (year d) ++ str "-"
                       ++ two_digits (month d) ++ str "-"
                       ++ two_digits (day d) ++ str ")")) /\
     ((year d, month d, day d) = local_date utcoffset epoch /\
      1 <= year d <= 9999 /\ 1 <= month d <= 12 /\ 1 <= day d <= 31) /\
     (1000 <= year d -> str_of_Z (year d) = four_digits (year d)) /\
     (e = 30000000 -> out = Returns (str "just now")) /\
     (e = 90000000 -> out = Returns (str "1 minutes ago")) /\
     (e = 3700000000 -> out = Returns (str "1 hours ago")) /\
     (e = 90000000000 -> out = Returns (str "yesterday")) /\
     (e = 200000000000 ->
        out = Returns (str "2 days ago (" ++ str_of_Z (year d) ++ str "-"
                       ++ two_digits (month d) ++ str "-"
                       ++ two_digits (day d) ++ str ")"))) /\
  (forall (utcoffset : Z -> Z) (time epoch : Z),
     epoch_to_age utcoffset time epoch = Raises OutOfRange <->
     fromtimestamp utcoffset time = Raises OutOfRange \/
     fromtimestamp utcoffset epoch = Raises OutOfRange) /\
  List.map (fun back => epoch_to_age utc 1700000000000000
                                     (1700000000000000 - back * 1000000))
           [30; 59; 60; 90; 3599; 3600; 3700; 86399; 86400; 90000;
            172799; 172800; 200000]
  = List.map (fun s => Returns (str s))
      [ "just now"; "just now"; "1 minutes ago"; "1 minutes ago";
        "59 minutes ago"; "1 hours ago"; "1 hours ago"; "23 hours ago";
        "yesterday"; "yesterday"; "yesterday";
        "2 days ago (2023-11-12)"; "2 days ago (2023-11-12)" ]%string.
Proof.
  split; [|split; [exact epoch_to_age_raises | vm_compute; reflexivity]].
  intros utcoffset time epoch now d Hn Hd age e out.
  destruct (@age_fields utcoffset _ _ _ _ Hn Hd) as [Hdays Hsecs].
  fold age e in Hdays, Hsecs.
  pose proof (@epoch_to_age_buckets utcoffset _ _ _ _ Hn Hd) as Hb.
  fold e out in Hb. cbv zeta in Hb. rewrite <- Hdays, <- Hsecs in Hb.
  destruct (@fromtimestamp_inv utcoffset _ _ Hd) as (Hdate & Hrange & _).
  rewrite strftime_Ymd_digits in Hb by lia.
  rewrite <- !app_assoc in Hb.
  assert (L : forall a b : Z, a < b -> (a <? b) = true)
    by (intros; apply Z.ltb_lt; assumption).
  assert (G : forall a b : Z, b <= a -> (a <? b) = false)
    by (intros; apply Z.ltb_ge; assumption).
  split.
  { split; [apply (@age_total utcoffset _ _ _ _ Hn Hd)|].
    split; assumption. }
  split.
  { intros Eo. unfold e, elapsed. rewrite Eo. lia. }
  split; [intros He; rewrite Hb, L by lia; reflexivity|].
  split; [intros He; rewrite Hb, G, L by lia; reflexivity|].
  split; [intros He; rewrite Hb, !G, L by lia; reflexivity|].
  split; [intros He; rewrite Hb, !G, L by lia; reflexivity|].
  split; [intros He; rewrite Hb, !G by lia; reflexivity|].
  split; [split; [exact Hdate | lia]|].
  split; [intros Hy; apply str_of_Z_four_digits; lia|].
  split; [intros He; rewrite Hb, L by lia; reflexivity|].
  split; [intros He; rewrite Hb, G, L by lia; rewrite Hsecs, He;
          reflexivity|].
  split; [intros He; rewrite Hb, !G, L by lia; rewrite Hsecs, He;
          reflexivity|].
  split; [intros He; rewrite Hb, !G, L by lia; reflexivity|].
  intros He. rewrite Hb, !G by lia. rewrite Hdays, He. reflexivity.
Qed.

Lemma epoch_to_age_spec_witness :
  epoch_to_age utc 1700000000000000 1699800000000000
  = Returns (str "2 days ago (2023-11-12)").
Proof.
  destruct epoch_to_age_spec as [H _].
  destruct (fromtimestamp utc 1700000000000000) as [now|] eqn:Hn;
    [|discriminate Hn].
  destruct (fromtimestamp utc 1699800000000000) as [d|] eqn:Hd;
    [|discriminate Hd].
  specialize (H utc _ _ now d Hn Hd). cbv zeta in H.
  destruct H as (_ & _ & _ & _ & _ & _ & H & _).
  rewrite H by (vm_compute; discriminate).
  vm_compute in Hn. injection Hn as <-.
  vm_compute in Hd. injection Hd as <-.
  vm_compute. reflexivity.
Defined.

(** C9 as stated fails where the local clock is set back: in Central
    European Time, with the clock reading 2023-10-29 00:59:59 UTC (02:59:59
    local summer time), the timestamp ten seconds later (02:00:09 local
    time) is 59 minutes and 50 seconds behind on the wall clock.  And a
    future timestamp beyond the year 9999 makes the call raise. *)
Lemma epoch_to_age_future_counterexample :
  1698541199000000 < 1698541209000000 /\
  epoch_to_age cet_2023 1698541199000000 1698541209000000
  = Returns (str "59 minutes ago") /\
  1700000000000000 < 253402300800000000 /\
  epoch_to_age utc 1700000000000000 253402300800000000 = Raises OutOfRange.
Proof. repeat split; vm_compute; reflexivity. Qed.

(** C9, amended: for a timestamp in the future of the system clock, when
    [datetime.fromtimestamp] accepts both the reading of the clock and the
    timestamp and the offset of the zone at the timestamp is not below the
    offset at the reading (the local clock is not set back in between, as
    in every zone with a fixed offset), the age is negative, the first
    comparison, age below one minute, holds, and [epoch_to_age] answers
    "just now". *)
Theorem epoch_to_age_future :
  forall (utcoffset : Z -> Z) (time epoch : Z) (now d : datetime),
    time < epoch ->
    fromtimestamp utcoffset time = Returns now ->
    fromtimestamp utcoffset epoch = Returns d ->
    utcoffset (time / 1000000) <= utcoffset (epoch / 1000000) ->
    days (datetime_sub now d) < 0 /\
    timedelta_lt (datetime_sub now d) (make_timedelta 0 0 1 0 0) = true /\
    epoch_to_age utcoffset time epoch = Returns (str "just now").
Proof.
  intros utcoffset time epoch now d Hlt Hn Hd Hoff.
  assert (He : elapsed utcoffset time epoch < 0) by (unfold elapsed; lia).
  destruct (@age_fields utcoffset _ _ _ _ Hn Hd) as [Hdays _].
  split; [|split].
  - rewrite Hdays. apply Z.div_lt_upper_bound; lia.
  - rewrite (@age_lt utcoffset _ _ _ _ 0 0 1 0 0 Hn Hd).
    apply Z.ltb_lt. lia.
  - rewrite (@epoch_to_age_buckets utcoffset _ _ _ _ Hn Hd). cbv zeta.
    assert (H : (elapsed utcoffset time epoch <? 60000000) = true)
      by (apply Z.ltb_lt; lia).
    rewrite H. reflexivity.
Qed.

Lemma epoch_to_age_future_witness :
  days (datetime_sub
          {| year := 2023; month := 11; day := 14;
             hour := 22; minute := 13; second := 20; microsecond := 0 |}
          {| year := 2023; month := 11; day := 14;
             hour := 22; minute := 13; second := 25; microsecond := 0 |})
  < 0 /\
  timedelta_lt
    (datetime_sub
       {| year := 2023; month := 11; day := 14;
          hour := 22; minute := 13; second := 20; microsecond := 0 |}
       {| year := 2023; month := 11; day := 14;
          hour := 22; minute := 13; second := 25; microsecond := 0 |})
    (make_timedelta 0 0 1 0 0) = true /\
  epoch_to_age utc 1700000000000000 1700000005000000
  = Returns (str "just now").
Proof.
  apply (@epoch_to_age_future utc 1700000000000000 1700000005000000).
  - reflexivity.
  - vm_compute. reflexivity.
  - vm_compute. reflexivity.
  - vm_compute. discriminate.
Defined.

End AgeTheorems.

(* ================================================================= *)
(** ** The matcher: what a listed match is *)

Lemma one_reads (p : N -> bool) (st st' : state) :
  In st' (one p st) -> reads p st st'.
Proof.
  unfold one, reads, advance.
  destruct (rest st) as [|c r] eqn:E; [intros []|].
  destruct (p c) eqn:Hp; [|intros []].
  intros [<-|[]]. exists c, r. auto.
Qed.

Lemma iter_rtc (body : state -> list state) (R : state -> state -> Prop) :
  (forall st st', In st' (body st) -> R st st') ->
  forall n st st', In st' (iter body n st) -> rtc R st st'.
Proof.
  intros Hbody. induction n as [|n IH]; intros st st' Hin.
  - destruct Hin as [<-|[]]. constructor.
  - cbn [iter] in Hin. apply in_app_iff in Hin.
    destruct Hin as [Hin|[<-|[]]]; [|constructor].
    apply in_flat_map in Hin. destruct Hin as (m & Hm & Hin).
    destruct (pos st <? pos m); [|destruct Hin].
    econstructor; [apply Hbody; exact Hm | apply IH; exact Hin].
Qed.

Lemma matches_sem (r : regex) :
  forall st st', In st' (matches r st) -> sem r st st'.
Proof.
  induction r as [c|w| |cs| | |r1 IH1 r2 IH2|r1 IH1 r2 IH2|n r1 IH1
                  |r1 IH1|r1 IH1|r1 IH1];
    intros st st' Hin; cbn [matches sem] in *.
  - apply one_reads; exact Hin.
  - destruct (startswith (rest st) w) eqn:E; [|destruct Hin].
    apply startswith_app in E. destruct E as (r & E).
    destruct Hin as [<-|[]]. exists r. split; [exact E|].
    unfold advance. rewrite E, skipn_app, skipn_all, Nat.sub_diag.
    reflexivity.
  - apply one_reads; exact Hin.
  - apply one_reads; exact Hin.
  - apply one_reads; exact Hin.
  - destruct (pos st =? 0) eqn:E; [|destruct Hin].
    apply Nat.eqb_eq in E. destruct Hin as [<-|[]]. auto.
  - apply in_flat_map in Hin. destruct Hin as (m & Hm & Hin). eauto.
  - apply in_app_iff in Hin. destruct Hin; auto.
  - apply in_map_iff in Hin. destruct Hin as (m & <- & Hm). eauto.
  - apply in_app_iff in Hin. destruct Hin as [|[<-|[]]]; auto.
  - eapply iter_rtc; eauto.
  - apply in_flat_map in Hin. destruct Hin as (m & Hm & Hin).
    exists m. split; [auto|]. eapply iter_rtc; eauto.
Qed.

(** A run of single characters: the text read and the state reached. *)
Lemma rtc_reads (p : N -> bool) (st st' : state) :
  rtc (reads p) st st' ->
  exists w, forallb p w = true /\ rest st = w ++ rest st' /\
            pos st' = pos st + length w /\ caps st' = caps st.
Proof.
  induction 1 as [st|st m st' (c & r & E & Hp & ->) _ IH].
  - exists []. cbn. auto.
  - destruct IH as (w & Hw & Er & Ep & Ec). cbn [rest pos caps] in *.
    exists (c :: w). cbn [forallb length app].
    rewrite Hp, Hw, E, Er, Ep, Ec. repeat split. lia.
Qed.

(** What a match reads. *)

Lemma consumes_refl (st : state) : consumes st st.
Proof. exists []. cbn. auto. Qed.

Lemma consumes_trans (a b c : state) :
  consumes a b -> consumes b c -> consumes a c.
Proof.
  intros (w & E1 & P1) (v & E2 & P2). exists (w ++ v).
  rewrite E1, E2, P2, P1, length_app, <- app_assoc. split; [reflexivity|lia].
Qed.

Lemma reads_consumes (p : N -> bool) (st st' : state) :
  reads p st st' -> consumes st st'.
Proof. intros (c & r & E & _ & ->). exists [c]. cbn. auto. Qed.

Lemma rtc_consumes (R : state -> state -> Prop) :
  (forall st st', R st st' -> consumes st st') ->
  forall st st', rtc R st st' -> consumes st st'.
Proof.
  intros HR st st'. induction 1 as [|a b c Hab _ IH].
  - apply consumes_refl.
  - eapply consumes_trans; [apply HR; exact Hab | exact IH].
Qed.

Lemma sem_consumes (r : regex) :
  forall st st', sem r st st' -> consumes st st'.
Proof.
  induction r as [c|w| |cs| | |r1 IH1 r2 IH2|r1 IH1 r2 IH2|n r1 IH1
                  |r1 IH1|r1 IH1|r1 IH1];
    intros st st' H; cbn [sem] in H.
  - eapply reads_consumes; eauto.
  - destruct H as (r & E & ->). exists w. cbn. auto.
  - eapply reads_consumes; eauto.
  - eapply reads_consumes; eauto.
  - eapply reads_consumes; eauto.
  - destruct H as [_ ->]. apply consumes_refl.
  - destruct H as (m & H1 & H2). eapply consumes_trans; eauto.
  - destruct H; auto.
  - destruct H as (m & H1 & ->). apply IH1 in H1.
    destruct H1 as (v & E & P). exists v. cbn. auto.
  - destruct H as [H| ->]; [auto | apply consumes_refl].
  - eapply rtc_consumes; eauto.
  - destruct H as (m & H1 & H2).
    eapply consumes_trans; [eauto | eapply rtc_consumes; eauto].
Qed.

Lemma matches_consumes (r : regex) (st st' : state) :
  In st' (matches r st) -> consumes st st'.
Proof. intros H. apply sem_consumes with (r := r), matches_sem, H. Qed.

Lemma consumes_length (st st' : state) :
  consumes st st' ->
  length (rest st) = (pos st' - pos st) + length (rest st') /\
  pos st <= pos st'.
Proof. intros (w & E & P). rewrite E, P, length_app. lia. Qed.

(* ================================================================= *)
(** ** The loop of [re.sub]: an induction principle *)

Lemma match_at_In (p : regex) (ma : bool) (st m : state) :
  match_at p ma st = Some m -> In m (matches p st).
Proof. unfold match_at. intros H. apply find_some in H. tauto. Qed.

Lemma search_sound (p : regex) :
  forall s ma i skipped j m,
    search p ma i s = Some (skipped, j, m) ->
    exists s', s = skipped ++ s' /\ j = i + length skipped /\
               In m (matches p {| pos := j; rest := s'; caps := [] |}).
Proof.
  induction s as [|c s IH]; intros ma i skipped j m H; cbn [search] in H.
  - destruct (match_at p ma _) as [m'|] eqn:E; [|discriminate].
    inversion H; subst. exists []. cbn. rewrite Nat.add_0_r.
    repeat split. eapply match_at_In; eauto.
  - destruct (match_at p ma _) as [m'|] eqn:E.
    + inversion H; subst. exists (c :: s). cbn. rewrite Nat.add_0_r.
      repeat split. eapply match_at_In; eauto.
    + destruct (search p false (S i) s) as [[[sk j'] m']|] eqn:Es;
        [|discriminate].
      inversion H; subst.
      destruct (IH _ _ _ _ _ Es) as (s' & -> & -> & Hin).
      exists s'. cbn [app length]. repeat split; [lia|].
      replace (i + S (length sk)) with (S i + length sk) by lia.
      exact Hin.
Qed.

Section SubInduction.

Variable p : regex.
Variable repl : list item.

(** A relation between what is left of the subject at a position and what
    the loop makes of it. *)
Variable R : nat -> text -> text -> Prop.

Hypothesis R_refl : forall i s, R i s s.
Hypothesis R_copy : forall i c s t, R (S i) s t -> R i (c :: s) (c :: t).
Hypothesis R_match :
  forall j s m t,
    In m (matches p {| pos := j; rest := s; caps := [] |}) ->
    R (pos m) (rest m) t -> R j s (expand repl m ++ t).

Lemma R_skip (skipped : text) :
  forall i s t, R (i + length skipped) s t ->
                R i (skipped ++ s) (skipped ++ t).
Proof.
  induction skipped as [|c sk IH]; intros i s t H; cbn [app length] in *.
  - rewrite Nat.add_0_r in H. exact H.
  - apply R_copy. apply IH.
    replace (S i + length sk) with (i + S (length sk)) by lia. exact H.
Qed.

Lemma sub_loop_rel :
  forall fuel ma i s, R i s (sub_loop fuel p repl ma i s).
Proof.
  induction fuel as [|fuel IH]; intros ma i s; cbn [sub_loop].
  - apply R_refl.
  - destruct (search p ma i s) as [[[skipped j] m]|] eqn:E;
      [|apply R_refl].
    destruct (search_sound _ _ _ _ E) as (s' & -> & -> & Hin).
    apply R_skip. apply R_match with (1 := Hin). apply IH.
Qed.

Lemma sub_rel (s : text) : R 0 s (Re.sub p repl s).
Proof. apply sub_loop_rel. Qed.

End SubInduction.

(* ================================================================= *)
(** ** The fuel of the repetitions and of the loop is enough *)

Lemma flat_map_agree (A B : Type) (f g : A -> list B) (l : list A) :
  (forall x, In x l -> f x = g x) -> flat_map f l = flat_map g l.
Proof.
  induction l as [|x l IH]; intros H; [reflexivity|].
  cbn [flat_map]. rewrite H by (left; reflexivity). f_equal.
  apply IH. intros y Hy. apply H. right; exact Hy.
Qed.

Lemma flat_map_nil (A B : Type) (f : A -> list B) (l : list A) :
  (forall x, In x l -> f x = []) -> flat_map f l = [].
Proof.
  induction l as [|x l IH]; intros H; [reflexivity|].
  cbn [flat_map]. rewrite H by (left; reflexivity).
  apply IH. intros y Hy. apply H. right; exact Hy.
Qed.

(** The rounds of a repetition are bounded by the characters left: more
    fuel than that changes nothing. *)
Lemma iter_fuel (body : state -> list state) :
  (forall st st', In st' (body st) -> consumes st st') ->
  forall n k st, length (rest st) <= n ->
                 iter body (n + k) st = iter body n st.
Proof.
  intros Hbody. induction n as [|n IH]; intros k st Hn.
  - destruct k as [|k]; [reflexivity|]. cbn [Nat.add iter].
    rewrite flat_map_nil; [reflexivity|].
    intros m Hm. apply Hbody, consumes_length in Hm.
    destruct (Nat.ltb_spec (pos st) (pos m)); [lia | reflexivity].
  - cbn [Nat.add iter]. f_equal. apply flat_map_agree.
    intros m Hm. apply Hbody, consumes_length in Hm.
    destruct (Nat.ltb_spec (pos st) (pos m)); [|reflexivity].
    apply IH. lia.
Qed.

Lemma star_fuel (r : regex) (st : state) (k : nat) :
  iter (matches r) (length (rest st) + k) st = matches (Star r) st.
Proof.
  cbn [matches]. apply iter_fuel; [|lia].
  intros a b. apply matches_consumes.
Qed.

(** What [search] finds ends no earlier than it starts, and later when it
    had to advance from where the search began. *)
Lemma search_progress (p : regex) :
  forall s ma i skipped j m,
    search p ma i s = Some (skipped, j, m) ->
    length s = length skipped + (pos m - j) + length (rest m) /\
    j <= pos m /\
    (ma = true -> skipped = [] -> j < pos m).
Proof.
  induction s as [|c s IH]; intros ma i skipped j m H; cbn [search] in H.
  - destruct (match_at p ma _) as [m'|] eqn:E; [|discriminate].
    inversion H; subst. unfold match_at in E. apply find_some in E.
    destruct E as [Hin Hf]. apply matches_consumes, consumes_length in Hin.
    cbn [pos rest length] in *. repeat split; try lia.
    intros -> _. cbn in Hf. apply Nat.ltb_lt in Hf. exact Hf.
  - destruct (match_at p ma _) as [m'|] eqn:E.
    + inversion H; subst. unfold match_at in E. apply find_some in E.
      destruct E as [Hin Hf]. apply matches_consumes, consumes_length in Hin.
      cbn [pos rest length] in *. repeat split; try lia.
      intros -> _. cbn in Hf. apply Nat.ltb_lt in Hf. exact Hf.
    + destruct (search p false (S i) s) as [[[sk j'] m']|] eqn:Es;
        [|discriminate].
      inversion H; subst.
      destruct (IH _ _ _ _ _ Es) as (Hl & Hj & _).
      cbn [length]. repeat split; try lia. discriminate.
Qed.

(** The loop of [re.sub] is given fuel enough: more changes nothing. *)
Lemma sub_loop_fuel (p : regex) (repl : list item) :
  forall fuel k ma i s,
    rounds ma s < fuel ->
    sub_loop (fuel + k) p repl ma i s = sub_loop fuel p repl ma i s.
Proof.
  induction fuel as [|fuel IH]; intros k ma i s Hf; [lia|].
  cbn [Nat.add sub_loop].
  destruct (search p ma i s) as [[[skipped j] m]|] eqn:E; [|reflexivity].
  do 2 f_equal. apply IH.
  destruct (search_progress _ _ _ _ E) as (Hl & Hj & Hadv).
  unfold rounds in *.
  destruct (Nat.eqb_spec (pos m) j) as [Ej|Ej].
  - destruct ma; [|lia].
    destruct skipped as [|c sk]; [specialize (Hadv eq_refl eq_refl)|];
      cbn [length] in *; lia.
  - lia.
Qed.

Lemma sub_fuel (p : regex) (repl : list item) (s : text) (k : nat) :
  sub_loop (2 * length s + 2 + k) p repl false 0 s = Re.sub p repl s.
Proof. unfold Re.sub. apply sub_loop_fuel. unfold rounds. lia. Qed.

(* ================================================================= *)
(** ** The first pass, line by line *)

Lemma firstn_exact (n : nat) (w r : text) :
  n = length w -> firstn n (w ++ r) = w.
Proof.
  intros ->. rewrite firstn_app, Nat.sub_diag, firstn_all. cbn.
  apply app_nil_r.
Qed.

Lemma forallb_not_LF (w : text) :
  forallb (fun c => negb (N.eqb c LF)) w = true -> ~ In LF w.
Proof.
  rewrite forallb_forall. intros H Hin. specialize (H _ Hin).
  rewrite N.eqb_refl in H. discriminate.
Qed.

Lemma reads_inv (p : N -> bool) (i : nat) (s : text)
  (cs : list (nat * text)) (st' : state) :
  reads p {| pos := i; rest := s; caps := cs |} st' ->
  exists c r, s = c :: r /\ p c = true /\
              st' = {| pos := i + 1; rest := r; caps := cs |}.
Proof. intros H; exact H. Qed.

Lemma message_match_shape (j : nat) (s : text) (m : state) :
  In m (matches message_pattern {| pos := j; rest := s; caps := [] |}) ->
  exists g1 g2 g3 r,
    s = g1 ++ g2 ++ g3 ++ colon :: r /\ rest m = r /\
    pos m = j + length (g1 ++ g2 ++ g3) + 1 /\
    (g1 = [] /\ j = 0 \/ g1 = [LF]) /\
    (g2 = [] \/ g2 = str "> ") /\
    g3 <> [] /\ ~ In LF g3 /\
    expand message_repl m = g1 ++ g3 ++ [colon].
Proof.
  intros H. apply matches_sem in H.
  cbn [sem message_pattern] in H.
  destruct H as (m1 & (m0 & H0 & ->) & m2 & H2 & m3
                 & (m3' & (m4 & Hd & Hr) & ->) & Hc).
  (* group 1 *)
  assert (G1 : exists g1 r1,
             s = g1 ++ r1 /\ (g1 = [] /\ j = 0 \/ g1 = [LF]) /\
             capture 1 {| pos := j; rest := s; caps := [] |} m0 =
             {| pos := j + length g1; rest := r1; caps := [(1, g1)] |}).
  { destruct H0 as [[Hj ->]|H0].
    - cbn in Hj. subst j. exists [], s. cbn. auto.
    - apply reads_inv in H0. destruct H0 as (c & r & -> & Hc0 & ->).
      apply N.eqb_eq in Hc0. subst c.
      exists [LF], r. unfold capture; cbn [pos rest caps length app].
      replace (j + 1 - j) with 1 by lia. cbn. auto. }
  destruct G1 as (g1 & r1 & -> & Hg1 & E1). rewrite E1 in H2. clear E1 H0.
  (* group 2 *)
  assert (G2 : exists g2 r2,
             r1 = g2 ++ r2 /\ (g2 = [] \/ g2 = str "> ") /\
             pos m2 = j + length g1 + length g2 /\ rest m2 = r2 /\
             lookup 1 (caps m2) = Some g1 /\ lookup 3 (caps m2) = None).
  { destruct H2 as [(ma & (mb & Ha & Hb) & ->)| ->].
    - apply reads_inv in Ha. destruct Ha as (c & r & -> & Hc0 & ->).
      apply reads_inv in Hb. destruct Hb as (c' & r' & -> & Hc1 & ->).
      cbn in Hc0. rewrite orb_false_r in Hc0.
      apply N.eqb_eq in Hc0, Hc1. subst c c'.
      exists (str "> "), r'. cbn. repeat split; auto; lia.
    - exists [], r1. cbn. repeat split; auto; lia. }
  destruct G2 as (g2 & r2 & -> & Hg2 & Hp2 & Hr2 & Hl1 & Hl3).
  (* group 3 *)
  destruct m2 as [p2 s2 c2]. cbn [pos rest caps] in *. subst s2 p2.
  apply reads_inv in Hd. destruct Hd as (c & r & -> & Hc0 & ->).
  apply rtc_reads in Hr. destruct Hr as (w & Hw & Er & Ep & Ec).
  cbn [pos rest caps] in Er, Ep, Ec. subst r.
  destruct m3' as [p3 s3 c3]. cbn [pos rest caps] in *. subst p3 c3.
  unfold capture in Hc; cbn [pos rest caps] in Hc.
  clear H2. change (c :: w ++ s3) with ((c :: w) ++ s3) in Hc.
  rewrite (@firstn_exact _ (c :: w)) in Hc by (cbn [length]; lia).
  apply reads_inv in Hc. destruct Hc as (c' & r & -> & Hc1 & ->).
  apply N.eqb_eq in Hc1. subst c'.
  exists g1, g2, (c :: w), r. cbn [pos rest caps].
  split; [reflexivity|]. split; [reflexivity|].
  split; [rewrite !length_app; cbn [length]; lia|].
  split; [exact Hg1|]. split; [exact Hg2|]. split; [discriminate|].
  split.
  - apply forallb_not_LF. cbn [forallb]. rewrite Hc0, Hw. reflexivity.
  - unfold expand, message_repl, group.
    cbn [List.map caps lookup Nat.eqb concat].
    rewrite Hl1. reflexivity.
Qed.

Lemma lines_cons (c : N) (s : text) :
  lines (c :: s) =
  if N.eqb c LF then [] :: lines s
  else (c :: hd [] (lines s)) :: tl (lines s).
Proof.
  unfold lines. rewrite split_char_cons.
  destruct (N.eqb c LF); [reflexivity|].
  pose proof (split_char_not_nil LF s) as Hne.
  destruct (split s [LF]); [congruence | reflexivity].
Qed.

Lemma lines_app (w s : text) :
  ~ In LF w ->
  lines (w ++ s) = (w ++ hd [] (lines s)) :: tl (lines s).
Proof.
  induction w as [|c w IH]; intros Hn.
  - cbn [app]. pose proof (split_char_not_nil LF s) as Hne.
    unfold lines in *. destruct (split s [LF]); [congruence | reflexivity].
  - cbn [app]. rewrite lines_cons.
    assert (E : N.eqb c LF = false)
      by (apply N.eqb_neq; intros ->; apply Hn; left; reflexivity).
    rewrite E, IH by (intros H; apply Hn; right; exact H).
    reflexivity.
Qed.

Lemma lines_not_nil (s : text) : lines s <> [].
Proof. apply split_char_not_nil. Qed.

Lemma join_lines (s : text) : join [LF] (lines s) = s.
Proof. apply join_split_char. Qed.

Lemma stripped_refl (l : text) : stripped l l.
Proof. left; reflexivity. Qed.

Lemma Forall2_stripped_refl (ls : list text) : Forall2 stripped ls ls.
Proof. induction ls; constructor; auto using stripped_refl. Qed.

Lemma normalized_from_refl (j : nat) (s : text) : normalized_from j s s.
Proof. split; [apply Forall2_stripped_refl | reflexivity]. Qed.

Lemma Forall2_hd_tl (s t : text) :
  Forall2 stripped (lines s) (lines t) ->
  hd [] (lines s) = hd [] (lines t) ->
  forall w, Forall2 stripped ((w ++ hd [] (lines s)) :: tl (lines s))
                             ((w ++ hd [] (lines t)) :: tl (lines t)).
Proof.
  intros HF Hh w.
  pose proof (lines_not_nil s) as Hs. pose proof (lines_not_nil t) as Ht.
  destruct (lines s) as [|l ls]; [congruence|].
  destruct (lines t) as [|l' ls']; [congruence|].
  cbn [hd tl] in *. subst l'. inversion HF; subst.
  constructor; [apply stripped_refl | assumption].
Qed.

Lemma normalized_from_copy (i : nat) (c : N) (s t : text) :
  normalized_from (S i) s t -> normalized_from i (c :: s) (c :: t).
Proof.
  intros [HF Hh]. specialize (Hh ltac:(discriminate)).
  unfold normalized_from. rewrite !lines_cons.
  destruct (N.eqb c LF).
  - split; [constructor; [apply stripped_refl | exact HF] | reflexivity].
  - split.
    + apply (Forall2_hd_tl _ _ HF Hh [c]).
    + intros _. cbn [hd]. rewrite Hh. reflexivity.
Qed.

Lemma normalized_from_match (j : nat) (s : text) (m : state) (t : text) :
  In m (matches message_pattern {| pos := j; rest := s; caps := [] |}) ->
  normalized_from (pos m) (rest m) t ->
  normalized_from j s (expand message_repl m ++ t).
Proof.
  intros Hm [HF Hh].
  destruct (message_match_shape _ _ _ Hm)
    as (g1 & g2 & g3 & r & -> & Er & Ep & Hg1 & Hg2 & Hne & Hnl & ->).
  rewrite Er in *. specialize (Hh ltac:(lia)).
  assert (Hn3 : ~ In LF (g3 ++ [colon])).
  { rewrite in_app_iff. intros [H|[H|[]]]; [auto | discriminate H]. }
  (* the line of the match, after groups 1 and 2 *)
  assert (Hs : lines (g3 ++ colon :: r) =
               ((g3 ++ [colon]) ++ hd [] (lines r)) :: tl (lines r)).
  { rewrite <- (lines_app _ r Hn3), <- app_assoc. reflexivity. }
  assert (Ht : lines ((g3 ++ [colon]) ++ t) =
               ((g3 ++ [colon]) ++ hd [] (lines t)) :: tl (lines t)).
  { apply lines_app; exact Hn3. }
  assert (Hin : In colon ((g3 ++ [colon]) ++ hd [] (lines t))).
  { rewrite !in_app_iff. left; right; left; reflexivity. }
  assert (Hbody : Forall2 stripped
                    (lines (g2 ++ g3 ++ colon :: r))
                    (lines ((g3 ++ [colon]) ++ t)) /\
                  (g2 = [] ->
                   hd [] (lines (g2 ++ g3 ++ colon :: r)) =
                   hd [] (lines ((g3 ++ [colon]) ++ t)))).
  { destruct Hg2 as [->| ->].
    - cbn [app]. rewrite Hs, Ht. split.
      + apply Forall2_hd_tl; assumption.
      + intros _. cbn [hd]. rewrite Hh. reflexivity.
    - change (str "> " ++ g3 ++ colon :: r)
        with (62%N :: 32%N :: g3 ++ colon :: r).
      rewrite !lines_cons. cbn [N.eqb Pos.eqb LF hd tl]. rewrite Hs, Ht.
      cbn [hd tl]. split; [|discriminate].
      pose proof (Forall2_hd_tl _ _ HF Hh []) as HF'. cbn [app] in HF'.
      inversion HF'; subst.
      constructor; [|assumption].
      right. rewrite Hh. split; [reflexivity | exact Hin]. }
  destruct Hbody as [HB1 HB2].
  unfold normalized_from.
  replace ((g1 ++ g3 ++ [colon]) ++ t) with (g1 ++ (g3 ++ [colon]) ++ t)
    by (rewrite <- !app_assoc; reflexivity).
  destruct Hg1 as [[-> ->]| ->].
  - cbn [app]. split; [exact HB1 | intros H; congruence].
  - cbn [app]. rewrite !lines_cons. cbn [N.eqb Pos.eqb LF].
    split; [constructor; [apply stripped_refl | exact HB1] | reflexivity].
Qed.

(** Line by line, the first pass leaves a line as it is or deletes its
    leading marker. *)
Lemma normalize_messages_lines (s : text) :
  Forall2 stripped (lines s) (lines (normalize_messages s)).
Proof.
  unfold normalize_messages.
  exact (proj1 (@sub_rel message_pattern message_repl normalized_from
                  normalized_from_refl normalized_from_copy
                  normalized_from_match s)).
Qed.

Lemma Forall2_stripped_eq (ls ls' : list text) :
  Forall2 stripped ls ls' ->
  (forall l r, In l ls -> l = str "> " ++ r -> ~ In colon r) ->
  ls' = ls.
Proof.
  induction 1 as [|l l' ls ls' Hl _ IH]; intros Hno; [reflexivity|].
  f_equal.
  - destruct Hl as [E|[E Hc]]; [exact E|].
    exfalso. apply (Hno l l'); [left; reflexivity | exact E | exact Hc].
  - apply IH. intros l0 r Hin. apply Hno. right; exact Hin.
Qed.

Lemma normalize_messages_unchanged (s : text) :
  (forall l r, In l (lines s) -> l = str "> " ++ r -> ~ In colon r) ->
  normalize_messages s = s.
Proof.
  intros Hno.
  transitivity (join [LF] (lines (normalize_messages s)));
    [symmetry; apply join_lines|].
  transitivity (join [LF] (lines s)); [|apply join_lines].
  f_equal. apply Forall2_stripped_eq; [apply normalize_messages_lines|].
  exact Hno.
Qed.

(* ================================================================= *)
(** ** Counting occurrences across a character that is not in the needle *)

Lemma count_nonempty (s w : text) :
  w <> [] -> count s w = count_from w 0 s.
Proof. unfold count. destruct w; [congruence | reflexivity]. Qed.

Section CountAcross.

(** [w] is a non-empty needle and [b] a character that is not in it. *)
Variable w : text.
Variable b : N.
Hypothesis w_not_nil : w <> [].
Hypothesis b_not_in_w : ~ In b w.

Lemma startswith_length (s v : text) :
  startswith s v = true -> length v <= length s.
Proof.
  intros H. apply startswith_app in H. destruct H as (r & ->).
  rewrite length_app. lia.
Qed.

Lemma startswith_across (a c v : text) :
  ~ In b v -> startswith (a ++ b :: c) v = startswith a v.
Proof.
  revert a; induction v as [|y v IH]; intros a Hn; [reflexivity|].
  destruct a as [|x a]; cbn [app startswith].
  - assert (E : N.eqb b y = false)
      by (apply N.eqb_neq; intros ->; apply Hn; left; reflexivity).
    rewrite E. reflexivity.
  - rewrite IH by (intros H; apply Hn; right; exact H). reflexivity.
Qed.

Lemma count_from_across (c : text) :
  forall a k, k <= length a ->
    count_from w k (a ++ b :: c) = count_from w k a + count_from w 0 c.
Proof.
  induction a as [|x a IH]; intros k Hk.
  - cbn [length] in Hk. replace k with 0 by lia.
    pose proof (@startswith_across [] c w b_not_in_w) as E.
    cbn [app count_from] in *. rewrite E.
    destruct w as [|y v]; [congruence | reflexivity].
  - cbn [app count_from]. destruct k as [|k].
    + change (x :: a ++ b :: c) with ((x :: a) ++ b :: c).
      rewrite (@startswith_across (x :: a) c w b_not_in_w).
      destruct (startswith (x :: a) w) eqn:E.
      * apply startswith_length in E. cbn [length] in E.
        rewrite IH by lia. reflexivity.
      * apply IH. lia.
    + apply IH. cbn [length] in Hk. lia.
Qed.

Lemma count_across (a c : text) :
  count (a ++ b :: c) w = count a w + count c w.
Proof.
  rewrite !count_nonempty by exact w_not_nil.
  apply count_from_across. lia.
Qed.

Lemma count_join (ls : list text) :
  count (join [b] ls) w = list_sum (List.map (fun l => count l w) ls).
Proof.
  induction ls as [|l ls IH].
  - rewrite count_nonempty by exact w_not_nil. reflexivity.
  - destruct ls as [|l' ls].
    + cbn. lia.
    + change (join [b] (l :: l' :: ls)) with (l ++ b :: join [b] (l' :: ls)).
      rewrite count_across, IH. reflexivity.
Qed.

End CountAcross.

(* ================================================================= *)
(** ** The opener of the directive is kept by the first pass and by the
    indentation *)

Lemma opener_not_nil : opener <> [].
Proof. discriminate. Qed.

Lemma LF_not_in_opener : ~ In LF opener.
Proof.
  intros H. cbn in H.
  repeat (destruct H as [H|H]; [discriminate H|]). exact H.
Qed.

Lemma linebreak_not_in_opener (b : N) :
  islinebreak b = true -> ~ In b opener.
Proof.
  intros Hb H. cbn in H.
  repeat (destruct H as [H|H]; [subst b; discriminate Hb|]). exact H.
Qed.

Lemma occurrences_lines (s : text) :
  occurrences s = list_sum (List.map occurrences (lines s)).
Proof.
  unfold occurrences at 1. rewrite <- (join_lines s) at 1.
  apply count_join; [exact opener_not_nil | exact LF_not_in_opener].
Qed.

Lemma occurrences_marker (l : text) :
  occurrences (str "> " ++ l) = occurrences l.
Proof. reflexivity. Qed.

Lemma occurrences_prefix (l : text) :
  occurrences (str "   " ++ l) = occurrences l.
Proof. reflexivity. Qed.

Lemma occurrences_stripped (ls ls' : list text) :
  Forall2 stripped ls ls' ->
  list_sum (List.map occurrences ls) = list_sum (List.map occurrences ls').
Proof.
  induction 1 as [|l l' ls ls' Hl _ IH]; [reflexivity|].
  change (occurrences l + list_sum (List.map occurrences ls) =
          occurrences l' + list_sum (List.map occurrences ls')).
  rewrite IH. f_equal.
  destruct Hl as [->|[-> _]]; [reflexivity | apply occurrences_marker].
Qed.

Lemma occurrences_normalize_messages (s : text) :
  occurrences (normalize_messages s) = occurrences s.
Proof.
  rewrite (occurrences_lines s), (occurrences_lines (normalize_messages s)).
  symmetry. apply occurrences_stripped, normalize_messages_lines.
Qed.

Lemma terminated_cons (c : N) (l : text) :
  terminated l -> terminated (c :: l).
Proof. intros (a & b & -> & Hb). exists (c :: a), b. auto. Qed.

Lemma splitlines_terminated (s : text) :
  Forall terminated (removelast (splitlines_keepends s)).
Proof.
  induction s as [|c s IH]; [constructor|].
  cbn [splitlines_keepends].
  destruct (islinebreak c && negb ((c =? CR)%N && startswith s [LF])) eqn:E.
  - apply andb_true_iff in E. destruct E as [Hc _].
    destruct (splitlines_keepends s) as [|l ls] eqn:Es; [constructor|].
    change (removelast ([c] :: l :: ls)) with ([c] :: removelast (l :: ls)).
    constructor; [|exact IH]. exists [], c. auto.
  - destruct (splitlines_keepends s) as [|l ls] eqn:Es; [constructor|].
    destruct ls as [|l' ls]; [constructor|].
    change (removelast ((c :: l) :: l' :: ls))
      with ((c :: l) :: removelast (l' :: ls)).
    change (removelast (l :: l' :: ls))
      with (l :: removelast (l' :: ls)) in IH.
    inversion IH; subst.
    constructor; [apply terminated_cons|]; assumption.
Qed.

Lemma concat_splitlines (s : text) : concat (splitlines_keepends s) = s.
Proof.
  induction s as [|c s IH]; [reflexivity|].
  cbn [splitlines_keepends].
  destruct (islinebreak c && negb ((c =? CR)%N && startswith s [LF])).
  - cbn [concat app]. rewrite IH. reflexivity.
  - destruct (splitlines_keepends s) as [|l ls]; cbn [concat app] in *;
      rewrite <- IH; reflexivity.
Qed.

Lemma occurrences_indent_lines (ls : list text) :
  Forall terminated (removelast ls) ->
  occurrences (concat (List.map indent_line ls)) = occurrences (concat ls).
Proof.
  induction ls as [|l ls IH]; intros Hterm; [reflexivity|].
  destruct ls as [|l' ls].
  - cbn [List.map concat]. rewrite !app_nil_r.
    unfold indent_line. destruct (forallb isspace l);
      [reflexivity | apply occurrences_prefix].
  - change (removelast (l :: l' :: ls))
      with (l :: removelast (l' :: ls)) in Hterm.
    inversion Hterm as [|? ? (a & b & -> & Hb) Ht]; subst.
    specialize (IH Ht).
    cbn [List.map concat] in *.
    assert (E : exists q, indent_line (a ++ [b]) = q ++ a ++ [b] /\
                          occurrences (q ++ a) = occurrences a).
    { unfold indent_line. destruct (forallb isspace (a ++ [b])).
      - exists []. auto.
      - exists (str "   "). split; [reflexivity|].
        apply occurrences_prefix. }
    destruct E as (q & -> & Hq).
    pose proof (linebreak_not_in_opener Hb) as Hn.
    replace ((q ++ a ++ [b]) ++
             indent_line l' ++ concat (List.map indent_line ls))
      with ((q ++ a) ++ b ::
            indent_line l' ++ concat (List.map indent_line ls))
      by (rewrite <- !app_assoc; reflexivity).
    replace ((a ++ [b]) ++ l' ++ concat ls)
      with (a ++ b :: l' ++ concat ls)
      by (rewrite <- !app_assoc; reflexivity).
    unfold occurrences in *.
    rewrite !(@count_across opener b opener_not_nil Hn), IH, Hq.
    reflexivity.
Qed.

Lemma occurrences_indent (s : text) :
  occurrences (indent s (str "   ")) = occurrences s.
Proof.
  unfold indent. fold indent_line.
  rewrite occurrences_indent_lines by apply splitlines_terminated.
  rewrite concat_splitlines. reflexivity.
Qed.

(* ================================================================= *)
(** ** The insertion pass adds openers or changes nothing *)

Lemma count_from_miss (y : char) (w : text) (c : char) (s : text) :
  c <> y -> count_from (y :: w) 0 (c :: s) = count_from (y :: w) 0 s.
Proof.
  intros Hn. cbn [count_from startswith].
  apply N.eqb_neq in Hn. rewrite Hn. reflexivity.
Qed.

(** A prefix without the first character of the opener holds no opener and
    takes part in none. *)
Lemma occurrences_skip (x y : text) :
  ~ In dot x -> occurrences (x ++ y) = occurrences y.
Proof.
  induction x as [|c x IH]; intros Hn; [reflexivity|].
  rewrite <- IH by (intros H; apply Hn; right; exact H).
  unfold occurrences, count.
  change opener with (dot :: str ". chat::").
  cbn [app]. apply count_from_miss.
  intros ->. apply Hn. left; reflexivity.
Qed.

Lemma occurrences_LF (x y : text) :
  occurrences (x ++ LF :: y) = occurrences x + occurrences y.
Proof.
  apply count_across; [exact opener_not_nil | exact LF_not_in_opener].
Qed.

Lemma occurrences_opener : occurrences opener = 1.
Proof. reflexivity. Qed.

Lemma space_not_dot (w : text) : forallb isspace w = true -> ~ In dot w.
Proof.
  rewrite forallb_forall. intros H Hin. specialize (H _ Hin). discriminate H.
Qed.

Lemma hash_space_not_dot (w : text) :
  forallb (fun c => existsb (N.eqb c) (str "# ")) w = true -> ~ In dot w.
Proof.
  rewrite forallb_forall. intros H Hin. specialize (H _ Hin). discriminate H.
Qed.

(** The rounds of group 4: a newline and whitespace, each time; the groups
    other than 4 are kept. *)
Lemma rtc_newlines (a b : state) :
  rtc (sem (Group 4 (Chr LF ;; Star Space))) a b ->
  exists w, forallb isspace w = true /\ rest a = w ++ rest b /\
            pos b = pos a + length w /\
            (forall k, k <> 4 -> lookup k (caps b) = lookup k (caps a)).
Proof.
  induction 1 as [st|st m st' Hstep _ IH].
  - exists []. cbn. auto.
  - cbn [sem] in Hstep.
    destruct Hstep as (m1 & (m0 & Hr & Hs) & ->).
    destruct Hr as (c & r & E & Hc & ->). apply N.eqb_eq in Hc. subst c.
    apply rtc_reads in Hs. destruct Hs as (v & Hv & Ev & Pv & Cv).
    cbn [pos rest caps] in *.
    destruct IH as (w & Hw & Ew & Pw & Cw). cbn [capture pos rest caps] in *.
    exists (LF :: v ++ w). repeat split.
    + cbn [forallb]. rewrite forallb_app, Hv, Hw. reflexivity.
    + rewrite E, Ev, Ew. cbn [app]. rewrite app_assoc. reflexivity.
    + rewrite Pw, Pv. cbn [length]. rewrite length_app. lia.
    + intros k Hk. rewrite (Cw k Hk). cbn [lookup].
      destruct (Nat.eqb_spec 4 k); [congruence|]. rewrite Cv. reflexivity.
Qed.

Lemma directive_match_shape (j : nat) (s : text) (m : state) :
  In m (matches directive_pattern {| pos := j; rest := s; caps := [] |}) ->
  exists g1 pre g3 mid r,
    s = g1 ++ pre ++ g3 ++ mid ++ str "   User:" ++ r /\ rest m = r /\
    j < pos m /\
    (g1 = [] /\ j = 0 \/ g1 = [LF]) /\
    ~ In dot pre /\ ~ In LF g3 /\
    (pre = [] /\ g3 = [] /\ mid = [] \/
     exists mid', mid = LF :: mid' /\ ~ In dot mid') /\
    expand directive_repl m =
    g1 ++ g3 ++ [LF; LF] ++ opener ++ [LF; LF] ++ str "   User:".
Proof.
  intros H. apply matches_sem in H.
  cbn [sem directive_pattern] in H.
  destruct H as (m1 & (m0 & H0 & ->) & m2 & H2 & H3).
  assert (G1 : exists g1 r1,
             s = g1 ++ r1 /\ (g1 = [] /\ j = 0 \/ g1 = [LF]) /\
             capture 1 {| pos := j; rest := s; caps := [] |} m0 =
             {| pos := j + length g1; rest := r1; caps := [(1, g1)] |}).
  { destruct H0 as [[Hj ->]|H0].
    - cbn in Hj. subst j. exists [], s. cbn. auto.
    - apply reads_inv in H0. destruct H0 as (c & r & -> & Hc0 & ->).
      apply N.eqb_eq in Hc0. subst c.
      exists [LF], r. unfold capture; cbn [pos rest caps length app].
      replace (j + 1 - j) with 1 by lia. cbn. auto. }
  destruct G1 as (g1 & r1 & -> & Hg1 & E1). rewrite E1 in H2. clear E1 H0.
  assert (G2 : exists pre g3 mid r2,
             r1 = pre ++ g3 ++ mid ++ r2 /\ rest m2 = r2 /\
             j + length g1 <= pos m2 /\
             ~ In dot pre /\ ~ In LF g3 /\
             (pre = [] /\ g3 = [] /\ mid = [] \/
              exists mid', mid = LF :: mid' /\ ~ In dot mid') /\
             lookup 1 (caps m2) = Some g1 /\
             match lookup 3 (caps m2) with Some w => w | None => [] end
             = g3).
  { destruct H2 as [(ma & Hin & ->)| ->].
    - destruct Hin as (mb & (r & Eb & ->) & mc & (md & Hd & Hrd)
                       & me & (me' & (mf & Hf & Hrf) & ->)
                       & mg & Hg & Hrg).
      cbn [pos rest caps] in *. subst r1.
      (* the run of # and spaces *)
      apply reads_inv in Hd. destruct Hd as (c1 & r1 & -> & Hc1 & ->).
      apply rtc_reads in Hrd. destruct Hrd as (w1 & Hw1 & Ew1 & Pw1 & Cw1).
      cbn [pos rest caps] in *. subst r1.
      destruct mc as [pc sc cc]. cbn [pos rest caps] in *. subst pc cc.
      (* the heading *)
      apply reads_inv in Hf. destruct Hf as (c3 & r3 & -> & Hc3 & ->).
      apply rtc_reads in Hrf. destruct Hrf as (w3 & Hw3 & Ew3 & Pw3 & Cw3).
      cbn [pos rest caps] in *. subst r3.
      destruct me' as [pe se ce]. cbn [pos rest caps] in *. subst pe ce.
      unfold capture in Hg, Hrg; cbn [pos rest caps] in Hg, Hrg.
      change (c3 :: w3 ++ se) with ((c3 :: w3) ++ se) in Hg.
      rewrite (@firstn_exact _ (c3 :: w3)) in Hg by (cbn [length]; lia).
      (* the newlines *)
      cbn [sem] in Hg. destruct Hg as (mh & (mi & Hi & Hsi) & ->).
      apply reads_inv in Hi. destruct Hi as (c4 & r4 & -> & Hc4 & ->).
      apply N.eqb_eq in Hc4. subst c4.
      apply rtc_reads in Hsi. destruct Hsi as (w4 & Hw4 & Ew4 & Pw4 & Cw4).
      cbn [pos rest caps] in *. subst r4.
      apply rtc_newlines in Hrg.
      destruct Hrg as (w5 & Hw5 & Ew5 & Pw5 & Cw5).
      cbn [capture pos rest caps] in *.
      exists (str "   " ++ c1 :: w1), (c3 :: w3), (LF :: w4 ++ w5), (rest ma).
      split.
      { rewrite Ew5. cbn [app str List.map list_ascii_of_string].
        rewrite <- ?app_assoc. cbn [app]. rewrite <- ?app_assoc.
        reflexivity. }
      split; [reflexivity|].
      split; [rewrite Pw5; lia|].
      split.
      { change (str "   " ++ c1 :: w1)
          with (str "   " ++ [c1] ++ w1).
        rewrite !in_app_iff. intros [Hi|[Hi|Hi]].
        - cbn in Hi. repeat (destruct Hi as [Hi|Hi]; [discriminate Hi|]).
          exact Hi.
        - destruct Hi as [Hi|[]]. subst c1. discriminate Hc1.
        - revert Hi. apply hash_space_not_dot. exact Hw1. }
      split.
      { apply forallb_not_LF. cbn [forallb]. rewrite Hc3, Hw3. reflexivity. }
      split.
      { right. exists (w4 ++ w5). split; [reflexivity|].
        rewrite in_app_iff. intros [Hi|Hi]; revert Hi;
          apply space_not_dot; assumption. }
      cbn [lookup Nat.eqb].
      rewrite (Cw5 1 ltac:(discriminate)), (Cw5 3 ltac:(discriminate)).
      cbn [lookup Nat.eqb]. rewrite Cw4. cbn [lookup Nat.eqb].
      split; reflexivity.
    - exists [], [], [], r1. cbn [app pos rest caps lookup Nat.eqb].
      repeat split; auto; try lia. }
  destruct G2 as (pre & g3 & mid & r2 & -> & Er2 & Hp2 & Hpre & Hg3 & Hmid
                  & Hl1 & Hl3).
  destruct H3 as (r & E & ->). cbn [pos rest caps].
  rewrite Er2 in E. subst r2.
  exists g1, pre, g3, mid, r.
  split; [reflexivity|]. split; [reflexivity|].
  split; [cbn [length str List.map list_ascii_of_string]; lia|].
  split; [exact Hg1|]. split; [exact Hpre|]. split; [exact Hg3|].
  split; [exact Hmid|].
  unfold expand, directive_repl, group.
  cbn [List.map caps concat]. rewrite Hl1, Hl3, app_nil_r. reflexivity.
Qed.

Lemma lines_hd_split (x : text) :
  x = hd [] (lines x) \/ exists y, x = hd [] (lines x) ++ LF :: y.
Proof.
  pose proof (join_lines x) as E. pose proof (lines_not_nil x) as Hne.
  destruct (lines x) as [|h [|l ls]]; [congruence| |]; cbn [hd] in *.
  - left. symmetry. exact E.
  - right. exists (join [LF] (l :: ls)). symmetry. exact E.
Qed.

Lemma occurrences_cons_hd (c : char) (x : text) :
  c <> LF ->
  occurrences (c :: x) + occurrences (hd [] (lines x))
  = occurrences x + occurrences (c :: hd [] (lines x)).
Proof.
  intros Hc. destruct (lines_hd_split x) as [E|(y & E)].
  - rewrite <- E. lia.
  - rewrite E at 1 3.
    change (c :: hd [] (lines x) ++ LF :: y)
      with ((c :: hd [] (lines x)) ++ LF :: y).
    rewrite !occurrences_LF. lia.
Qed.

Lemma occurrences_cons_LF (x : text) : occurrences (LF :: x) = occurrences x.
Proof. apply (occurrences_LF [] x). Qed.

Lemma directive_added_refl (j : nat) (s : text) : directive_added j s s.
Proof. split; [reflexivity | left; reflexivity]. Qed.

Lemma directive_added_copy (i : nat) (c : char) (s t : text) :
  directive_added (S i) s t -> directive_added i (c :: s) (c :: t).
Proof.
  intros [Hh Hocc]. specialize (Hh ltac:(discriminate)).
  unfold directive_added. rewrite !lines_cons.
  destruct (N.eqb_spec c LF) as [->|Hc].
  - split; [reflexivity|].
    destruct Hocc as [->|Hlt]; [left; reflexivity | right].
    rewrite !occurrences_cons_LF. exact Hlt.
  - split; [cbn [hd]; rewrite Hh; reflexivity|].
    destruct Hocc as [->|Hlt]; [left; reflexivity | right].
    pose proof (occurrences_cons_hd s Hc) as Es.
    pose proof (occurrences_cons_hd t Hc) as Et.
    rewrite Hh in Es. lia.
Qed.

Lemma no_dot_in_user : ~ In dot (str "   User:").
Proof.
  intros H. cbn in H.
  repeat (destruct H as [H|H]; [discriminate H|]). exact H.
Qed.

Lemma directive_added_match (j : nat) (s : text) (m : state) (t : text) :
  In m (matches directive_pattern {| pos := j; rest := s; caps := [] |}) ->
  directive_added (pos m) (rest m) t ->
  directive_added j s (expand directive_repl m ++ t).
Proof.
  intros Hm [Hh Hocc].
  destruct (directive_match_shape _ _ _ Hm)
    as (g1 & pre & g3 & mid & r & -> & Er & Hp & Hg1 & Hpre & Hg3 & Hmid
        & ->).
  rewrite Er in *. clear Hh.
  assert (Hle : occurrences r <= occurrences t)
    by (destruct Hocc as [->|]; lia).
  (* the openers of the output, after group 1 *)
  assert (Ht : occurrences ((g3 ++ [LF; LF] ++ opener ++ [LF; LF]
                             ++ str "   User:") ++ t)
               = occurrences g3 + 1 + occurrences t).
  { replace ((g3 ++ [LF; LF] ++ opener ++ [LF; LF] ++ str "   User:") ++ t)
      with (g3 ++ LF :: [] ++ LF :: opener ++ LF :: [] ++ LF ::
            str "   User:" ++ t)
      by (rewrite <- ?app_assoc; cbn [app]; rewrite <- ?app_assoc;
          reflexivity).
    rewrite !occurrences_LF, occurrences_opener.
    rewrite (@occurrences_skip _ _ no_dot_in_user).
    change (occurrences []) with 0. lia. }
  (* the openers of the input, after group 1 *)
  assert (Hs : occurrences (pre ++ g3 ++ mid ++ str "   User:" ++ r)
               = occurrences g3 + occurrences r).
  { rewrite (@occurrences_skip _ _ Hpre).
    destruct Hmid as [(_ & -> & ->)|(mid' & -> & Hmid')].
    - cbn [app]. rewrite (@occurrences_skip _ _ no_dot_in_user). reflexivity.
    - change ((LF :: mid') ++ str "   User:" ++ r)
        with (LF :: mid' ++ str "   User:" ++ r).
      rewrite occurrences_LF, (@occurrences_skip _ _ Hmid').
      rewrite (@occurrences_skip _ _ no_dot_in_user). reflexivity. }
  unfold directive_added.
  replace ((g1 ++ g3 ++ [LF; LF] ++ opener ++ [LF; LF] ++ str "   User:")
           ++ t)
    with (g1 ++ (g3 ++ [LF; LF] ++ opener ++ [LF; LF] ++ str "   User:")
          ++ t)
    by (rewrite <- ?app_assoc; reflexivity).
  destruct Hg1 as [[-> ->]| ->].
  - split; [congruence|]. right.
    change (occurrences (pre ++ g3 ++ mid ++ str "   User:" ++ r)
            < occurrences ((g3 ++ [LF; LF] ++ opener ++ [LF; LF]
                            ++ str "   User:") ++ t)).
    rewrite Hs, Ht. lia.
  - change ([LF] ++ ?x) with (LF :: x).
    rewrite !lines_cons. cbn [N.eqb Pos.eqb LF hd].
    split; [reflexivity|]. right.
    rewrite !occurrences_cons_LF, Hs, Ht. lia.
Qed.

(** The insertion pass leaves its input unchanged or adds openers. *)
Lemma insert_directive_adds (s : text) :
  insert_directive s = s \/
  occurrences s < occurrences (insert_directive s).
Proof.
  unfold insert_directive.
  exact (proj2 (@sub_rel directive_pattern directive_repl directive_added
                  directive_added_refl directive_added_copy
                  directive_added_match s)).
Qed.

(* ================================================================= *)
(** ** The transform *)

Lemma transform_non_strict (s : text) :
  transform_examples_to_chat_directives s false =
  Ok (insert_directive (indent (normalize_messages s) (str "   "))).
Proof. reflexivity. Qed.

Lemma transform_strict (s : text) :
  transform_examples_to_chat_directives s true =
  if text_eqb (normalize_messages s) s then Raise NoMessageFound
  else if text_eqb (insert_directive
                      (indent (normalize_messages s) (str "   ")))
                   (indent (normalize_messages s) (str "   "))
       then Raise NoDirectivePlacementFound
       else Ok (insert_directive
                  (indent (normalize_messages s) (str "   "))).
Proof. reflexivity. Qed.

(** C5: for every text, the transform fails with [NoMessageFound] only
    (and exactly) when [strict] is set and the first pass left the text
    unchanged, and with [NoDirectivePlacementFound] only when [strict] is set
    and the insertion pass left its input unchanged; without [strict] it
    never fails: it returns what the passes make of the text, a pass that
    changes nothing being passed through. *)
Theorem transform_failures :
  forall (s : text) (strict : bool),
    (transform_examples_to_chat_directives s strict = Raise NoMessageFound
     <-> strict = true /\ normalize_messages s = s) /\
    (transform_examples_to_chat_directives s strict
     = Raise NoDirectivePlacementFound
     <-> strict = true /\ normalize_messages s <> s /\
         insert_directive (indent (normalize_messages s) (str "   "))
         = indent (normalize_messages s) (str "   ")) /\
    transform_examples_to_chat_directives s false
    = Ok (insert_directive (indent (normalize_messages s) (str "   "))) /\
    (normalize_messages s = s ->
     transform_examples_to_chat_directives s false
     = Ok (insert_directive (indent s (str "   ")))) /\
    (insert_directive (indent (normalize_messages s) (str "   "))
     = indent (normalize_messages s) (str "   ") ->
     transform_examples_to_chat_directives s false
     = Ok (indent (normalize_messages s) (str "   "))).
Proof.
  intros s strict.
  split; [|split; [|split; [|split]]].
  - destruct strict.
    + rewrite transform_strict.
      destruct (text_eqb (normalize_messages s) s) eqn:E1.
      * apply text_eqb_eq in E1. tauto.
      * apply text_eqb_neq in E1.
        destruct (text_eqb _ _); split;
          try discriminate; intros [_ H]; contradiction.
    + rewrite transform_non_strict. split; [discriminate|].
      intros [H _]; discriminate.
  - destruct strict.
    + rewrite transform_strict.
      destruct (text_eqb (normalize_messages s) s) eqn:E1.
      * apply text_eqb_eq in E1. split; [discriminate|].
        intros (_ & H & _); contradiction.
      * apply text_eqb_neq in E1.
        destruct (text_eqb _ _) eqn:E2.
        -- apply text_eqb_eq in E2. tauto.
        -- apply text_eqb_neq in E2. split; [discriminate|].
           intros (_ & _ & H); contradiction.
    + rewrite transform_non_strict. split; [discriminate|].
      intros [H _]; discriminate.
  - apply transform_non_strict.
  - intros E. rewrite transform_non_strict, E. reflexivity.
  - intros E. rewrite transform_non_strict, E. reflexivity.
Qed.

(** C1 as stated fails: in strict mode ["Assistant: hi"] does not fail with
    [NoDirectivePlacementFound]. *)
Lemma strict_failure_counterexample :
  ~ (transform_examples_to_chat_directives (str "no colons here") true
     = Raise NoMessageFound /\
     transform_examples_to_chat_directives (str "Assistant: hi") true
     = Raise NoDirectivePlacementFound).
Proof. intros [_ H]. vm_compute in H. discriminate H. Qed.

(** C1, amended: in strict mode ["no colons here"] fails with
    [NoMessageFound], and so does ["Assistant: hi"], which the first pass
    leaves unchanged because its role line has no marker; a marked role
    line without a [User:] turn, ["> Assistant: hi"], fails with
    [NoDirectivePlacementFound]. *)
Theorem strict_failures :
  transform_examples_to_chat_directives (str "no colons here") true
  = Raise NoMessageFound /\
  transform_examples_to_chat_directives (str "Assistant: hi") true
  = Raise NoMessageFound /\
  normalize_messages (str "Assistant: hi") = str "Assistant: hi" /\
  transform_examples_to_chat_directives (str "> Assistant: hi") true
  = Raise NoDirectivePlacementFound.
Proof. repeat split; vm_compute; reflexivity. Qed.

(** C7: without [strict], the transcript of a [User: hello] line and an
    [Assistant: hi] line is transformed with success: its lines are indented
    by three spaces, and the result holds one directive line [.. chat::],
    which comes before the indented [User: hello] line. *)
Theorem basic_transcript :
  let input := str "User: hello" ++ [LF] ++ str "Assistant: hi" in
  let output :=
    [LF; LF] ++ str ".. chat::" ++ [LF; LF]
    ++ str "   User: hello" ++ [LF] ++ str "   Assistant: hi" in
  transform_examples_to_chat_directives input false = Ok output /\
  indent (normalize_messages input) (str "   ")
  = str "   User: hello" ++ [LF] ++ str "   Assistant: hi" /\
  lines output
  = [ []; []; str ".. chat::"; []; str "   User: hello";
      str "   Assistant: hi" ] /\
  occurrences output = 1.
Proof. repeat split; vm_compute; reflexivity. Qed.

(** C10: the first pass changes a line only by deleting a leading marker
    [> ] (and then a colon follows the marker); on a text none of whose
    lines starts with the marker followed by characters holding a colon it
    changes nothing; so in strict mode ["Assistant: hi"], a role line
    without the marker, fails with [NoMessageFound]. *)
Theorem normalize_messages_only_strips_markers :
  (forall s,
     Forall2 (fun l l' => l' = l \/ (l = str "> " ++ l' /\ In colon l'))
             (lines s) (lines (normalize_messages s))) /\
  (forall s,
     (forall l r, In l (lines s) -> l = str "> " ++ r -> ~ In colon r) ->
     normalize_messages s = s) /\
  normalize_messages (str "Assistant: hi") = str "Assistant: hi" /\
  transform_examples_to_chat_directives (str "Assistant: hi") true
  = Raise NoMessageFound.
Proof.
  split; [exact normalize_messages_lines|].
  split; [exact normalize_messages_unchanged|].
  split; vm_compute; reflexivity.
Qed.

(** C6 as stated fails: the output for a [User: x] line indented by one
    space followed by a [User: y] line holds one opener, and the transform of
    that output holds two. *)
Lemma second_directive_counterexample :
  transform_examples_to_chat_directives
    (str " User: x" ++ [LF] ++ str "User: y") false
  = Ok (str "User: x" ++ [LF; LF] ++ str ".. chat::" ++ [LF; LF]
        ++ str "   User: y") /\
  occurrences (str "User: x" ++ [LF; LF] ++ str ".. chat::" ++ [LF; LF]
               ++ str "   User: y") = 1 /\
  transform_examples_to_chat_directives
    (str "User: x" ++ [LF; LF] ++ str ".. chat::" ++ [LF; LF]
     ++ str "   User: y") false
  = Ok ([LF; LF] ++ str ".. chat::" ++ [LF; LF] ++ str "   User: x"
        ++ [LF; LF] ++ str "   .. chat::" ++ [LF; LF]
        ++ str "      User: y") /\
  occurrences ([LF; LF] ++ str ".. chat::" ++ [LF; LF] ++ str "   User: x"
               ++ [LF; LF] ++ str "   .. chat::" ++ [LF; LF]
               ++ str "      User: y") = 2.
Proof. repeat split; vm_compute; reflexivity. Qed.

(* ================================================================= *)
(** ** Tokenizers, the confirmation prompt and names: further properties *)

Lemma contains_iff (s sub : text) :
  contains s sub = true <-> exists pre post, s = pre ++ sub ++ post.
Proof.
  induction s as [|c s IH].
  - cbn [contains]. rewrite orb_false_r, startswith_app. split.
    + intros (r & E). exists [], r. exact E.
    + intros (pre & post & E). symmetry in E.
      apply app_eq_nil in E. destruct E as [-> E].
      apply app_eq_nil in E. destruct E as [-> ->]. exists []. reflexivity.
  - cbn [contains]. rewrite orb_true_iff, startswith_app, IH. split.
    + intros [(r & E)|(pre & post & E)].
      * exists [], r. exact E.
      * exists (c :: pre), post. rewrite E. reflexivity.
    + intros (pre & post & E). destruct pre as [|x pre].
      * left. exists post. exact E.
      * right. inversion E; subst. exists pre, post. reflexivity.
Qed.

(** X1: [get_tokenizer] asks [tiktoken] for the encoding of the model
    itself exactly when the model name contains [gpt-4] or [gpt-3.5], and
    then logs nothing; for every other name it returns the [cl100k_base]
    encoding and logs one warning, whose three sentences follow each other
    with no space in between.  So the function has warned if and only if
    the name contains neither of the two. *)
Theorem get_tokenizer_fallback :
  forall (tokenizer : Type) (encoding_for_model get_encoding : text -> tokenizer)
         (model : text),
    let known :=
      exists pre post, model = pre ++ str "gpt-4" ++ post \/
                       model = pre ++ str "gpt-3.5" ++ post in
    (known ->
     get_tokenizer encoding_for_model get_encoding model
     = (encoding_for_model model, [])) /\
    (~ known ->
     get_tokenizer encoding_for_model get_encoding model
     = (get_encoding (str "cl100k_base"),
        [str "No encoder implemented for model " ++ model
         ++ str ".Defaulting to tiktoken cl100k_base encoder.Use results only as estimates."])) /\
    (snd (get_tokenizer encoding_for_model get_encoding model) = [] <-> known).
Proof.
  intros tokenizer efm ge model known.
  assert (H : contains model (str "gpt-4") || contains model (str "gpt-3.5")
              = true <-> known).
  { rewrite orb_true_iff, !contains_iff. unfold known. split.
    - intros [(pre & post & E)|(pre & post & E)]; exists pre, post; auto.
    - intros (pre & post & [E|E]); [left | right]; exists pre, post; exact E. }
  unfold get_tokenizer.
  destruct (contains model (str "gpt-4") || contains model (str "gpt-3.5")).
  - assert (known) by (apply H; reflexivity).
    split; [reflexivity|]. split; [contradiction|]. cbn [snd]. tauto.
  - assert (~ known) by (intros K; apply H in K; discriminate).
    split; [contradiction|]. split.
    + intros _. reflexivity.
    + cbn [snd]. split; [discriminate | contradiction].
Qed.

Lemma ascii_lower_inv (c t : N) :
  ascii_lower c = t -> c = t \/ (c + 32 = t)%N.
Proof.
  unfold ascii_lower. destruct ((65 <=? c) && (c <=? 90))%N; auto.
Qed.

Lemma lowers_to_yes (answer : text) :
  In (List.map ascii_lower answer) [str "y"; str "yes"; []] <->
  In answer yes_answers.
Proof.
  split.
  - intros [E|[E|[E|[]]]]; symmetry in E.
    + destruct answer as [|c [|? ?]]; try discriminate E.
      injection E as E. apply ascii_lower_inv in E.
      destruct E as [E|E]; [|apply N.add_cancel_r with (p := 32%N) (m := 89%N) in E];
        subst c; cbn; tauto.
    + destruct answer as [|c1 [|c2 [|c3 [|? ?]]]]; try discriminate E.
      injection E as E1 E2 E3.
      apply ascii_lower_inv in E1, E2, E3.
      destruct E1 as [E1|E1];
        [|apply N.add_cancel_r with (p := 32%N) (m := 89%N) in E1];
      (destruct E2 as [E2|E2];
        [|apply N.add_cancel_r with (p := 32%N) (m := 69%N) in E2]);
      (destruct E3 as [E3|E3];
        [|apply N.add_cancel_r with (p := 32%N) (m := 83%N) in E3]);
      subst c1 c2 c3; cbn; tauto.
    + apply map_eq_nil in E. subst answer. cbn; tauto.
  - intros H. cbn in H.
    repeat (destruct H as [H|H]; [subst answer; cbn; tauto|]).
    destruct H.
Qed.

(** X2: with [default] true, and a [lower] that lowers the letters A to Z
    of an ASCII text and keeps the rest, [ask_execute] returns [True] for an
    ASCII answer exactly when the answer is empty or is [y] or [yes] in any
    mix of cases; an answer such as [n], [no], or [yes] with a space after
    it is refused. *)
Theorem ask_execute_default_yes :
  forall (lower : text -> text),
    (forall s, is_ascii s -> lower s = List.map ascii_lower s) ->
    forall question answer,
      is_ascii answer ->
      (snd (ask_execute lower question true answer) = true
       <-> In answer yes_answers).
Proof.
  intros lower Hlower question answer Hascii.
  unfold ask_execute. cbn [snd app].
  rewrite mem_In, (Hlower _ Hascii). apply lowers_to_yes.
Qed.

Lemma ask_execute_default_yes_witness :
  snd (ask_execute (List.map ascii_lower) (str "Execute code?") true
                   (str "Yes")) = true
  <-> In (str "Yes") yes_answers.
Proof.
  apply (@ask_execute_default_yes (List.map ascii_lower)).
  - intros s _. reflexivity.
  - unfold is_ascii. repeat constructor.
Defined.

(** X3: with [default] false, [ask_execute] returns [False] whatever is
    answered, [y] and [yes] included, because the list of accepted answers
    is then empty.  It still rings the bell, flushes, and asks, showing the
    choice as [(y/N)]. *)
Theorem ask_execute_default_no :
  forall (lower : text -> text) (question answer : text),
    ask_execute lower question false answer
    = ([ Stdout [7%N]; Flush;
         Input (str "[bold yellow on dark_red] " ++ EMOJI_WARN ++ str " "
                ++ question ++ str " (y/N) [/] ") ],
       false).
Proof. intros. reflexivity. Qed.

Lemma words_shape :
  forallb (fun w => forallb is_lower w && (3 <=? length w)
                    && (length w <=? 9)) all_words = true.
Proof. vm_compute. reflexivity. Qed.

Lemma word_shape (w : text) :
  In w all_words ->
  Forall (fun c => is_lower c = true) w /\ 3 <= length w <= 9.
Proof.
  intros Hw. pose proof words_shape as H.
  rewrite forallb_forall in H. specialize (H w Hw).
  rewrite !andb_true_iff, forallb_forall in H.
  destruct H as [[Hl H3] H9].
  apply Nat.leb_le in H3, H9. split; [|lia].
  apply Forall_forall. exact Hl.
Qed.

(** X4: a generated name splits on [-] into exactly three words, an
    action, an adjective and a noun in this order, each from its own
    vocabulary, and joining the three with [-] gives the name back. *)
Theorem generate_name_split :
  forall g : rng,
    exists action adjective noun,
      split (fst (generate_name g)) (str "-") = [action; adjective; noun] /\
      In action actions /\ In adjective adjectives /\ In noun nouns /\
      join (str "-") [action; adjective; noun] = fst (generate_name g).
Proof.
  intros g. destruct (generate_name_words g) as (a & j & n & E & Ha & Hj & Hn).
  exists a, j, n. rewrite E, name_of_unfold. change (str "-") with [dash].
  assert (In a all_words /\ In j all_words /\ In n all_words) as (Ha' & Hj' & Hn')
    by (repeat split; apply in_all_words; auto).
  rewrite split_char_app by (apply word_no_dash; exact Ha').
  rewrite split_char_app by (apply word_no_dash; exact Hj').
  rewrite split_char_field by (apply word_no_dash; exact Hn').
  repeat split; auto.
Qed.

(** X5: a name that [is_generated_name] accepts holds only the letters
    [a] to [z] and the dash, and is between 11 and 29 characters long. *)
Theorem recognised_name_charset :
  forall name : text,
    is_generated_name name = true ->
    Forall (fun c => is_lower c = true \/ c = dash) name /\
    11 <= length name <= 29.
Proof.
  intros name H. apply is_generated_name_iff in H.
  destruct H as (_ & a & b & c & -> & Ha & Hb & Hc).
  apply word_shape in Ha, Hb, Hc.
  destruct Ha as [Fa La], Hb as [Fb Lb], Hc as [Fc Lc].
  rewrite name_of_unfold. split.
  - assert (W : forall w, Forall (fun c => is_lower c = true) w ->
                          Forall (fun c => is_lower c = true \/ c = dash) w)
      by (intros w Hw; eapply Forall_impl; [|exact Hw]; cbn; auto).
    apply Forall_app; split; [auto|].
    constructor; [auto|]. apply Forall_app; split; [auto|].
    constructor; auto.
  - rewrite length_app. cbn [length]. rewrite length_app. cbn [length]. lia.
Qed.

Lemma recognised_name_charset_witness :
  Forall (fun c => is_lower c = true \/ c = dash) (str "sad-cat-red") /\
  11 <= length (str "sad-cat-red") <= 29.
Proof.
  apply (@recognised_name_charset (str "sad-cat-red")).
  vm_compute. reflexivity.
Defined.

(* ================================================================= *)
(** ** Ages and the first pass: further properties *)

Section AgeShape.

Local Open Scope Z_scope.

(** X6: [epoch_to_age] raises, when [datetime.fromtimestamp] rejects the
    reading of the clock or the timestamp, or gives an answer of one of
    five shapes and no other: [just now]; a number of minutes from 1 to 59,
    the whole minutes of the age; a number of hours from 1 to 23, the whole
    hours of the age; [yesterday]; a number of days, at least 2, with the
    local date of the timestamp, its year between 1 and 9999 and not
    padded, its month and day on two digits.  In the minute and hour
    buckets reading the [seconds] field of the age, which leaves the days
    out, loses nothing. *)
Theorem epoch_to_age_shape :
  forall (utcoffset : Z -> Z) (time epoch : Z),
    let e := elapsed utcoffset time epoch in
    let out := epoch_to_age utcoffset time epoch in
    (out = Raises OutOfRange /\
     (fromtimestamp utcoffset time = Raises OutOfRange \/
      fromtimestamp utcoffset epoch = Raises OutOfRange)) \/
    (e < 60000000 /\ out = Returns (str "just now")) \/
    (exists m, 1 <= m <= 59 /\ m = e / 60000000 /\
               out = Returns (str_of_Z m ++ str " minutes ago")) \/
    (exists h, 1 <= h <= 23 /\ h = e / 3600000000 /\
               out = Returns (str_of_Z h ++ str " hours ago")) \/
    (86400000000 <= e < 172800000000 /\ out = Returns (str "yesterday")) \/
    (exists n y m d,
        2 <= n /\ n = e / 86400000000 /\
        (y, m, d) = local_date utcoffset epoch /\
        1 <= y <= 9999 /\ 1 <= m <= 12 /\ 1 <= d <= 31 /\
        out = Returns (str_of_Z n ++ str " days ago (" ++ str_of_Z y
                       ++ str "-" ++ two_digits m ++ str "-"
                       ++ two_digits d ++ str ")")).
Proof.
  intros utcoffset time epoch e out.
  destruct (fromtimestamp utcoffset time) as [now|[]] eqn:Hn;
    [|left; split; [apply epoch_to_age_raises; left; exact Hn
                   |left; reflexivity]].
  destruct (fromtimestamp utcoffset epoch) as [dt|[]] eqn:Hd;
    [|left; split; [apply epoch_to_age_raises; right; exact Hd
                   |right; reflexivity]].
  right.
  pose proof (@epoch_to_age_buckets utcoffset _ _ _ _ Hn Hd) as Hb.
  fold e out in Hb. cbv zeta in Hb.
  destruct (@fromtimestamp_inv utcoffset _ _ Hd) as (Hdate & Hrange & _).
  rewrite strftime_Ymd_digits in Hb by lia.
  rewrite <- !app_assoc in Hb.
  destruct (Z.ltb_spec e 60000000) as [H1|H1]; [left; auto|].
  right.
  pose proof (Z.div_mod e 1000000 ltac:(lia)) as Hq.
  pose proof (Z.mod_pos_bound e 1000000 ltac:(lia)) as Hr.
  destruct (Z.ltb_spec e 3600000000) as [H2|H2].
  { left. exists (e / 60000000).
    assert (Em : (e / 1000000) mod 86400 / 60 = e / 60000000).
    { rewrite Z.mod_small by lia.
      rewrite Z.div_div by lia. reflexivity. }
    rewrite Em in Hb.
    split; [|split; [reflexivity | exact Hb]].
    split; [apply Z.div_le_lower_bound; lia
           | apply Z.lt_succ_r, Z.div_lt_upper_bound; lia]. }
  right.
  destruct (Z.ltb_spec e 86400000000) as [H3|H3].
  { left. exists (e / 3600000000).
    assert (Eh : (e / 1000000) mod 86400 / 3600 = e / 3600000000).
    { rewrite Z.mod_small by lia.
      rewrite Z.div_div by lia. reflexivity. }
    rewrite Eh in Hb.
    split; [|split; [reflexivity | exact Hb]].
    split; [apply Z.div_le_lower_bound; lia
           | apply Z.lt_succ_r, Z.div_lt_upper_bound; lia]. }
  right.
  destruct (Z.ltb_spec e 172800000000) as [H4|H4]; [left; auto|].
  right. exists (e / 86400000000), (year dt), (month dt), (day dt).
  split; [apply Z.div_le_lower_bound; lia|]. split; [reflexivity|].
  split; [exact Hdate|]. repeat (split; [lia|]). exact Hb.
Qed.

End AgeShape.

Section RangeFacts.

Local Open Scope Z_scope.

(** The years 1 to 9999 are the ordinals 1 to 3652059. *)
Lemma ord2ymd_year (n : Z) :
  1 <= fst (fst (ord2ymd n)) <= 9999 <-> 1 <= n <= 3652059.
Proof.
  rewrite ord2ymd_unfold. cbv zeta.
  pose proof (Z.div_mod (n - 1) 146097 ltac:(lia)) as E1.
  pose proof (Z.mod_pos_bound (n - 1) 146097 ltac:(lia)) as B1.
  set (q := (n - 1) / 146097) in *.
  set (r1 := (n - 1) mod 146097) in *.
  pose proof (Z.div_mod r1 36524 ltac:(lia)) as E2.
  pose proof (Z.mod_pos_bound r1 36524 ltac:(lia)) as B2.
  set (n100 := r1 / 36524) in *.
  set (r2 := r1 mod 36524) in *.
  pose proof (Z.div_mod r2 1461 ltac:(lia)) as E3.
  pose proof (Z.mod_pos_bound r2 1461 ltac:(lia)) as B3.
  set (n4 := r2 / 1461) in *.
  set (r3 := r2 mod 1461) in *.
  pose proof (Z.div_mod r3 365 ltac:(lia)) as E4.
  pose proof (Z.mod_pos_bound r3 365 ltac:(lia)) as B4.
  set (n1 := r3 / 365) in *.
  set (r4 := r3 mod 365) in *.
  assert (H100 : 0 <= n100 <= 4) by lia.
  assert (H4 : 0 <= n4 <= 24) by lia.
  assert (H1 : 0 <= n1 <= 4) by lia.
  destruct (Z.eqb_spec n1 4) as [N1|N1]; cbn [orb fst].
  { lia. }
  destruct (Z.eqb_spec n100 4) as [N100|N100]; cbn [fst].
  { lia. }
  lia.
Qed.

Section FixedOffset.

(** A zone that is always [k] seconds east of UTC. *)
Variable k : Z.

Lemma localtime_fixed (t : Z) :
  localtime (fun _ => k) t
  = (ord2ymd (unix_ordinal + (t + k) / 86400),
     (t + k) mod 86400 / 3600, (t + k) mod 86400 mod 3600 / 60,
     (t + k) mod 86400 mod 60).
Proof.
  unfold localtime.
  destruct (ord2ymd (unix_ordinal + (t + k) / 86400)) as [[y m] d].
  reflexivity.
Qed.

Lemma utc_to_seconds_range (n hh mm ss : Z) :
  utc_to_seconds (ord2ymd n, hh, mm, ss)
  = if (1 <=? n) && (n <=? 3652059)
    then Returns (((n * 24 + hh) * 60 + mm) * 60 + ss)
    else Raises OutOfRange.
Proof.
  pose proof (ord2ymd_year n) as Hy.
  pose proof (ymd2ord_ord2ymd n) as RT.
  destruct (ord2ymd n) as [[y m] d]. cbn [fst] in Hy.
  destruct RT as (RT & _). unfold utc_to_seconds, MINYEAR, MAXYEAR.
  destruct (Z.ltb_spec y 1) as [Y1|Y1]; cbn [orb].
  - assert (H : (1 <=? n) && (n <=? 3652059) = false); [|rewrite H; reflexivity].
    apply andb_false_iff.
    destruct (Z.leb_spec 1 n); [|left; reflexivity].
    destruct (Z.leb_spec n 3652059); [|right; reflexivity]. lia.
  - destruct (Z.ltb_spec 9999 y) as [Y2|Y2].
    + assert (H : (1 <=? n) && (n <=? 3652059) = false);
        [|rewrite H; reflexivity].
      apply andb_false_iff.
      destruct (Z.leb_spec 1 n); [|left; reflexivity].
      destruct (Z.leb_spec n 3652059); [|right; reflexivity]. lia.
    + assert (H : (1 <=? n) && (n <=? 3652059) = true).
      { apply andb_true_iff. split; apply Z.leb_le; lia. }
      rewrite H, RT. reflexivity.
Qed.

(** In a zone with a fixed offset, [fromtimestamp] raises for the local
    times before 0001-01-02 00:00:00, whose reading a day earlier is in the
    year 0, and from the year 10000 on, and for no other. *)
Lemma fromtimestamp_fixed (t : Z) :
  fromtimestamp (fun _ => k) t = Raises OutOfRange <->
  ~ (-62135510400 <= t / 1000000 + k < 253402300800).
Proof.
  unfold fromtimestamp, datetime_from_timet_and_us, local.
  set (sec := t / 1000000).
  rewrite !localtime_fixed.
  replace (unix_epoch + sec - max_fold_seconds - unix_epoch + k)
    with (sec + k + -1 * 86400) by (unfold max_fold_seconds; lia).
  rewrite Z.div_add, Z.mod_add by lia.
  set (l := sec + k).
  pose proof (Z.div_mod l 86400 ltac:(lia)) as El.
  pose proof (Z.mod_pos_bound l 86400 ltac:(lia)) as Bl.
  set (n := unix_ordinal + l / 86400).
  replace (unix_ordinal + (l / 86400 + -1)) with (n - 1) by (unfold n; lia).
  set (r := l mod 86400) in *.
  pose proof (ord2ymd_year n) as Hy.
  destruct (ord2ymd n) as [[y m] d] eqn:Ey. cbn [fst] in Hy.
  rewrite Z.min_r by (pose proof (Z.mod_pos_bound r 60 ltac:(lia)); lia).
  pose proof (utc_to_seconds_range n (r / 3600) (r mod 3600 / 60) (r mod 60))
    as U1.
  rewrite Ey in U1. rewrite U1.
  rewrite (utc_to_seconds_range (n - 1)).
  unfold n, unix_ordinal in *.
  destruct (Z.leb_spec 1 (719163 + l / 86400)) as [A1|A1]; cbn [andb bind].
  2: { split; [lia | reflexivity]. }
  destruct (Z.leb_spec (719163 + l / 86400) 3652059) as [A2|A2];
    cbn [andb bind].
  2: { split; [lia | reflexivity]. }
  destruct (Z.leb_spec 1 (719163 + l / 86400 - 1)) as [A3|A3];
    cbn [andb bind].
  2: { split; [lia | reflexivity]. }
  destruct (Z.leb_spec (719163 + l / 86400 - 1) 3652059) as [A4|A4];
    cbn [andb bind]; [|lia].
  unfold max_fold_seconds.
  assert (T : ((((719163 + l / 86400) * 24 + r / 3600) * 60
                + r mod 3600 / 60) * 60 + r mod 60
               - ((((719163 + l / 86400 - 1) * 24 + r / 3600) * 60
                   + r mod 3600 / 60) * 60 + r mod 60) - 24 * 3600 <? 0)
              = false) by (apply Z.ltb_ge; lia).
  rewrite T. cbn [bind]. split; [discriminate | lia].
Qed.

End FixedOffset.

(** X15: in a zone with a fixed offset from UTC, [epoch_to_age] raises
    exactly when the local time of the reading of the clock or of the
    timestamp is before 0001-01-02 00:00:00 or after 9999-12-31 23:59:59;
    for every other reading and timestamp it returns an answer. *)
Theorem epoch_to_age_fixed_offset_errors :
  forall k time epoch : Z,
    let accepted t := -62135510400 <= t / 1000000 + k < 253402300800 in
    (epoch_to_age (fun _ => k) time epoch = Raises OutOfRange <->
     ~ accepted time \/ ~ accepted epoch) /\
    (accepted time /\ accepted epoch <->
     exists answer, epoch_to_age (fun _ => k) time epoch = Returns answer).
Proof.
  intros k time epoch accepted.
  assert (R : epoch_to_age (fun _ => k) time epoch = Raises OutOfRange <->
              ~ accepted time \/ ~ accepted epoch).
  { rewrite epoch_to_age_raises, !fromtimestamp_fixed. reflexivity. }
  split; [exact R|].
  destruct (epoch_to_age (fun _ => k) time epoch) as [answer|[]] eqn:E.
  - split; [intros _; exists answer; reflexivity|].
    intros _. unfold accepted in *.
    assert (N : ~ (~ (-62135510400 <= time / 1000000 + k < 253402300800) \/
                   ~ (-62135510400 <= epoch / 1000000 + k < 253402300800))).
    { intros H. apply R in H. discriminate H. }
    lia.
  - split; [|intros (answer & H); discriminate H].
    intros [H1 H2]. exfalso.
    destruct (proj1 R eq_refl) as [H|H]; contradiction.
Qed.

End RangeFacts.

Lemma length_join_lines (ls : list text) :
  ls <> [] ->
  length (join [LF] ls) + 1 = list_sum (List.map (fun l => S (length l)) ls).
Proof.
  induction ls as [|l ls IH]; [congruence|]. intros _.
  destruct ls as [|l' ls].
  - cbn. lia.
  - change (join [LF] (l :: l' :: ls)) with (l ++ LF :: join [LF] (l' :: ls)).
    rewrite length_app. cbn [length].
    change (list_sum (List.map (fun l0 => S (length l0)) (l :: l' :: ls)))
      with (S (length l)
            + list_sum (List.map (fun l0 => S (length l0)) (l' :: ls))).
    specialize (IH ltac:(discriminate)). lia.
Qed.

Lemma stripped_lengths (ls ls' : list text) :
  Forall2 stripped ls ls' ->
  length ls' = length ls /\
  exists k, k <= length ls /\
            list_sum (List.map (fun l => S (length l)) ls)
            = list_sum (List.map (fun l => S (length l)) ls') + 2 * k.
Proof.
  induction 1 as [|l l' ls ls' Hl _ IH].
  - split; [reflexivity|]. exists 0. cbn. lia.
  - destruct IH as (El & k & Hk & Es). cbn [length]. split; [lia|].
    change (list_sum (List.map (fun l0 => S (length l0)) (l :: ls)))
      with (S (length l) + list_sum (List.map (fun l0 => S (length l0)) ls)).
    change (list_sum (List.map (fun l0 => S (length l0)) (l' :: ls')))
      with (S (length l')
            + list_sum (List.map (fun l0 => S (length l0)) ls')).
    destruct Hl as [->|[-> _]].
    + exists k. lia.
    + exists (S k). rewrite length_app. cbn [length str List.map list_ascii_of_string]. lia.
Qed.

(** X7: the first pass keeps the number of lines of the text, and
    shortens the text by two characters for each of some [k] of its lines,
    never by anything else. *)
Theorem normalize_messages_size :
  forall s : text,
    length (lines (normalize_messages s)) = length (lines s) /\
    exists k, k <= length (lines s) /\
              length s = length (normalize_messages s) + 2 * k.
Proof.
  intros s.
  destruct (stripped_lengths (normalize_messages_lines s))
    as (El & k & Hk & Es).
  split; [exact El|]. exists k. split; [exact Hk|].
  pose proof (length_join_lines (lines_not_nil s)) as H1.
  pose proof (length_join_lines (lines_not_nil (normalize_messages s))) as H2.
  rewrite join_lines in H1, H2. lia.
Qed.

Lemma stripped_changed (ls ls' : list text) :
  Forall2 stripped ls ls' ->
  ls' = ls \/ exists l r, In l ls /\ l = str "> " ++ r /\ In colon r.
Proof.
  induction 1 as [|l l' ls ls' Hl _ IH]; [left; reflexivity|].
  destruct Hl as [->|[-> Hc]].
  - destruct IH as [->|(l0 & r & Hin & E & Hc)]; [left; reflexivity|].
    right. exists l0, r. split; [right; exact Hin | auto].
  - right. exists (str "> " ++ l'), l'. split; [left; reflexivity | auto].
Qed.

Lemma normalize_messages_changed (s : text) :
  normalize_messages s <> s ->
  exists l r, In l (lines s) /\ l = str "> " ++ r /\ In colon r.
Proof.
  intros Hne.
  destruct (stripped_changed (normalize_messages_lines s)) as [E|H];
    [|exact H].
  exfalso. apply Hne.
  rewrite <- (join_lines (normalize_messages s)), E. apply join_lines.
Qed.

Lemma transform_ok_inv (s : text) (strict : bool) (t : text) :
  transform_examples_to_chat_directives s strict = Ok t ->
  t = insert_directive (indent (normalize_messages s) (str "   ")) /\
  (strict = true ->
   normalize_messages s <> s /\
   t <> indent (normalize_messages s) (str "   ")).
Proof.
  destruct strict.
  - rewrite transform_strict.
    destruct (text_eqb (normalize_messages s) s) eqn:E1; [discriminate|].
    destruct (text_eqb
                (insert_directive (indent (normalize_messages s) (str "   ")))
                (indent (normalize_messages s) (str "   "))) eqn:E2;
      [discriminate|].
    apply text_eqb_neq in E1, E2. intros H. injection H as <-. auto.
  - rewrite transform_non_strict. intros H. injection H as <-.
    split; [reflexivity | discriminate].
Qed.

(** X8: when the transform succeeds in strict mode, it returns what it
    returns without [strict], the output holds more openers [.. chat::]
    than the input, and some line of the input starts with the marker [> ]
    and has a colon after the marker. *)
Theorem strict_success :
  forall s t : text,
    transform_examples_to_chat_directives s true = Ok t ->
    transform_examples_to_chat_directives s false = Ok t /\
    occurrences s < occurrences t /\
    exists l r, In l (lines s) /\ l = str "> " ++ r /\ In colon r.
Proof.
  intros s t H. apply transform_ok_inv in H.
  destruct H as [-> H]. destruct (H eq_refl) as [E1 E2].
  split; [apply transform_non_strict|]. split.
  - destruct (insert_directive_adds
                (indent (normalize_messages s) (str "   "))) as [E|Hlt];
      [contradiction|].
    rewrite occurrences_indent, occurrences_normalize_messages in Hlt.
    exact Hlt.
  - apply normalize_messages_changed. exact E1.
Qed.

Lemma strict_success_witness :
  transform_examples_to_chat_directives
    (str "# Example" ++ [LF] ++ str "> User: hi") false
  = Ok (str "Example" ++ [LF; LF] ++ str ".. chat::" ++ [LF; LF]
        ++ str "   User: hi") /\
  occurrences (str "# Example" ++ [LF] ++ str "> User: hi")
  < occurrences (str "Example" ++ [LF; LF] ++ str ".. chat::" ++ [LF; LF]
                 ++ str "   User: hi") /\
  exists l r, In l (lines (str "# Example" ++ [LF] ++ str "> User: hi")) /\
              l = str "> " ++ r /\ In colon r.
Proof.
  apply (@strict_success (str "# Example" ++ [LF] ++ str "> User: hi")).
  vm_compute. reflexivity.
Defined.

(* ================================================================= *)
(** ** Texts without the role label *)

Section KeptNeedle.

(** A needle [y :: w] that does not start with the marker's [>] or with a
    space and holds no line break. *)
Variable y : char.
Variable w : text.
Hypothesis y_not_gt : y <> 62%N.
Hypothesis y_not_space : y <> 32%N.
Hypothesis no_linebreak : forall b, islinebreak b = true -> ~ In b (y :: w).

Lemma needle_lines (s : text) :
  count s (y :: w)
  = list_sum (List.map (fun l => count l (y :: w)) (lines s)).
Proof.
  rewrite <- (join_lines s) at 1.
  apply count_join; [discriminate | apply no_linebreak; reflexivity].
Qed.

Lemma needle_marker (l : text) :
  count (str "> " ++ l) (y :: w) = count l (y :: w).
Proof.
  unfold count. change (str "> " ++ l) with (62%N :: 32%N :: l).
  rewrite !count_from_miss by congruence. reflexivity.
Qed.

Lemma needle_prefix (l : text) :
  count (str "   " ++ l) (y :: w) = count l (y :: w).
Proof.
  unfold count. change (str "   " ++ l) with (32%N :: 32%N :: 32%N :: l).
  rewrite !count_from_miss by congruence. reflexivity.
Qed.

Lemma needle_stripped (ls ls' : list text) :
  Forall2 stripped ls ls' ->
  list_sum (List.map (fun l => count l (y :: w)) ls)
  = list_sum (List.map (fun l => count l (y :: w)) ls').
Proof.
  induction 1 as [|l l' ls ls' Hl _ IH]; [reflexivity|].
  change (count l (y :: w)
          + list_sum (List.map (fun l0 => count l0 (y :: w)) ls)
          = count l' (y :: w)
            + list_sum (List.map (fun l0 => count l0 (y :: w)) ls')).
  rewrite IH. f_equal.
  destruct Hl as [->|[-> _]]; [reflexivity | apply needle_marker].
Qed.

Lemma needle_normalize_messages (s : text) :
  count (normalize_messages s) (y :: w) = count s (y :: w).
Proof.
  rewrite (needle_lines s), (needle_lines (normalize_messages s)).
  symmetry. apply needle_stripped, normalize_messages_lines.
Qed.

Lemma needle_indent_lines (ls : list text) :
  Forall terminated (removelast ls) ->
  count (concat (List.map indent_line ls)) (y :: w)
  = count (concat ls) (y :: w).
Proof.
  induction ls as [|l ls IH]; intros Hterm; [reflexivity|].
  destruct ls as [|l' ls].
  - cbn [List.map concat]. rewrite !app_nil_r.
    unfold indent_line. destruct (forallb isspace l);
      [reflexivity | apply needle_prefix].
  - change (removelast (l :: l' :: ls))
      with (l :: removelast (l' :: ls)) in Hterm.
    inversion Hterm as [|? ? (a & b & -> & Hb) Ht]; subst.
    specialize (IH Ht).
    cbn [List.map concat] in *.
    assert (E : exists q, indent_line (a ++ [b]) = q ++ a ++ [b] /\
                          count (q ++ a) (y :: w) = count a (y :: w)).
    { unfold indent_line. destruct (forallb isspace (a ++ [b])).
      - exists []. auto.
      - exists (str "   "). split; [reflexivity|]. apply needle_prefix. }
    destruct E as (q & -> & Hq).
    pose proof (no_linebreak Hb) as Hn.
    replace ((q ++ a ++ [b]) ++
             indent_line l' ++ concat (List.map indent_line ls))
      with ((q ++ a) ++ b ::
            indent_line l' ++ concat (List.map indent_line ls))
      by (rewrite <- !app_assoc; reflexivity).
    replace ((a ++ [b]) ++ l' ++ concat ls)
      with (a ++ b :: l' ++ concat ls)
      by (rewrite <- !app_assoc; reflexivity).
    assert (Hne : y :: w <> []) by discriminate.
    rewrite !(@count_across (y :: w) b Hne Hn), IH, Hq.
    reflexivity.
Qed.

Lemma needle_indent (s : text) :
  count (indent s (str "   ")) (y :: w) = count s (y :: w).
Proof.
  unfold indent. fold indent_line.
  rewrite needle_indent_lines by apply splitlines_terminated.
  rewrite concat_splitlines. reflexivity.
Qed.

End KeptNeedle.

(** A needle that occurs is counted. *)
Lemma count_occurs (w a b : text) :
  w <> [] -> 1 <= count (a ++ w ++ b) w.
Proof.
  intros Hne. rewrite count_nonempty by exact Hne.
  induction a as [|x a IH].
  - cbn [app]. destruct w as [|c w]; [congruence|].
    cbn [app count_from].
    assert (E : startswith (c :: w ++ b) (c :: w) = true)
      by (apply startswith_app; exists b; reflexivity).
    rewrite E. lia.
  - cbn [app count_from]. destruct (startswith (x :: a ++ w ++ b) w); lia.
Qed.

Lemma linebreak_not_in_user (b : N) :
  islinebreak b = true -> ~ In b user.
Proof.
  intros Hb H. cbn in H.
  repeat (destruct H as [H|H]; [subst b; discriminate Hb|]). exact H.
Qed.

Lemma user_transform (s : text) :
  count (indent (normalize_messages s) (str "   ")) user = count s user.
Proof.
  unfold user. change (str "User:") with (85%N :: str "ser:").
  rewrite needle_indent, needle_normalize_messages;
    try discriminate; try reflexivity; apply linebreak_not_in_user.
Qed.

(** The insertion pass changes nothing where [User:] does not occur. *)
Lemma insert_directive_no_user (u : text) :
  count u user = 0 -> insert_directive u = u.
Proof.
  intros H0. unfold insert_directive, Re.sub.
  cbn [Nat.add Nat.mul sub_loop].
  replace (length u + (length u + 0) + 2) with (S (length u + (length u + 0) + 1)) by lia.
  cbn [sub_loop].
  destruct (search directive_pattern false 0 u) as [[[skipped j] m]|] eqn:E;
    [|reflexivity].
  exfalso.
  destruct (search_sound _ _ _ _ E) as (s' & -> & _ & Hin).
  destruct (directive_match_shape _ _ _ Hin)
    as (g1 & pre & g3 & mid & r & -> & _).
  assert (H1 : 1 <= count ((skipped ++ g1 ++ pre ++ g3 ++ mid ++ str "   ")
                           ++ user ++ r) user)
    by (apply count_occurs; discriminate).
  replace ((skipped ++ g1 ++ pre ++ g3 ++ mid ++ str "   ") ++ user ++ r)
    with (skipped ++ g1 ++ pre ++ g3 ++ mid ++ str "   User:" ++ r) in H1
    by (rewrite <- ?app_assoc; reflexivity).
  lia.
Qed.

(** X9: on a text in which [User:] does not occur, the insertion pass
    adds nothing: without [strict] the result is the indented output of the
    first pass, with as many openers [.. chat::] as the input, and in
    strict mode the transform never succeeds. *)
Theorem no_user_no_directive :
  forall s : text,
    count s (str "User:") = 0 ->
    transform_examples_to_chat_directives s false
    = Ok (indent (normalize_messages s) (str "   ")) /\
    occurrences (indent (normalize_messages s) (str "   ")) = occurrences s /\
    (forall t, transform_examples_to_chat_directives s true <> Ok t).
Proof.
  intros s H0.
  assert (E : insert_directive (indent (normalize_messages s) (str "   "))
              = indent (normalize_messages s) (str "   ")).
  { apply insert_directive_no_user. rewrite user_transform. exact H0. }
  split; [rewrite transform_non_strict, E; reflexivity|].
  split; [rewrite occurrences_indent, occurrences_normalize_messages;
          reflexivity|].
  intros t H. apply transform_ok_inv in H.
  destruct H as [-> H]. destruct (H eq_refl) as [_ H2]. contradiction.
Qed.

Lemma no_user_no_directive_witness :
  transform_examples_to_chat_directives (str "> Assistant: hi") false
  = Ok (indent (normalize_messages (str "> Assistant: hi")) (str "   ")) /\
  occurrences (indent (normalize_messages (str "> Assistant: hi")) (str "   "))
  = occurrences (str "> Assistant: hi") /\
  (forall t,
      transform_examples_to_chat_directives (str "> Assistant: hi") true
      <> Ok t).
Proof.
  apply (@no_user_no_directive (str "> Assistant: hi")).
  vm_compute. reflexivity.
Defined.

(* ================================================================= *)
(** ** At most one directive for each role label *)

Lemma user_head (r : text) : count (user ++ r) user = S (count r user).
Proof. reflexivity. Qed.

Lemma user_cons (c : N) (s : text) : count s user <= count (c :: s) user.
Proof.
  unfold count, user. cbn [str List.map list_ascii_of_string].
  cbn [count_from].
  destruct (startswith (c :: s) _) eqn:E; [|lia].
  apply startswith_app in E. destruct E as (r & E).
  injection E as -> ->. cbn. lia.
Qed.

Lemma user_app (x s : text) : count s user <= count (x ++ s) user.
Proof.
  induction x as [|c x IH]; [cbn [app]; lia|].
  cbn [app]. pose proof (user_cons c (x ++ s)). lia.
Qed.

Lemma directive_bounded_refl (j : nat) (s : text) : directive_bounded j s s.
Proof. split; [reflexivity | lia]. Qed.

Lemma directive_bounded_copy (i : nat) (c : N) (s t : text) :
  directive_bounded (S i) s t -> directive_bounded i (c :: s) (c :: t).
Proof.
  intros [Hh Hocc]. specialize (Hh ltac:(discriminate)).
  unfold directive_bounded. rewrite !lines_cons.
  pose proof (user_cons c s) as Hu.
  destruct (N.eqb_spec c LF) as [->|Hc].
  - split; [reflexivity|]. rewrite !occurrences_cons_LF. lia.
  - split; [cbn [hd]; rewrite Hh; reflexivity|].
    pose proof (occurrences_cons_hd s Hc) as Es.
    pose proof (occurrences_cons_hd t Hc) as Et.
    rewrite Hh in Es. lia.
Qed.

Lemma directive_bounded_match (j : nat) (s : text) (m : state) (t : text) :
  In m (matches directive_pattern {| pos := j; rest := s; caps := [] |}) ->
  directive_bounded (pos m) (rest m) t ->
  directive_bounded j s (expand directive_repl m ++ t).
Proof.
  intros Hm [Hh Hocc].
  destruct (directive_match_shape _ _ _ Hm)
    as (g1 & pre & g3 & mid & r & -> & Er & Hp & Hg1 & Hpre & Hg3 & Hmid
        & ->).
  rewrite Er in *. clear Hh.
  assert (Ht : occurrences ((g3 ++ [LF; LF] ++ opener ++ [LF; LF]
                             ++ str "   User:") ++ t)
               = occurrences g3 + 1 + occurrences t).
  { replace ((g3 ++ [LF; LF] ++ opener ++ [LF; LF] ++ str "   User:") ++ t)
      with (g3 ++ LF :: [] ++ LF :: opener ++ LF :: [] ++ LF ::
            str "   User:" ++ t)
      by (rewrite <- ?app_assoc; cbn [app]; rewrite <- ?app_assoc;
          reflexivity).
    rewrite !occurrences_LF, occurrences_opener.
    rewrite (@occurrences_skip _ _ no_dot_in_user).
    change (occurrences []) with 0. lia. }
  assert (Hs : occurrences (pre ++ g3 ++ mid ++ str "   User:" ++ r)
               = occurrences g3 + occurrences r).
  { rewrite (@occurrences_skip _ _ Hpre).
    destruct Hmid as [(_ & -> & ->)|(mid' & -> & Hmid')].
    - cbn [app]. rewrite (@occurrences_skip _ _ no_dot_in_user). reflexivity.
    - change ((LF :: mid') ++ str "   User:" ++ r)
        with (LF :: mid' ++ str "   User:" ++ r).
      rewrite occurrences_LF, (@occurrences_skip _ _ Hmid').
      rewrite (@occurrences_skip _ _ no_dot_in_user). reflexivity. }
  assert (Hu : S (count r user)
               <= count (g1 ++ pre ++ g3 ++ mid ++ str "   User:" ++ r) user).
  { replace (g1 ++ pre ++ g3 ++ mid ++ str "   User:" ++ r)
      with ((g1 ++ pre ++ g3 ++ mid ++ str "   ") ++ user ++ r)
      by (rewrite <- ?app_assoc; reflexivity).
    rewrite <- user_head. apply user_app. }
  unfold directive_bounded.
  replace ((g1 ++ g3 ++ [LF; LF] ++ opener ++ [LF; LF] ++ str "   User:")
           ++ t)
    with (g1 ++ (g3 ++ [LF; LF] ++ opener ++ [LF; LF] ++ str "   User:")
          ++ t)
    by (rewrite <- ?app_assoc; reflexivity).
  destruct Hg1 as [[-> ->]| ->].
  - split; [congruence|].
    change (occurrences (pre ++ g3 ++ mid ++ str "   User:" ++ r)
            <= occurrences ((g3 ++ [LF; LF] ++ opener ++ [LF; LF]
                             ++ str "   User:") ++ t)
            <= occurrences (pre ++ g3 ++ mid ++ str "   User:" ++ r)
               + count ([] ++ pre ++ g3 ++ mid ++ str "   User:" ++ r) user).
    rewrite Hs, Ht. lia.
  - change ([LF] ++ ?x) with (LF :: x) in *.
    rewrite !lines_cons. cbn [N.eqb Pos.eqb LF hd].
    split; [reflexivity|].
    rewrite !occurrences_cons_LF, Hs, Ht. lia.
Qed.

Lemma insert_directive_bounded (s : text) :
  occurrences s <= occurrences (insert_directive s)
  <= occurrences s + count s user.
Proof.
  unfold insert_directive.
  exact (proj2 (@sub_rel directive_pattern directive_repl directive_bounded
                  directive_bounded_refl directive_bounded_copy
                  directive_bounded_match s)).
Qed.

(** X10: whenever the transform succeeds, its output holds at least as
    many openers [.. chat::] as the input, and at most one more for each
    occurrence of [User:] in the input. *)
Theorem transform_directive_bounds :
  forall (s : text) (strict : bool) (t : text),
    transform_examples_to_chat_directives s strict = Ok t ->
    occurrences s <= occurrences t <= occurrences s + count s (str "User:").
Proof.
  intros s strict t H. apply transform_ok_inv in H. destruct H as [-> _].
  pose proof (insert_directive_bounded
                (indent (normalize_messages s) (str "   "))) as B.
  rewrite occurrences_indent, occurrences_normalize_messages in B.
  rewrite user_transform in B. exact B.
Qed.

Lemma transform_directive_bounds_witness :
  occurrences (str "> User: a" ++ [LF] ++ str "> Assistant: b" ++ [LF]
               ++ str "> User: c")
  <= occurrences ([LF; LF] ++ str ".. chat::" ++ [LF; LF]
                  ++ str "   User: a" ++ [LF] ++ str "   Assistant: b"
                  ++ [LF; LF; LF] ++ str ".. chat::" ++ [LF; LF]
                  ++ str "   User: c")
  <= occurrences (str "> User: a" ++ [LF] ++ str "> Assistant: b" ++ [LF]
                  ++ str "> User: c")
     + count (str "> User: a" ++ [LF] ++ str "> Assistant: b" ++ [LF]
              ++ str "> User: c") (str "User:").
Proof.
  apply (@transform_directive_bounds
           (str "> User: a" ++ [LF] ++ str "> Assistant: b" ++ [LF]
            ++ str "> User: c") true).
  vm_compute. reflexivity.
Defined.

(* ================================================================= *)
(** ** The first pass, exactly *)

Lemma hd_error_app (A : Type) (l1 l2 : list A) :
  hd_error (l1 ++ l2)
  = match hd_error l1 with Some x => Some x | None => hd_error l2 end.
Proof. destruct l1; reflexivity. Qed.

Lemma flat_map_map (A B C : Type) (f : B -> list C) (g : A -> B)
  (l : list A) :
  flat_map f (List.map g l) = flat_map (fun x => f (g x)) l.
Proof.
  induction l as [|x l IH]; [reflexivity|].
  cbn [List.map flat_map]. rewrite IH. reflexivity.
Qed.

Lemma one_line_end (p : N -> bool) (i : nat) (tail : text)
  (cs : list (nat * text)) :
  line_end tail -> p LF = false ->
  one p {| pos := i; rest := tail; caps := cs |} = [].
Proof.
  intros [->|(s & ->)] Hp; unfold one; cbn [rest]; [reflexivity|].
  rewrite Hp. reflexivity.
Qed.

Lemma iter_dot_end (n i : nat) (tail : text) (cs : list (nat * text)) :
  line_end tail ->
  iter (matches Dot) n {| pos := i; rest := tail; caps := cs |}
  = [{| pos := i; rest := tail; caps := cs |}].
Proof.
  intros Htail. destruct n as [|n]; [reflexivity|]. cbn [iter matches].
  rewrite one_line_end by (auto; reflexivity). reflexivity.
Qed.

Lemma iter_dot_step (n i : nat) (c : char) (y : text)
  (cs : list (nat * text)) :
  not_LF c = true ->
  iter (matches Dot) (S n) {| pos := i; rest := c :: y; caps := cs |}
  = iter (matches Dot) n {| pos := i + 1; rest := y; caps := cs |}
    ++ [{| pos := i; rest := c :: y; caps := cs |}].
Proof.
  intros Hc. cbn [iter]. f_equal.
  change (matches Dot {| pos := i; rest := c :: y; caps := cs |})
    with (if not_LF c
          then [{| pos := i + 1; rest := y; caps := cs |}] else []).
  rewrite Hc. cbn [flat_map pos]. rewrite app_nil_r.
  assert (Hp : (i <? i + 1) = true) by (apply Nat.ltb_lt; lia).
  rewrite Hp. reflexivity.
Qed.

Lemma colon_here (i : nat) (c : char) (y : text) (cs : list (nat * text)) :
  matches (Chr colon) {| pos := i; rest := c :: y; caps := cs |}
  = if N.eqb c colon
    then [{| pos := i + 1; rest := y; caps := cs |}] else [].
Proof.
  cbn [matches]. unfold one, advance. cbn [pos rest caps skipn].
  rewrite (N.eqb_sym colon c). reflexivity.
Qed.

Lemma colon_line_end (i : nat) (tail : text) (cs : list (nat * text)) :
  line_end tail ->
  matches (Chr colon) {| pos := i; rest := tail; caps := cs |} = [].
Proof. intros H. apply one_line_end; [exact H | reflexivity]. Qed.

(** The states a repetition of [.] reaches, tried from the longest, each
    followed by a colon: the first success is at the last colon. *)
Lemma dots_then_colon (st0 : state) (tail : text) (cs : list (nat * text)) :
  line_end tail ->
  forall x a n,
    forallb not_LF x = true ->
    rest st0 = a ++ x ++ tail ->
    length x <= n ->
    hd_error
      (flat_map (fun e => matches (Chr colon) (capture 3 st0 e))
                (iter (matches Dot) n
                      {| pos := pos st0 + length a; rest := x ++ tail;
                         caps := cs |}))
    = match rsplit_colon x with
      | Some (g, r) =>
          Some {| pos := pos st0 + length (a ++ g) + 1; rest := r ++ tail;
                  caps := (3, a ++ g) :: cs |}
      | None => None
      end.
Proof.
  intros Htail.
  induction x as [|c x IH]; intros a n Hx Hrest Hn.
  - cbn [app rsplit_colon]. rewrite iter_dot_end by exact Htail.
    cbn [flat_map]. rewrite app_nil_r.
    unfold capture; cbn [pos rest caps].
    rewrite colon_line_end by exact Htail. reflexivity.
  - cbn [forallb] in Hx. apply andb_true_iff in Hx. destruct Hx as [Hc Hx].
    destruct n as [|n]; [cbn [length] in Hn; lia|].
    cbn [length] in Hn. cbn [app].
    rewrite iter_dot_step by exact Hc.
    rewrite flat_map_app, hd_error_app.
    assert (E1 : hd_error
                   (flat_map (fun e => matches (Chr colon) (capture 3 st0 e))
                      (iter (matches Dot) n
                         {| pos := pos st0 + length a + 1; rest := x ++ tail;
                            caps := cs |}))
                 = match rsplit_colon x with
                   | Some (g, r) =>
                       Some {| pos := pos st0 + length (a ++ c :: g) + 1;
                               rest := r ++ tail;
                               caps := (3, a ++ c :: g) :: cs |}
                   | None => None
                   end).
    { replace (pos st0 + length a + 1) with (pos st0 + length (a ++ [c]))
        by (rewrite length_app; cbn [length]; lia).
      rewrite (IH (a ++ [c]) n Hx)
        by (rewrite <- ?app_assoc; cbn [app]; auto; lia).
      destruct (rsplit_colon x) as [[g r]|]; [|reflexivity].
      rewrite <- !app_assoc. reflexivity. }
    rewrite E1. cbn [rsplit_colon].
    destruct (rsplit_colon x) as [[g r]|]; [reflexivity|].
    cbn [flat_map]. rewrite app_nil_r.
    unfold capture; cbn [pos rest caps]. rewrite colon_here.
    destruct (N.eqb c colon); [|reflexivity].
    cbn [hd_error].
    replace (pos st0 + length a - pos st0) with (length a) by lia.
    rewrite Hrest, firstn_exact by reflexivity.
    rewrite !app_nil_r. reflexivity.
Qed.

Lemma rsplit_colon_some (x g r : text) :
  rsplit_colon x = Some (g, r) -> x = g ++ colon :: r.
Proof.
  revert g r; induction x as [|c x IH]; intros g r H; [discriminate|].
  cbn [rsplit_colon] in H.
  destruct (rsplit_colon x) as [[g' r']|].
  - injection H as <- <-. rewrite (IH g' r' eq_refl). reflexivity.
  - destruct (N.eqb_spec c colon) as [->|]; [|discriminate].
    injection H as <- <-. reflexivity.
Qed.

Lemma rsplit_colon_none (x : text) :
  rsplit_colon x = None <-> existsb (N.eqb colon) x = false.
Proof.
  induction x as [|c x IH]; [cbn; tauto|].
  cbn [rsplit_colon existsb]. rewrite (N.eqb_sym colon c).
  destruct (rsplit_colon x) as [[g r]|].
  - split; [discriminate|]. intros H. apply orb_false_iff in H.
    destruct H as [_ H]. apply IH in H. discriminate.
  - destruct (N.eqb c colon); cbn [orb]; [split; discriminate|].
    rewrite <- IH. tauto.
Qed.

Lemma dot_here (i : nat) (c : char) (y : text) (cs : list (nat * text)) :
  not_LF c = true ->
  matches Dot {| pos := i; rest := c :: y; caps := cs |}
  = [{| pos := i + 1; rest := y; caps := cs |}].
Proof.
  intros Hc.
  change (matches Dot {| pos := i; rest := c :: y; caps := cs |})
    with (if not_LF c
          then [{| pos := i + 1; rest := y; caps := cs |}] else []).
  rewrite Hc. reflexivity.
Qed.

(** Group 3 and the colon, from the start of what is left of a line. *)
Lemma group3_colon (p : nat) (x tail : text) (cs : list (nat * text)) :
  line_end tail -> forallb not_LF x = true ->
  hd_error (matches (Group 3 (Plus Dot) ;; Chr colon)%re
                    {| pos := p; rest := x ++ tail; caps := cs |})
  = match x with
    | [] => None
    | c :: x2 =>
        match rsplit_colon x2 with
        | Some (g, r) =>
            Some {| pos := p + length (c :: g) + 1; rest := r ++ tail;
                    caps := (3, c :: g) :: cs |}
        | None => None
        end
    end.
Proof.
  intros Htail Hx.
  change (matches (Group 3 (Plus Dot) ;; Chr colon)%re
                  {| pos := p; rest := x ++ tail; caps := cs |})
    with (flat_map (matches (Chr colon))
            (List.map (capture 3 {| pos := p; rest := x ++ tail; caps := cs |})
               (flat_map (fun st' => iter (matches Dot) (length (rest st')) st')
                  (matches Dot
                     {| pos := p; rest := x ++ tail; caps := cs |})))).
  destruct x as [|c x2].
  - cbn [app].
    change (matches Dot {| pos := p; rest := tail; caps := cs |})
      with (one not_LF {| pos := p; rest := tail; caps := cs |}).
    rewrite one_line_end by (auto; reflexivity). reflexivity.
  - cbn [forallb] in Hx. apply andb_true_iff in Hx. destruct Hx as [Hc Hx].
    cbn [app]. rewrite dot_here by exact Hc.
    cbn [flat_map rest]. rewrite app_nil_r, flat_map_map.
    pose proof (@dots_then_colon
                  {| pos := p; rest := c :: x2 ++ tail; caps := cs |}
                  tail cs Htail x2 [c] (length (x2 ++ tail)) Hx eq_refl) as H.
    cbn [pos length app] in H.
    rewrite H by (rewrite length_app; lia).
    destruct (rsplit_colon x2) as [[g r]|]; reflexivity.
Qed.

(** The optional marker, from the start of a line. *)
Lemma optional_marker (p : nat) (x tail : text) (cs : list (nat * text)) :
  line_end tail -> forallb not_LF x = true ->
  matches (Opt (Group 2 (Set_ (str ">") ;; Chr 32%N)))%re
          {| pos := p; rest := x ++ tail; caps := cs |}
  = (if startswith x (str "> ")
     then [{| pos := p + 2; rest := skipn 2 x ++ tail;
              caps := (2, str "> ") :: cs |}]
     else [])
    ++ [{| pos := p; rest := x ++ tail; caps := cs |}].
Proof.
  intros Htail Hx. cbn [matches]. f_equal.
  destruct x as [|c1 x].
  - cbn [app startswith str List.map list_ascii_of_string].
    destruct Htail as [->|(s & ->)]; reflexivity.
  - cbn [app]. unfold one at 2. cbn [rest existsb str List.map list_ascii_of_string].
    cbn [startswith]. rewrite orb_false_r.
    change (N_of_ascii ">") with 62%N. change (N_of_ascii " ") with 32%N.
    destruct (N.eqb_spec c1 62) as [->|H1]; [|reflexivity].
    cbn [flat_map andb]. rewrite app_nil_r.
    unfold advance. cbn [pos rest caps skipn].
    destruct x as [|c2 x].
    + cbn [app startswith].
      destruct Htail as [->|(s & ->)]; reflexivity.
    + cbn [app startswith]. unfold one. cbn [rest].
      rewrite (N.eqb_sym 32 c2), andb_true_r.
      destruct (N.eqb_spec c2 32) as [->|H2]; [|reflexivity].
      unfold advance, capture. cbn [List.map pos rest caps skipn].
      replace (p + 1 + 1 - p) with 2 by lia.
      replace (p + 1 + 1) with (p + 2) by lia. reflexivity.
Qed.

Lemma forallb_skipn (A : Type) (f : A -> bool) (n : nat) (l : list A) :
  forallb f l = true -> forallb f (skipn n l) = true.
Proof.
  revert l; induction n as [|n IH]; intros l H; [exact H|].
  destruct l as [|a l]; [reflexivity|]. cbn [skipn].
  cbn [forallb] in H. apply andb_true_iff in H. apply IH. tauto.
Qed.

Lemma message_tail_hd (p : nat) (x tail : text) (cs : list (nat * text)) :
  line_end tail -> forallb not_LF x = true ->
  hd_error (matches message_tail
                    {| pos := p; rest := x ++ tail; caps := cs |})
  = match (if startswith x (str "> ")
           then colon_end (p + 2) (skipn 2 x) tail ((2, str "> ") :: cs)
           else None) with
    | Some m => Some m
    | None => colon_end p x tail cs
    end.
Proof.
  intros Htail Hx.
  change (matches message_tail {| pos := p; rest := x ++ tail; caps := cs |})
    with (flat_map (matches (Group 3 (Plus Dot) ;; Chr colon)%re)
            (matches (Opt (Group 2 (Set_ (str ">") ;; Chr 32%N)))%re
                     {| pos := p; rest := x ++ tail; caps := cs |})).
  rewrite optional_marker by assumption.
  rewrite flat_map_app, hd_error_app.
  cbn [flat_map]. rewrite (app_nil_r (matches _ {| pos := p |})).
  rewrite (group3_colon p x cs Htail Hx). fold (colon_end p x tail cs).
  destruct (startswith x (str "> ")); [|reflexivity].
  cbn [flat_map]. rewrite app_nil_r.
  rewrite (group3_colon (p + 2) (skipn 2 x) ((2, str "> ") :: cs) Htail)
    by (apply forallb_skipn; exact Hx).
  reflexivity.
Qed.

Lemma first_line_split (s : text) :
  exists x tail, s = x ++ tail /\ forallb not_LF x = true /\ line_end tail.
Proof.
  induction s as [|c s (x & tail & -> & Hx & Ht)].
  - exists [], []. repeat split. left; reflexivity.
  - destruct (N.eqb_spec c LF) as [->|Hc].
    + exists [], (LF :: x ++ tail). repeat split. right; eauto.
    + exists (c :: x), tail. repeat split; [|exact Ht].
      cbn [forallb]. rewrite Hx. unfold not_LF.
      apply N.eqb_neq in Hc. rewrite Hc. reflexivity.
Qed.

Lemma not_LF_In (x : text) : forallb not_LF x = true -> ~ In LF x.
Proof. apply forallb_not_LF. Qed.

Lemma join_cons (a : text) (ls : list text) :
  join [LF] (a :: ls) = a ++ join [LF] ([] :: ls).
Proof. destruct ls; cbn [join app]; [rewrite app_nil_r|]; reflexivity. Qed.

Lemma lines_line_end (tail : text) :
  line_end tail -> hd [] (lines tail) = [].
Proof. intros [->|(s & ->)]; [reflexivity|]. rewrite lines_cons. reflexivity. Qed.

Lemma normalize_from_nil (b : bool) : normalize_from b [] = [].
Proof. destruct b; reflexivity. Qed.

Lemma normalize_from_LF (b : bool) (s : text) :
  normalize_from b (LF :: s) = LF :: normalize_from true s.
Proof.
  unfold normalize_from. rewrite lines_cons. cbn [N.eqb Pos.eqb LF].
  pose proof (lines_not_nil s) as Hne.
  destruct (lines s) as [|l ls]; [congruence|].
  destruct b; reflexivity.
Qed.

Lemma normalize_from_app (w s : text) :
  forallb not_LF w = true ->
  normalize_from false (w ++ s) = w ++ normalize_from false s.
Proof.
  intros Hw. unfold normalize_from.
  rewrite (@lines_app w s (@not_LF_In w Hw)).
  pose proof (lines_not_nil s) as Hne.
  destruct (lines s) as [|l ls]; [congruence|]. cbn [hd tl].
  rewrite (join_cons (w ++ l)), (join_cons l), app_assoc. reflexivity.
Qed.

Lemma normalize_from_line (x tail : text) :
  forallb not_LF x = true -> line_end tail ->
  normalize_from true (x ++ tail)
  = strip_line x ++ normalize_from false tail.
Proof.
  intros Hx Ht. unfold normalize_from.
  rewrite (@lines_app x tail (@not_LF_In x Hx)), (@lines_line_end tail Ht).
  pose proof (lines_not_nil tail) as Hne.
  pose proof (@lines_line_end tail Ht) as Hh.
  destruct (lines tail) as [|l ls]; [congruence|]. cbn [hd tl] in *.
  subst l. rewrite app_nil_r. apply join_cons.
Qed.

Lemma strip_line_not_LF (x : text) :
  forallb not_LF x = true -> forallb not_LF (strip_line x) = true.
Proof.
  intros Hx. unfold strip_line.
  destruct (_ && _); [apply forallb_skipn|]; exact Hx.
Qed.

(** What the pattern after its first group finds at the start of a line. *)
Lemma message_tail_choice (p : nat) (x tail : text)
  (cs : list (nat * text)) :
  line_end tail -> forallb not_LF x = true ->
  match hd_error (matches message_tail
                          {| pos := p; rest := x ++ tail; caps := cs |}) with
  | None => strip_line x = x
  | Some m =>
      exists g3 r,
        strip_line x = g3 ++ colon :: r /\ p < pos m /\
        rest m = r ++ tail /\ lookup 3 (caps m) = Some g3 /\
        lookup 1 (caps m) = lookup 1 cs
  end.
Proof.
  intros Htail Hx. rewrite message_tail_hd by assumption.
  unfold strip_line.
  destruct (startswith x (str "> ")) eqn:Em.
  - apply startswith_app in Em. destruct Em as (z & ->).
    change (skipn 2 (str "> " ++ z)) with z.
    change (skipn 3 (str "> " ++ z)) with (tl z).
    cbn [andb].
    destruct z as [|c z2].
    + cbn. reflexivity.
    + cbn [colon_end tl].
      destruct (rsplit_colon z2) as [[g r]|] eqn:Er.
      * assert (E : existsb (N.eqb colon) z2 = true).
        { destruct (existsb (N.eqb colon) z2) eqn:E; [reflexivity|].
          apply rsplit_colon_none in E. congruence. }
        rewrite E. apply rsplit_colon_some in Er. subst z2.
        exists (c :: g), r. cbn [pos rest caps lookup Nat.eqb length].
        repeat split. lia.
      * pose proof (proj1 (rsplit_colon_none z2) Er) as E. rewrite E.
        change (str "> " ++ c :: z2) with (62%N :: 32%N :: c :: z2).
        cbn [colon_end].
        destruct (rsplit_colon (32%N :: c :: z2)) as [[g r]|] eqn:Er2;
          [|reflexivity].
        apply rsplit_colon_some in Er2.
        exists (62%N :: g), r. cbn [pos rest caps lookup Nat.eqb length app].
        rewrite Er2. repeat split. lia.
  - cbn [andb]. destruct x as [|c x2]; [reflexivity|].
    cbn [colon_end].
    destruct (rsplit_colon x2) as [[g r]|] eqn:Er; [|reflexivity].
    apply rsplit_colon_some in Er. subst x2.
    exists (c :: g), r. cbn [pos rest caps lookup Nat.eqb length].
    repeat split. lia.
Qed.

Lemma message_tail_none (p : nat) (s : text) (cs : list (nat * text)) :
  hd_error (matches message_tail {| pos := p; rest := s; caps := cs |})
  = None ->
  normalize_from true s = normalize_from false s.
Proof.
  destruct (first_line_split s) as (x & tail & -> & Hx & Ht). intros H.
  pose proof (@message_tail_choice p x tail cs Ht Hx) as C. rewrite H in C.
  rewrite normalize_from_line, normalize_from_app, C by assumption.
  reflexivity.
Qed.

Lemma message_tail_some (p : nat) (s : text) (g1 : text) (m : state) :
  hd_error (matches message_tail
                    {| pos := p; rest := s; caps := [(1, g1)] |}) = Some m ->
  p < pos m /\
  g1 ++ normalize_from true s
  = expand message_repl m ++ normalize_from false (rest m).
Proof.
  destruct (first_line_split s) as (x & tail & -> & Hx & Ht). intros H.
  pose proof (@message_tail_choice p x tail [(1, g1)] Ht Hx) as C. rewrite H in C.
  destruct C as (g3 & r & Es & Hp & Er & H3 & H1).
  split; [exact Hp|].
  rewrite normalize_from_line, Es, Er by assumption.
  assert (Hr : forallb not_LF r = true).
  { pose proof (@strip_line_not_LF x Hx) as Hs. rewrite Es in Hs.
    rewrite forallb_app in Hs. apply andb_true_iff in Hs.
    destruct Hs as [_ Hs]. cbn [forallb] in Hs.
    apply andb_true_iff in Hs. tauto. }
  rewrite normalize_from_app by exact Hr.
  unfold expand, message_repl, group. cbn [List.map concat].
  rewrite H1, H3. cbn [lookup Nat.eqb].
  rewrite <- !app_assoc. reflexivity.
Qed.

Lemma find_all (A : Type) (f : A -> bool) (l : list A) :
  (forall x, f x = true) -> find f l = hd_error l.
Proof. intros H. destruct l as [|x l]; [reflexivity|]. cbn. rewrite H. reflexivity. Qed.

(** The match of the first pattern at a position: at the start of the text
    the first line is tried; otherwise, or when it fails, the line after a
    newline. *)
Lemma message_match_at (i : nat) (s : text) :
  match_at message_pattern false {| pos := i; rest := s; caps := [] |}
  = match (if i =? 0
           then hd_error (matches message_tail
                            {| pos := i; rest := s; caps := [(1, [])] |})
           else None) with
    | Some m => Some m
    | None =>
        match s with
        | [] => None
        | c :: s2 =>
            if N.eqb c LF
            then hd_error (matches message_tail
                             {| pos := i + 1; rest := s2;
                                caps := [(1, [LF])] |})
            else None
        end
    end.
Proof.
  unfold match_at. rewrite find_all by reflexivity.
  change (matches message_pattern {| pos := i; rest := s; caps := [] |})
    with (flat_map (matches message_tail)
            (List.map (capture 1 {| pos := i; rest := s; caps := [] |})
               ((if i =? 0 then [{| pos := i; rest := s; caps := [] |}]
                 else [])
                ++ one (N.eqb LF) {| pos := i; rest := s; caps := [] |}))).
  rewrite map_app, flat_map_app, hd_error_app.
  assert (E1 : hd_error
                 (flat_map (matches message_tail)
                    (List.map
                       (capture 1 {| pos := i; rest := s; caps := [] |})
                       (if i =? 0
                        then [{| pos := i; rest := s; caps := [] |}]
                        else [])))
               = if i =? 0
                 then hd_error (matches message_tail
                                  {| pos := i; rest := s;
                                     caps := [(1, [])] |})
                 else None).
  { destruct (i =? 0); [|reflexivity].
    cbn [List.map flat_map]. rewrite app_nil_r.
    unfold capture. cbn [pos rest caps]. rewrite Nat.sub_diag. reflexivity. }
  rewrite E1.
  destruct (if i =? 0 then _ else None) as [m|]; [reflexivity|].
  destruct s as [|c s2]; [reflexivity|].
  unfold one. cbn [rest]. rewrite (N.eqb_sym LF c).
  destruct (N.eqb c LF) eqn:Ec; [|reflexivity].
  apply N.eqb_eq in Ec. subst c.
  cbn [List.map flat_map]. rewrite app_nil_r.
  unfold capture, advance. cbn [pos rest caps skipn].
  replace (i + 1 - i) with 1 by lia. reflexivity.
Qed.

Section SubExact.

Variable p : regex.
Variable repl : list item.

(** What the loop is to make of what is left of the subject at a
    position. *)
Variable F : nat -> text -> text.

Hypothesis F_nil : forall i, F i [] = [].
Hypothesis F_match :
  forall i s m,
    match_at p false {| pos := i; rest := s; caps := [] |} = Some m ->
    i < pos m /\ F i s = expand repl m ++ F (pos m) (rest m).
Hypothesis F_skip :
  forall i c s,
    match_at p false {| pos := i; rest := c :: s; caps := [] |} = None ->
    F i (c :: s) = c :: F (S i) s.

Lemma search_exact :
  forall s i,
    match search p false i s with
    | None => F i s = s
    | Some (skipped, j, m) =>
        j < pos m /\ F i s = skipped ++ expand repl m ++ F (pos m) (rest m)
    end.
Proof.
  induction s as [|c s IH]; intros i; cbn [search].
  - destruct (match_at p false _) as [m|] eqn:E.
    + apply F_match in E. exact E.
    + apply F_nil.
  - destruct (match_at p false _) as [m|] eqn:E.
    + apply F_match in E. exact E.
    + apply F_skip in E. specialize (IH (S i)).
      destruct (search p false (S i) s) as [[[sk j] m]|].
      * destruct IH as [Hj IH]. split; [exact Hj|].
        rewrite E, IH. reflexivity.
      * rewrite E, IH. reflexivity.
Qed.

Lemma sub_loop_exact :
  forall fuel i s,
    rounds false s < fuel -> sub_loop fuel p repl false i s = F i s.
Proof.
  induction fuel as [|fuel IH]; intros i s Hf; [lia|].
  cbn [sub_loop]. pose proof (search_exact s i) as H.
  destruct (search p false i s) as [[[skipped j] m]|] eqn:E;
    [|symmetry; exact H].
  destruct H as [Hj ->].
  destruct (search_progress _ _ _ _ E) as (Hl & _ & _).
  assert (Em : (pos m =? j) = false) by (apply Nat.eqb_neq; lia).
  rewrite Em, IH; [reflexivity|]. unfold rounds in *. lia.
Qed.

Lemma sub_exact (s : text) : Re.sub p repl s = F 0 s.
Proof. apply sub_loop_exact. unfold rounds. lia. Qed.

End SubExact.

Lemma normalize_messages_exact (s : text) :
  normalize_messages s = join [LF] (List.map strip_line (lines s)).
Proof.
  unfold normalize_messages.
  rewrite (@sub_exact message_pattern message_repl
             (fun i s => normalize_from (i =? 0) s)).
  - unfold normalize_from. cbn [Nat.eqb].
    pose proof (lines_not_nil s) as Hne.
    destruct (lines s); [congruence | reflexivity].
  - intros i. apply normalize_from_nil.
  - intros i s0 m H. rewrite message_match_at in H.
    destruct (i =? 0) eqn:Ei.
    + destruct (hd_error (matches message_tail
                            {| pos := i; rest := s0; caps := [(1, [])] |}))
        as [m'|] eqn:E1.
      * injection H as ->. apply message_tail_some in E1.
        destruct E1 as [Hp E1]. split; [exact Hp|].
        assert (Em : (pos m =? 0) = false) by (apply Nat.eqb_neq; lia).
        rewrite Em. exact E1.
      * destruct s0 as [|c s2]; [discriminate|].
        destruct (N.eqb_spec c LF) as [->|]; [|discriminate].
        apply message_tail_some in H. destruct H as [Hp H].
        split; [lia|].
        assert (Em : (pos m =? 0) = false) by (apply Nat.eqb_neq; lia).
        rewrite Em, normalize_from_LF. exact H.
    + destruct s0 as [|c s2]; [discriminate|].
      destruct (N.eqb_spec c LF) as [->|]; [|discriminate].
      apply message_tail_some in H. destruct H as [Hp H].
      split; [lia|].
      assert (Em : (pos m =? 0) = false) by (apply Nat.eqb_neq; lia).
      rewrite Em, normalize_from_LF. exact H.
  - intros i c s0 H. rewrite message_match_at in H.
    cbn [Nat.eqb].
    assert (Hrest : (if N.eqb c LF
                     then hd_error (matches message_tail
                                      {| pos := i + 1; rest := s0;
                                         caps := [(1, [LF])] |})
                     else None) = None ->
                    normalize_from false (c :: s0)
                    = c :: normalize_from false s0).
    { destruct (N.eqb_spec c LF) as [->|Hc]; intros H'.
      - rewrite normalize_from_LF. f_equal.
        eapply message_tail_none; exact H'.
      - apply (normalize_from_app [c] s0). cbn [forallb]. unfold not_LF.
        apply N.eqb_neq in Hc. rewrite Hc. reflexivity. }
    destruct (i =? 0) eqn:Ei.
    + destruct (hd_error (matches message_tail
                            {| pos := i; rest := c :: s0;
                               caps := [(1, [])] |})) as [m'|] eqn:E1;
        [discriminate|].
      rewrite (message_tail_none _ _ _ E1). apply Hrest. exact H.
    + apply Hrest. exact H.
Qed.

(* ================================================================= *)
(** ** Lines with the role label get a directive *)

(** What a match of the insertion pass does to the number of openers: one
    more, whatever follows. *)
Lemma directive_match_count (j : nat) (s : text) (m : state) (t : text) :
  In m (matches directive_pattern {| pos := j; rest := s; caps := [] |}) ->
  occurrences (expand directive_repl m ++ t) + occurrences (rest m)
  = S (occurrences s + occurrences t).
Proof.
  intros Hm.
  destruct (directive_match_shape _ _ _ Hm)
    as (g1 & pre & g3 & mid & r & -> & Er & Hp & Hg1 & Hpre & Hg3 & Hmid
        & ->).
  rewrite Er.
  assert (Ht : occurrences ((g3 ++ [LF; LF] ++ opener ++ [LF; LF]
                             ++ str "   User:") ++ t)
               = occurrences g3 + 1 + occurrences t).
  { replace ((g3 ++ [LF; LF] ++ opener ++ [LF; LF] ++ str "   User:") ++ t)
      with (g3 ++ LF :: [] ++ LF :: opener ++ LF :: [] ++ LF ::
            str "   User:" ++ t)
      by (rewrite <- ?app_assoc; cbn [app]; rewrite <- ?app_assoc;
          reflexivity).
    rewrite !occurrences_LF, occurrences_opener.
    rewrite (@occurrences_skip _ _ no_dot_in_user).
    change (occurrences []) with 0. lia. }
  assert (Hs : occurrences (pre ++ g3 ++ mid ++ str "   User:" ++ r)
               = occurrences g3 + occurrences r).
  { rewrite (@occurrences_skip _ _ Hpre).
    destruct Hmid as [(_ & -> & ->)|(mid' & -> & Hmid')].
    - cbn [app]. rewrite (@occurrences_skip _ _ no_dot_in_user). reflexivity.
    - change ((LF :: mid') ++ str "   User:" ++ r)
        with (LF :: mid' ++ str "   User:" ++ r).
      rewrite occurrences_LF, (@occurrences_skip _ _ Hmid').
      rewrite (@occurrences_skip _ _ no_dot_in_user). reflexivity. }
  replace ((g1 ++ g3 ++ [LF; LF] ++ opener ++ [LF; LF] ++ str "   User:")
           ++ t)
    with (g1 ++ (g3 ++ [LF; LF] ++ opener ++ [LF; LF] ++ str "   User:")
          ++ t)
    by (rewrite <- ?app_assoc; reflexivity).
  destruct Hg1 as [[-> ->]| ->].
  - change (occurrences ((g3 ++ [LF; LF] ++ opener ++ [LF; LF]
                          ++ str "   User:") ++ t) + occurrences r
            = S (occurrences (pre ++ g3 ++ mid ++ str "   User:" ++ r)
                 + occurrences t)).
    rewrite Hs, Ht. lia.
  - change ([LF] ++ ?x) with (LF :: x).
    rewrite !occurrences_cons_LF, Hs, Ht. lia.
Qed.

(** Where the search finds a match, the insertion pass adds an opener. *)
Lemma insert_directive_found (u skipped : text) (j : nat) (m : state) :
  search directive_pattern false 0 u = Some (skipped, j, m) ->
  occurrences u < occurrences (insert_directive u).
Proof.
  intros E.
  destruct (insert_directive_adds u) as [Eq|Hlt]; [|exact Hlt].
  exfalso. revert Eq. unfold insert_directive, Re.sub.
  replace (2 * length u + 2) with (S (2 * length u + 1)) by lia.
  cbn [sub_loop]. rewrite E.
  destruct (search_sound _ _ _ _ E) as (s' & -> & _ & Hin).
  intros Eq. apply app_inv_head in Eq.
  pose proof (@directive_match_count j s' m
                (sub_loop (2 * length (skipped ++ s') + 1) directive_pattern
                          directive_repl (pos m =? j) (pos m) (rest m))
                Hin) as Hc.
  rewrite Eq in Hc.
  pose proof (@sub_loop_rel directive_pattern directive_repl directive_added
                directive_added_refl directive_added_copy
                directive_added_match
                (2 * length (skipped ++ s') + 1) (pos m =? j) (pos m)
                (rest m)) as [_ Hr].
  destruct Hr as [Er|Hr]; [rewrite Er in Hc|]; lia.
Qed.

Lemma search_complete (p : regex) :
  forall skipped i s,
    match_at p false {| pos := i + length skipped; rest := s; caps := [] |}
    <> None ->
    search p false i (skipped ++ s) <> None.
Proof.
  induction skipped as [|c sk IH]; intros i s H.
  - cbn [app length] in *. rewrite Nat.add_0_r in H.
    destruct s; cbn [search]; destruct (match_at p false _); congruence.
  - cbn [app search].
    destruct (match_at p false {| pos := i; rest := c :: sk ++ s |});
      [discriminate|].
    specialize (IH (S i) s).
    replace (S i + length sk) with (i + length (c :: sk)) in IH
      by (cbn [length]; lia).
    specialize (IH H).
    destruct (search p false (S i) (sk ++ s)) as [[[? ?] ?]|];
      [discriminate | congruence].
Qed.

Lemma flat_map_not_nil (A B : Type) (f : A -> list B) (l : list A) (x : A) :
  In x l -> f x <> [] -> flat_map f l <> [].
Proof.
  induction l as [|a l IH]; [intros []|].
  intros [->|Hin] Hf; cbn [flat_map].
  - destruct (f x); [congruence | discriminate].
  - intros E. apply app_eq_nil in E. destruct E as [_ E].
    exact (IH Hin Hf E).
Qed.

Lemma hd_error_not_nil (A : Type) (l : list A) :
  l <> [] -> hd_error l <> None.
Proof. destruct l; [congruence | discriminate]. Qed.

Lemma directive_tail_user (i : nat) (b : text) (cs : list (nat * text)) :
  matches directive_tail
          {| pos := i; rest := str "   User:" ++ b; caps := cs |} <> [].
Proof.
  change (matches directive_tail
                  {| pos := i; rest := str "   User:" ++ b; caps := cs |})
    with (flat_map (matches (Lit (str "   User:")))
            (matches (Opt (Group 2 (Lit (str "   ")
                                    ;; Plus (Set_ (str "# "))
                                    ;; Group 3 (Plus Dot)
                                    ;; Plus (Group 4 (Chr LF ;; Star Space)))))%re
                     {| pos := i; rest := str "   User:" ++ b; caps := cs |})).
  apply flat_map_not_nil
    with (x := {| pos := i; rest := str "   User:" ++ b; caps := cs |}).
  - cbn [matches]. apply in_or_app. right. left. reflexivity.
  - cbn [matches rest].
    assert (E : startswith (str "   User:" ++ b) (str "   User:") = true)
      by (apply startswith_app; exists b; reflexivity).
    rewrite E. discriminate.
Qed.

(** A line that starts with the indented [User:] is matched. *)
Lemma directive_match_at_line (i : nat) (b : text) :
  match_at directive_pattern false
           {| pos := i; rest := LF :: str "   User:" ++ b; caps := [] |}
  <> None.
Proof.
  unfold match_at. rewrite find_all by reflexivity.
  apply hd_error_not_nil.
  change (matches directive_pattern
            {| pos := i; rest := LF :: str "   User:" ++ b; caps := [] |})
    with (flat_map (matches directive_tail)
            (List.map
               (capture 1 {| pos := i; rest := LF :: str "   User:" ++ b;
                             caps := [] |})
               (matches (Alt Bol (Chr LF))
                  {| pos := i; rest := LF :: str "   User:" ++ b;
                     caps := [] |}))).
  eapply flat_map_not_nil.
  - apply in_map. cbn [matches]. apply in_or_app. right.
    unfold one. cbn [rest]. left. reflexivity.
  - unfold capture, advance. cbn [pos rest caps skipn].
    apply directive_tail_user.
Qed.

Lemma directive_match_at_start (b : text) :
  match_at directive_pattern false
           {| pos := 0; rest := str "   User:" ++ b; caps := [] |}
  <> None.
Proof.
  unfold match_at. rewrite find_all by reflexivity.
  apply hd_error_not_nil.
  change (matches directive_pattern
            {| pos := 0; rest := str "   User:" ++ b; caps := [] |})
    with (flat_map (matches directive_tail)
            (List.map
               (capture 1 {| pos := 0; rest := str "   User:" ++ b;
                             caps := [] |})
               (matches (Alt Bol (Chr LF))
                  {| pos := 0; rest := str "   User:" ++ b; caps := [] |}))).
  eapply flat_map_not_nil.
  - apply in_map. cbn [matches pos Nat.eqb]. left. reflexivity.
  - unfold capture. cbn [pos rest caps].
    apply directive_tail_user.
Qed.

(** The insertion pass adds an opener to a text with a line that starts
    with the indented [User:]. *)
Lemma insert_directive_user_line (u : text) :
  (exists b, u = str "   User:" ++ b) \/
  (exists a b, u = a ++ LF :: str "   User:" ++ b) ->
  occurrences u < occurrences (insert_directive u).
Proof.
  intros H.
  assert (Hs : search directive_pattern false 0 u <> None).
  { destruct H as [(b & ->)|(a & b & ->)].
    - apply (@search_complete directive_pattern [] 0).
      apply directive_match_at_start.
    - apply (@search_complete directive_pattern a 0).
      apply directive_match_at_line. }
  destruct (search directive_pattern false 0 u) as [[[sk j] m]|] eqn:E;
    [|congruence].
  eapply insert_directive_found; exact E.
Qed.

(* ================================================================= *)
(** ** The first pass, line by line *)

Lemma lines_no_LF (s : text) :
  Forall (fun l => forallb not_LF l = true) (lines s).
Proof.
  induction s as [|c s IH]; [repeat constructor|].
  rewrite lines_cons. pose proof (lines_not_nil s) as Hne.
  destruct (N.eqb c LF) eqn:Ec; [constructor; [reflexivity | exact IH]|].
  destruct (lines s) as [|h t]; [congruence|].
  inversion IH as [|? ? Hh Ht]; subst. constructor; [|exact Ht].
  cbn [hd forallb]. unfold not_LF at 1. rewrite Ec, Hh. reflexivity.
Qed.

Lemma lines_join (ls : list text) :
  ls <> [] -> Forall (fun l => forallb not_LF l = true) ls ->
  lines (join [LF] ls) = ls.
Proof.
  induction ls as [|l ls IH]; [congruence|]. intros _ Hall.
  inversion Hall as [|? ? Hl Hls]; subst.
  destruct ls as [|l' ls].
  - cbn [join]. rewrite <- (app_nil_r l) at 1.
    rewrite (@lines_app l [] (@not_LF_In l Hl)). cbn. rewrite app_nil_r.
    reflexivity.
  - change (join [LF] (l :: l' :: ls)) with (l ++ LF :: join [LF] (l' :: ls)).
    rewrite (@lines_app l _ (@not_LF_In l Hl)), lines_cons.
    change (N.eqb LF LF) with true. cbv iota. cbn [hd tl].
    rewrite app_nil_r, IH; [reflexivity | discriminate | exact Hls].
Qed.

(** X11: the first pass works line by line, a line ending at a newline
    character: from a line that starts with the marker [> ] and has a colon
    at its fourth character or later, the marker is removed; every other
    line is kept unchanged.  Both the output and its lines are described
    this way. *)
Theorem normalize_messages_by_line :
  forall s : text,
    normalize_messages s = join [LF] (List.map strip_line (lines s)) /\
    lines (normalize_messages s) = List.map strip_line (lines s).
Proof.
  intros s. split; [apply normalize_messages_exact|].
  rewrite normalize_messages_exact. apply lines_join.
  - pose proof (lines_not_nil s) as Hne.
    destruct (lines s); [congruence | discriminate].
  - pose proof (lines_no_LF s) as H.
    induction H as [|l ls Hl _ IH]; [constructor|].
    cbn [List.map]. constructor; [apply strip_line_not_LF, Hl | exact IH].
Qed.

(* ================================================================= *)
(** ** Indentation across a newline *)

Lemma splitlines_not_nil (c : char) (s : text) :
  splitlines_keepends (c :: s) <> [].
Proof.
  cbn [splitlines_keepends].
  destruct (islinebreak c && negb ((c =? CR)%N && startswith s [LF]));
    [discriminate|].
  destruct (splitlines_keepends s); discriminate.
Qed.

Lemma startswith_LF_app (a y : text) :
  startswith (a ++ LF :: y) [LF] = startswith (a ++ [LF]) [LF].
Proof. destruct a; reflexivity. Qed.

Lemma splitlines_LF (a y : text) :
  splitlines_keepends (a ++ LF :: y)
  = splitlines_keepends (a ++ [LF]) ++ splitlines_keepends y.
Proof.
  induction a as [|c a IH].
  - reflexivity.
  - cbn [app splitlines_keepends]. rewrite startswith_LF_app, IH.
    destruct (islinebreak c && negb ((c =? CR)%N && startswith (a ++ [LF]) [LF]));
      [reflexivity|].
    assert (Hne : splitlines_keepends (a ++ [LF]) <> []).
    { destruct a; apply splitlines_not_nil. }
    destruct (splitlines_keepends (a ++ [LF])); [congruence | reflexivity].
Qed.

Lemma splitlines_ends_LF (a : text) :
  exists ls l, splitlines_keepends (a ++ [LF]) = ls ++ [l ++ [LF]].
Proof.
  induction a as [|c a (ls & l & IH)].
  - exists [], []. reflexivity.
  - cbn [app splitlines_keepends]. rewrite IH.
    destruct (islinebreak c && negb ((c =? CR)%N && startswith (a ++ [LF]) [LF])).
    + exists ([c] :: ls), l. reflexivity.
    + destruct ls as [|l0 ls].
      * exists [], (c :: l). reflexivity.
      * exists ((c :: l0) :: ls), l. reflexivity.
Qed.

Lemma indent_LF (a y : text) :
  indent (a ++ LF :: y) (str "   ")
  = indent (a ++ [LF]) (str "   ") ++ indent y (str "   ").
Proof.
  unfold indent. rewrite splitlines_LF, map_app, concat_app. reflexivity.
Qed.

Lemma indent_ends_LF (a : text) :
  exists a', indent (a ++ [LF]) (str "   ") = a' ++ [LF].
Proof.
  destruct (splitlines_ends_LF a) as (ls & l & E).
  unfold indent. rewrite E, map_app, concat_app. cbn [List.map concat].
  rewrite app_nil_r.
  destruct (forallb isspace (l ++ [LF])).
  - eexists. rewrite app_assoc. reflexivity.
  - eexists. rewrite !app_assoc. reflexivity.
Qed.

Lemma splitlines_user (b : text) :
  exists l ls, splitlines_keepends (user ++ b) = (user ++ l) :: ls.
Proof.
  assert (H : forall c y, islinebreak c = false ->
                exists l ls, splitlines_keepends (c :: y) = (c :: l) :: ls).
  { intros c y Hc. cbn [splitlines_keepends]. rewrite Hc. cbn [andb].
    destruct (splitlines_keepends y) as [|l ls]; eauto. }
  change (user ++ b) with (85%N :: 115%N :: 101%N :: 114%N :: 58%N :: b).
  cbn [splitlines_keepends]. cbn [islinebreak andb].
  change (islinebreak 85 && _) with false.
  change (islinebreak 115 && _) with false.
  change (islinebreak 101 && _) with false.
  change (islinebreak 114 && _) with false.
  change (islinebreak 58 && _) with false. cbv iota.
  destruct (splitlines_keepends b) as [|l ls]; eexists; eexists; reflexivity.
Qed.

Lemma indent_user (b : text) :
  exists b', indent (user ++ b) (str "   ") = str "   User:" ++ b'.
Proof.
  destruct (splitlines_user b) as (l & ls & E).
  unfold indent. rewrite E. cbn [List.map concat].
  change (forallb isspace (user ++ l)) with false. cbv iota.
  eexists. change (str "   User:") with (str "   " ++ user).
  rewrite <- !app_assoc. reflexivity.
Qed.

(** The indentation of a text with a line that starts with [User:]. *)
Lemma indent_user_line (n : text) :
  (exists b, n = user ++ b) \/ (exists a b, n = a ++ LF :: user ++ b) ->
  (exists b, indent n (str "   ") = str "   User:" ++ b) \/
  (exists a b, indent n (str "   ") = a ++ LF :: str "   User:" ++ b).
Proof.
  intros [(b & ->)|(a & b & ->)].
  - left. apply indent_user.
  - right. rewrite indent_LF.
    destruct (indent_ends_LF a) as (a' & ->).
    destruct (indent_user b) as (b' & ->).
    exists a', b'. rewrite <- app_assoc. reflexivity.
Qed.

(* ================================================================= *)
(** ** Where a line stands in a text *)

Lemma line_at_start (w : text) (n : text) :
  startswith (hd [] (lines n)) w = true -> exists b, n = w ++ b.
Proof.
  intros H. apply startswith_app in H. destruct H as (r & E).
  destruct (lines_hd_split n) as [E'|(y & E')]; rewrite E in E'.
  - exists r. exact E'.
  - exists (r ++ LF :: y). rewrite E', <- app_assoc. reflexivity.
Qed.

Lemma line_after_newline (w : text) :
  forall n l,
    In l (tl (lines n)) -> startswith l w = true ->
    exists a b, n = a ++ LF :: w ++ b.
Proof.
  induction n as [|c n IH]; intros l Hin Hw; [destruct Hin|].
  rewrite lines_cons in Hin.
  destruct (N.eqb_spec c LF) as [->|Hc]; cbn [tl] in Hin.
  - pose proof (lines_not_nil n) as Hne.
    destruct (lines n) as [|h t] eqn:El; [congruence|].
    destruct Hin as [<-|Hin].
    + destruct (@line_at_start w n) as (b & ->);
        [rewrite El; exact Hw|].
      exists [], b. reflexivity.
    + destruct (IH l) as (a & b & ->); [exact Hin | exact Hw|].
      exists (LF :: a), b. reflexivity.
  - destruct (IH l Hin Hw) as (a & b & ->).
    exists (c :: a), b. reflexivity.
Qed.

Lemma line_in_text (w n l : text) :
  In l (lines n) -> startswith l w = true ->
  (exists b, n = w ++ b) \/ (exists a b, n = a ++ LF :: w ++ b).
Proof.
  intros Hin Hw. pose proof (lines_not_nil n) as Hne.
  destruct (lines n) as [|h t] eqn:El; [congruence|].
  destruct Hin as [<-|Hin].
  - left. apply line_at_start. rewrite El. exact Hw.
  - right. apply line_after_newline with (l := l); [|exact Hw].
    rewrite El. exact Hin.
Qed.

(** A marked or unmarked [User:] line is a [User:] line after the first
    pass. *)
Lemma strip_line_user (l : text) :
  startswith l user = true \/ startswith l (str "> User:") = true ->
  startswith (strip_line l) user = true.
Proof.
  intros [H|H].
  - unfold strip_line.
    apply startswith_app in H. destruct H as (r & ->). exact eq_refl.
  - apply startswith_app in H. destruct H as (r & ->). exact eq_refl.
Qed.

Lemma join_middle (m : text) (t2 : list text) :
  forall t1 h, exists a b, join [LF] (h :: t1 ++ m :: t2) = a ++ LF :: m ++ b.
Proof.
  induction t1 as [|x t1 IH]; intros h.
  - exists h, (join [LF] ([] :: t2)). cbn [app].
    change (join [LF] (h :: m :: t2)) with (h ++ LF :: join [LF] (m :: t2)).
    rewrite (join_cons m). reflexivity.
  - destruct (IH x) as (a & b & E).
    exists (h ++ LF :: a), b.
    change (join [LF] (h :: (x :: t1) ++ m :: t2))
      with (h ++ LF :: join [LF] (x :: t1 ++ m :: t2)).
    rewrite E, <- app_assoc. reflexivity.
Qed.

Lemma normalize_messages_user_line (s l : text) :
  In l (lines s) ->
  startswith l user = true \/ startswith l (str "> User:") = true ->
  (exists b, normalize_messages s = user ++ b) \/
  (exists a b, normalize_messages s = a ++ LF :: user ++ b).
Proof.
  intros Hin Hl. rewrite normalize_messages_exact.
  pose proof (lines_not_nil s) as Hne.
  destruct (lines s) as [|h t] eqn:El; [congruence|].
  cbn [List.map]. apply strip_line_user in Hl.
  apply startswith_app in Hl. destruct Hl as (r & E).
  destruct Hin as [<-|Hin].
  - left. rewrite join_cons, E, <- app_assoc. eauto.
  - right. apply in_split in Hin. destruct Hin as (t1 & t2 & ->).
    rewrite map_app. cbn [List.map]. rewrite E.
    destruct (@join_middle (user ++ r) (List.map strip_line t2)
                (List.map strip_line t1) (strip_line h)) as (a & b & ->).
    exists a, (r ++ b). rewrite <- app_assoc. reflexivity.
Qed.

(* ================================================================= *)
(** ** Texts the first pass leaves alone *)

Lemma strip_line_length (l : text) :
  strip_line l = l \/ length (strip_line l) + 2 = length l.
Proof.
  unfold strip_line.
  destruct (startswith l (str "> ")) eqn:E; [|left; reflexivity].
  destruct (existsb (N.eqb colon) (skipn 3 l)); [|left; reflexivity].
  right. apply startswith_app in E. destruct E as (r & ->).
  cbn. lia.
Qed.

Lemma strip_lines_length (ls : list text) :
  list_sum (List.map (fun l => S (length l)) (List.map strip_line ls))
  <= list_sum (List.map (fun l => S (length l)) ls) /\
  (list_sum (List.map (fun l => S (length l)) (List.map strip_line ls))
   = list_sum (List.map (fun l => S (length l)) ls) ->
   forall l, In l ls -> strip_line l = l).
Proof.
  induction ls as [|x ls [IH1 IH2]]; [split; [reflexivity | intros _ l []]|].
  cbn [List.map].
  change (list_sum (S (length (strip_line x)) :: ?t))
    with (S (length (strip_line x)) + list_sum t).
  change (list_sum (S (length x) :: ?t)) with (S (length x) + list_sum t).
  destruct (strip_line_length x) as [E|E].
  - rewrite E. split; [lia|].
    intros H l [<-|Hin]; [exact E | apply IH2; [lia | exact Hin]].
  - split; [lia|]. intros H. lia.
Qed.

Lemma normalize_messages_fixed (s : text) :
  normalize_messages s = s <-> forall l, In l (lines s) -> strip_line l = l.
Proof.
  rewrite normalize_messages_exact. split.
  - intros E. apply (proj2 (strip_lines_length (lines s))).
    pose proof (lines_not_nil s) as Hne.
    assert (Hne' : List.map strip_line (lines s) <> [])
      by (destruct (lines s); [congruence | discriminate]).
    pose proof (@length_join_lines _ Hne') as E1.
    pose proof (@length_join_lines _ Hne) as E2.
    rewrite E in E1. rewrite join_lines in E2. lia.
  - intros H. rewrite <- (join_lines s) at 2. f_equal.
    rewrite <- (map_id (lines s)) at 2. apply map_ext_in. exact H.
Qed.

Lemma strip_line_fixed (l : text) :
  strip_line l = l <->
  (startswith l (str "> ") = true -> ~ In colon (skipn 3 l)).
Proof.
  unfold strip_line.
  destruct (startswith l (str "> ")) eqn:E; cbn [andb].
  - destruct (existsb (N.eqb colon) (skipn 3 l)) eqn:Ec.
    + split.
      * intros H. exfalso. apply startswith_app in E. destruct E as (r & ->).
        apply (f_equal (@length N)) in H. cbn in H. lia.
      * intros H. exfalso. apply (H eq_refl).
        apply existsb_exists in Ec. destruct Ec as (c & Hin & Hc).
        apply N.eqb_eq in Hc. subst c. exact Hin.
    + split; [|reflexivity]. intros _ _ Hin.
      assert (Ht : existsb (N.eqb colon) (skipn 3 l) = true)
        by (apply existsb_exists; exists colon; split;
            [exact Hin | apply N.eqb_refl]).
      congruence.
  - split; [intros _ H; discriminate H | reflexivity].
Qed.

(* ================================================================= *)
(** ** Role lines and the outcome of the transform *)

(** X12: in strict mode the transform fails with [NoMessageFound]
    exactly when no line of the text starts with the marker [> ] and has a
    colon at its fourth character or later. *)
Theorem strict_no_message_iff :
  forall s : text,
    transform_examples_to_chat_directives s true = Raise NoMessageFound <->
    forall l, In l (lines s) ->
              startswith l (str "> ") = true -> ~ In colon (skipn 3 l).
Proof.
  intros s. rewrite transform_strict.
  assert (E : normalize_messages s = s <->
              forall l, In l (lines s) ->
                        startswith l (str "> ") = true ->
                        ~ In colon (skipn 3 l)).
  { rewrite normalize_messages_fixed. split; intros H l Hin.
    - apply strip_line_fixed, H, Hin.
    - apply strip_line_fixed, H, Hin. }
  destruct (text_eqb (normalize_messages s) s) eqn:E1.
  - apply text_eqb_eq in E1. split; [intros _; apply E, E1 | reflexivity].
  - apply text_eqb_neq in E1. split.
    + destruct (text_eqb _ _); discriminate.
    + intros H. exfalso. apply E1, E, H.
Qed.

Lemma transform_user_line (s l : text) :
  In l (lines s) ->
  startswith l user = true \/ startswith l (str "> User:") = true ->
  occurrences s
  < occurrences (insert_directive (indent (normalize_messages s) (str "   "))).
Proof.
  intros Hin Hl.
  rewrite <- (occurrences_normalize_messages s).
  rewrite <- (occurrences_indent (normalize_messages s)).
  apply insert_directive_user_line, indent_user_line.
  exact (@normalize_messages_user_line s l Hin Hl).
Qed.

(** X13: when some line of the text starts with [User:] or with
    [> User:], the transform without [strict] adds at least one opener
    [.. chat::], and in strict mode it does not fail with
    [NoDirectivePlacementFound]. *)
Theorem user_line_gets_directive :
  forall s l : text,
    In l (lines s) ->
    startswith l (str "User:") = true \/ startswith l (str "> User:") = true ->
    exists t,
      transform_examples_to_chat_directives s false = Ok t /\
      occurrences s < occurrences t /\
      transform_examples_to_chat_directives s true
      <> Raise NoDirectivePlacementFound.
Proof.
  intros s l Hin Hl. pose proof (@transform_user_line s l Hin Hl) as Hlt.
  exists (insert_directive (indent (normalize_messages s) (str "   "))).
  split; [apply transform_non_strict|]. split; [exact Hlt|].
  rewrite transform_strict.
  destruct (text_eqb (normalize_messages s) s); [discriminate|].
  destruct (text_eqb _ _) eqn:E2; [|discriminate].
  apply text_eqb_eq in E2. rewrite E2 in Hlt.
  rewrite occurrences_indent, occurrences_normalize_messages in Hlt. lia.
Qed.

Lemma user_line_gets_directive_witness :
  exists t,
    transform_examples_to_chat_directives
      (str "Intro" ++ [LF] ++ str "User: hi") false = Ok t /\
    occurrences (str "Intro" ++ [LF] ++ str "User: hi") < occurrences t /\
    transform_examples_to_chat_directives
      (str "Intro" ++ [LF] ++ str "User: hi") true
    <> Raise NoDirectivePlacementFound.
Proof.
  apply (@user_line_gets_directive
           (str "Intro" ++ [LF] ++ str "User: hi") (str "User: hi")).
  - vm_compute. right. left. reflexivity.
  - left. vm_compute. reflexivity.
Defined.

(** X14: when some line of the text starts with [> User:], the transform
    succeeds in strict mode, and its output holds more openers [.. chat::]
    than the input. *)
Theorem marked_user_line_strict_success :
  forall s l : text,
    In l (lines s) ->
    startswith l (str "> User:") = true ->
    exists t,
      transform_examples_to_chat_directives s true = Ok t /\
      occurrences s < occurrences t.
Proof.
  intros s l Hin Hl.
  pose proof (@transform_user_line s l Hin (or_intror Hl)) as Hlt.
  exists (insert_directive (indent (normalize_messages s) (str "   "))).
  split; [|exact Hlt].
  rewrite transform_strict.
  destruct (text_eqb (normalize_messages s) s) eqn:E1.
  - exfalso. apply text_eqb_eq in E1.
    pose proof (proj1 (normalize_messages_fixed s) E1 l Hin) as F.
    apply startswith_app in Hl. destruct Hl as (r & ->).
    apply (f_equal (@length N)) in F. cbn in F. lia.
  - destruct (text_eqb
                (insert_directive (indent (normalize_messages s) (str "   ")))
                (indent (normalize_messages s) (str "   "))) eqn:E2;
      [|reflexivity].
    exfalso. apply text_eqb_eq in E2. rewrite E2 in Hlt.
    rewrite occurrences_indent, occurrences_normalize_messages in Hlt. lia.
Qed.

Lemma marked_user_line_strict_success_witness :
  exists t,
    transform_examples_to_chat_directives
      (str "> User: hi" ++ [LF] ++ str "> Assistant: hello") true = Ok t /\
    occurrences (str "> User: hi" ++ [LF] ++ str "> Assistant: hello")
    < occurrences t.
Proof.
  apply (@marked_user_line_strict_success
           (str "> User: hi" ++ [LF] ++ str "> Assistant: hello")
           (str "> User: hi")).
  - vm_compute. left. reflexivity.
  - vm_compute. reflexivity.
Defined.

(* ================================================================= *)
(** ** A second run of the transform *)

(** The parts of a match of the pattern of the insertion pass: group 1,
    and either nothing before the anchor, or the three spaces and the run
    of [#] and spaces, the heading, and the newlines with the whitespace
    after them. *)
Lemma directive_match_parts (j : nat) (s : text) (m : state) :
  In m (matches directive_pattern {| pos := j; rest := s; caps := [] |}) ->
  exists g1 pre g3 mid r,
    s = g1 ++ pre ++ g3 ++ mid ++ str "   User:" ++ r /\ rest m = r /\
    (g1 = [] /\ j = 0 \/ g1 = [LF]) /\
    (pre = [] /\ g3 = [] /\ mid = [] \/
     exists c1 w1 c3 w3 w,
       pre = str "   " ++ c1 :: w1 /\
       forallb (fun c => existsb (N.eqb c) (str "# ")) (c1 :: w1) = true /\
       g3 = c3 :: w3 /\ ~ In LF g3 /\
       mid = LF :: w /\ forallb isspace w = true) /\
    expand directive_repl m =
    g1 ++ g3 ++ [LF; LF] ++ opener ++ [LF; LF] ++ str "   User:".
Proof.
  intros H. apply matches_sem in H.
  cbn [sem directive_pattern] in H.
  destruct H as (m1 & (m0 & H0 & ->) & m2 & H2 & H3).
  assert (G1 : exists g1 r1,
             s = g1 ++ r1 /\ (g1 = [] /\ j = 0 \/ g1 = [LF]) /\
             capture 1 {| pos := j; rest := s; caps := [] |} m0 =
             {| pos := j + length g1; rest := r1; caps := [(1, g1)] |}).
  { destruct H0 as [[Hj ->]|H0].
    - cbn in Hj. subst j. exists [], s. cbn. auto.
    - apply reads_inv in H0. destruct H0 as (c & r & -> & Hc0 & ->).
      apply N.eqb_eq in Hc0. subst c.
      exists [LF], r. unfold capture; cbn [pos rest caps length app].
      replace (j + 1 - j) with 1 by lia. cbn. auto. }
  destruct G1 as (g1 & r1 & -> & Hg1 & E1). rewrite E1 in H2. clear E1 H0.
  assert (G2 : exists pre g3 mid r2,
             r1 = pre ++ g3 ++ mid ++ r2 /\ rest m2 = r2 /\
             (pre = [] /\ g3 = [] /\ mid = [] \/
              exists c1 w1 c3 w3 w,
                pre = str "   " ++ c1 :: w1 /\
                forallb (fun c => existsb (N.eqb c) (str "# ")) (c1 :: w1)
                = true /\
                g3 = c3 :: w3 /\ ~ In LF g3 /\
                mid = LF :: w /\ forallb isspace w = true) /\
             lookup 1 (caps m2) = Some g1 /\
             match lookup 3 (caps m2) with Some w => w | None => [] end
             = g3).
  { destruct H2 as [(ma & Hin & ->)| ->].
    - destruct Hin as (mb & (r & Eb & ->) & mc & (md & Hd & Hrd)
                       & me & (me' & (mf & Hf & Hrf) & ->)
                       & mg & Hg & Hrg).
      cbn [pos rest caps] in *. subst r1.
      apply reads_inv in Hd. destruct Hd as (c1 & r1 & -> & Hc1 & ->).
      apply rtc_reads in Hrd. destruct Hrd as (w1 & Hw1 & Ew1 & Pw1 & Cw1).
      cbn [pos rest caps] in *. subst r1.
      destruct mc as [pc sc cc]. cbn [pos rest caps] in *. subst pc cc.
      apply reads_inv in Hf. destruct Hf as (c3 & r3 & -> & Hc3 & ->).
      apply rtc_reads in Hrf. destruct Hrf as (w3 & Hw3 & Ew3 & Pw3 & Cw3).
      cbn [pos rest caps] in *. subst r3.
      destruct me' as [pe se ce]. cbn [pos rest caps] in *. subst pe ce.
      unfold capture in Hg, Hrg; cbn [pos rest caps] in Hg, Hrg.
      change (c3 :: w3 ++ se) with ((c3 :: w3) ++ se) in Hg.
      rewrite (@firstn_exact _ (c3 :: w3)) in Hg by (cbn [length]; lia).
      cbn [sem] in Hg. destruct Hg as (mh & (mi & Hi & Hsi) & ->).
      apply reads_inv in Hi. destruct Hi as (c4 & r4 & -> & Hc4 & ->).
      apply N.eqb_eq in Hc4. subst c4.
      apply rtc_reads in Hsi. destruct Hsi as (w4 & Hw4 & Ew4 & Pw4 & Cw4).
      cbn [pos rest caps] in *. subst r4.
      apply rtc_newlines in Hrg.
      destruct Hrg as (w5 & Hw5 & Ew5 & Pw5 & Cw5).
      cbn [capture pos rest caps] in *.
      exists (str "   " ++ c1 :: w1), (c3 :: w3), (LF :: w4 ++ w5), (rest ma).
      split.
      { rewrite Ew5. cbn [app str List.map list_ascii_of_string].
        rewrite <- ?app_assoc. cbn [app]. rewrite <- ?app_assoc.
        reflexivity. }
      split; [reflexivity|].
      split.
      { right. exists c1, w1, c3, w3, (w4 ++ w5).
        split; [reflexivity|].
        split; [cbn [forallb]; rewrite Hc1, Hw1; reflexivity|].
        split; [reflexivity|].
        split; [apply forallb_not_LF; cbn [forallb]; rewrite Hc3, Hw3;
                reflexivity|].
        split; [reflexivity|].
        rewrite forallb_app, Hw4, Hw5. reflexivity. }
      cbn [lookup Nat.eqb].
      rewrite (Cw5 1 ltac:(discriminate)), (Cw5 3 ltac:(discriminate)).
      cbn [lookup Nat.eqb]. rewrite Cw4. cbn [lookup Nat.eqb].
      split; reflexivity.
    - exists [], [], [], r1. cbn [app pos rest caps lookup Nat.eqb].
      repeat split; auto. }
  destruct G2 as (pre & g3 & mid & r2 & -> & Er2 & Hparts & Hl1 & Hl3).
  destruct H3 as (r & E & ->). cbn [pos rest caps].
  rewrite Er2 in E. subst r2.
  exists g1, pre, g3, mid, r.
  split; [reflexivity|]. split; [reflexivity|].
  split; [exact Hg1|]. split; [exact Hparts|].
  unfold expand, directive_repl, group.
  cbn [List.map caps concat]. rewrite Hl1, Hl3, app_nil_r. reflexivity.
Qed.

(** Counting [User:] across the parts of a text. *)
Lemma user_skip (x y : text) :
  ~ In 85%N x -> count (x ++ y) user = count y user.
Proof.
  induction x as [|c x IH]; intros Hn; [reflexivity|].
  rewrite <- IH by (intros H; apply Hn; right; exact H).
  unfold count, user. change (str "User:") with (85%N :: str "ser:").
  cbn [app]. apply count_from_miss.
  intros ->. apply Hn. left; reflexivity.
Qed.

Lemma user_LF (x y : text) :
  count (x ++ LF :: y) user = count x user + count y user.
Proof.
  apply count_across; [discriminate|].
  apply linebreak_not_in_user. reflexivity.
Qed.

Lemma user_anchor (r : text) :
  count (str "   User:" ++ r) user = S (count r user).
Proof. reflexivity. Qed.

Lemma user_tail (a r : text) :
  count (a ++ user ++ r) user = 1 -> count r user = 0.
Proof.
  intros H. pose proof (user_app a (user ++ r)) as Ha.
  rewrite user_head in Ha. lia.
Qed.

Lemma space_not_U (w : text) : forallb isspace w = true -> ~ In 85%N w.
Proof.
  rewrite forallb_forall. intros H Hin. specialize (H _ Hin). discriminate H.
Qed.

Lemma hash_space_not_U (w : text) :
  forallb (fun c => existsb (N.eqb c) (str "# ")) w = true -> ~ In 85%N w.
Proof.
  rewrite forallb_forall. intros H Hin. specialize (H _ Hin). discriminate H.
Qed.

(** Where [User:] occurs once, it occurs at one place. *)
Lemma user_unique_head (b a' b' : text) :
  count (user ++ b) user = 1 ->
  user ++ b = a' ++ user ++ b' -> a' = [].
Proof.
  intros Hc E. rewrite user_head in Hc.
  assert (H0 : count b user = 0) by lia.
  destruct a' as [|x0 [|x1 [|x2 [|x3 [|x4 a']]]]];
    try reflexivity; exfalso;
    try (cbn in E; injection E; intros; subst; discriminate).
  change (user ++ b) with (85%N :: 115%N :: 101%N :: 114%N :: 58%N :: b)
    in E.
  cbn [app] in E. injection E as _ _ _ _ _ E.
  pose proof (@count_occurs user a' b' ltac:(discriminate)) as H1.
  subst b. change (count (a' ++ user ++ b') user = 0) in H0. lia.
Qed.

Lemma user_unique (a b a' b' : text) :
  count (a ++ user ++ b) user = 1 ->
  a ++ user ++ b = a' ++ user ++ b' -> a = a'.
Proof.
  revert a'; induction a as [|c a IH]; intros a' Hc E.
  - symmetry. apply (@user_unique_head b a' b' Hc E).
  - destruct a' as [|c' a'].
    + exfalso. cbn [app] in E.
      assert (Hc' : count (user ++ b') user = 1)
        by (cbn [app]; rewrite <- E; exact Hc).
      symmetry in E. change (c :: a ++ user ++ b) with ((c :: a) ++ user ++ b) in E.
      pose proof (@user_unique_head b' (c :: a) b Hc' E) as F.
      discriminate F.
    + cbn [app] in E. injection E as -> E. f_equal. apply IH; [|exact E].
      cbn [app] in Hc.
      pose proof (user_cons c' (a ++ user ++ b)) as H1.
      pose proof (@count_occurs user a b ltac:(discriminate)) as H2.
      lia.
Qed.

(** Without [User:] in what is left of the subject, the loop of the
    insertion pass is over. *)
Lemma sub_loop_no_user (fuel : nat) (ma : bool) (i : nat) (r : text) :
  count r user = 0 ->
  sub_loop fuel directive_pattern directive_repl ma i r = r.
Proof.
  intros H0. destruct fuel as [|fuel]; [reflexivity|]. cbn [sub_loop].
  destruct (search directive_pattern ma i r) as [[[skipped j] m]|] eqn:E;
    [|reflexivity].
  exfalso.
  destruct (search_sound _ _ _ _ E) as (s' & -> & _ & Hin).
  destruct (directive_match_parts _ _ _ Hin)
    as (g1 & pre & g3 & mid & r' & -> & _).
  assert (H1 : 1 <= count ((skipped ++ g1 ++ pre ++ g3 ++ mid ++ str "   ")
                           ++ user ++ r') user)
    by (apply count_occurs; discriminate).
  replace ((skipped ++ g1 ++ pre ++ g3 ++ mid ++ str "   ") ++ user ++ r')
    with (skipped ++ g1 ++ pre ++ g3 ++ mid ++ str "   User:" ++ r') in H1
    by (rewrite <- ?app_assoc; reflexivity).
  lia.
Qed.

(** The insertion pass on a text with one [User:], when it changes the
    text: one directive is put before the anchor, and [User:] still occurs
    once. *)
Lemma insert_directive_once (u : text) :
  count u user = 1 -> insert_directive u <> u ->
  exists P r,
    insert_directive u
    = P ++ LF :: LF :: opener ++ LF :: LF :: str "   User:" ++ r /\
    count (insert_directive u) user = 1.
Proof.
  intros Hc Hne. unfold insert_directive, Re.sub in *.
  replace (2 * length u + 2) with (S (2 * length u + 1)) in * by lia.
  cbn [sub_loop] in *.
  destruct (search directive_pattern false 0 u) as [[[skipped j] m]|] eqn:E;
    [|congruence].
  destruct (search_sound _ _ _ _ E) as (s' & -> & Ej & Hin).
  cbn [Nat.add] in Ej.
  destruct (directive_match_parts _ _ _ Hin)
    as (g1 & pre & g3 & mid & r & -> & Er & Hg1 & Hparts & ->).
  rewrite Er.
  assert (Hu : skipped ++ g1 ++ pre ++ g3 ++ mid ++ str "   User:" ++ r
               = (skipped ++ g1 ++ pre ++ g3 ++ mid ++ str "   ")
                 ++ user ++ r)
    by (rewrite <- ?app_assoc; reflexivity).
  assert (Hr : count r user = 0)
    by (rewrite Hu in Hc; apply user_tail in Hc; exact Hc).
  rewrite (@sub_loop_no_user _ _ _ r Hr).
  exists (skipped ++ g1 ++ g3), r.
  assert (Et : skipped
               ++ (g1 ++ g3 ++ [LF; LF] ++ opener ++ [LF; LF]
                   ++ str "   User:") ++ r
               = (skipped ++ g1 ++ g3)
                 ++ LF :: LF :: opener ++ LF :: LF :: str "   User:" ++ r)
    by (rewrite <- ?app_assoc; cbn [app]; rewrite <- ?app_assoc;
        reflexivity).
  rewrite Et. split; [reflexivity|].
  change ((skipped ++ g1 ++ g3)
          ++ LF :: LF :: opener ++ LF :: LF :: str "   User:" ++ r)
    with ((skipped ++ g1 ++ g3)
          ++ LF :: [] ++ LF :: opener ++ LF :: [] ++ LF ::
             str "   User:" ++ r).
  rewrite !user_LF, user_anchor, Hr.
  change (count [] user) with 0. change (count opener user) with 0.
  assert (H0 : count (skipped ++ g1 ++ g3) user = 0); [|lia].
  destruct Hparts as [(-> & -> & ->)
                     |(c1 & w1 & c3 & w3 & w & -> & Hpre & -> & Hg3 & ->
                       & Hw)].
  - change ([] ++ [] ++ [] ++ str "   User:" ++ r)
      with (str "   User:" ++ r) in Hc.
    rewrite app_nil_r.
    destruct Hg1 as [[-> ->]| ->].
    + destruct skipped; [reflexivity | discriminate Ej].
    + change (skipped ++ [LF] ++ str "   User:" ++ r)
        with (skipped ++ LF :: str "   User:" ++ r) in Hc.
      rewrite user_LF, user_anchor, Hr in Hc.
      change (skipped ++ [LF]) with (skipped ++ LF :: []).
      rewrite user_LF. change (count [] user) with 0. lia.
  - assert (Hc' : count ((skipped ++ g1 ++ (str "   " ++ c1 :: w1)
                          ++ c3 :: w3)
                         ++ LF :: w ++ str "   User:" ++ r) user = 1).
    { rewrite <- Hc. f_equal. rewrite <- ?app_assoc. cbn [app].
      rewrite <- ?app_assoc. reflexivity. }
    rewrite user_LF, (@user_skip w _ (space_not_U _ Hw)), user_anchor, Hr
      in Hc'.
    assert (Hp : ~ In 85%N (str "   " ++ c1 :: w1)).
    { rewrite in_app_iff. intros [Hi|Hi].
      - cbn in Hi. repeat (destruct Hi as [Hi|Hi]; [discriminate Hi|]).
        exact Hi.
      - revert Hi. apply hash_space_not_U. exact Hpre. }
    destruct Hg1 as [[-> ->]| ->].
    + destruct skipped; [|discriminate Ej]. cbn [app] in *.
      change (32%N :: 32%N :: 32%N :: c1 :: w1 ++ c3 :: w3)
        with ((str "   " ++ c1 :: w1) ++ c3 :: w3) in Hc'.
      rewrite (@user_skip _ _ Hp) in Hc'. lia.
    + change (skipped ++ [LF] ++ (str "   " ++ c1 :: w1) ++ c3 :: w3)
        with (skipped ++ LF :: (str "   " ++ c1 :: w1) ++ c3 :: w3) in Hc'.
      rewrite user_LF, (@user_skip _ _ Hp) in Hc'.
      change (skipped ++ [LF] ++ c3 :: w3)
        with (skipped ++ LF :: c3 :: w3).
      rewrite user_LF. lia.
Qed.

(** The first pass and the indentation, across a newline. *)
Lemma lines_LF (a b : text) : lines (a ++ LF :: b) = lines a ++ lines b.
Proof.
  induction a as [|c a IH].
  - cbn [app]. rewrite lines_cons. reflexivity.
  - cbn [app]. rewrite !lines_cons, IH.
    destruct (N.eqb c LF); [reflexivity|].
    pose proof (lines_not_nil a) as Hne.
    destruct (lines a); [congruence | reflexivity].
Qed.

Lemma join_app (l1 l2 : list text) :
  l1 <> [] -> l2 <> [] ->
  join [LF] (l1 ++ l2) = join [LF] l1 ++ LF :: join [LF] l2.
Proof.
  intros H1 H2. induction l1 as [|x l1 IH]; [congruence|].
  destruct l1 as [|y l1].
  - cbn [app]. destruct l2 as [|z l2]; [congruence | reflexivity].
  - change (join [LF] ((x :: y :: l1) ++ l2))
      with (x ++ LF :: join [LF] ((y :: l1) ++ l2)).
    rewrite IH by discriminate.
    change (join [LF] (x :: y :: l1)) with (x ++ LF :: join [LF] (y :: l1)).
    rewrite <- app_assoc. reflexivity.
Qed.

Lemma normalize_messages_LF (a b : text) :
  normalize_messages (a ++ LF :: b)
  = normalize_messages a ++ LF :: normalize_messages b.
Proof.
  rewrite !normalize_messages_exact, lines_LF, map_app.
  apply join_app.
  - pose proof (lines_not_nil a). destruct (lines a); [congruence|].
    discriminate.
  - pose proof (lines_not_nil b). destruct (lines b); [congruence|].
    discriminate.
Qed.

Lemma normalize_messages_anchor (r : text) :
  exists r', normalize_messages (str "   User:" ++ r) = str "   User:" ++ r'.
Proof.
  rewrite normalize_messages_exact.
  rewrite (@lines_app (str "   User:") r)
    by (intros H; cbn in H;
        repeat (destruct H as [H|H]; [discriminate H|]); exact H).
  cbn [List.map]. rewrite join_cons.
  change (strip_line (str "   User:" ++ hd [] (lines r)))
    with (str "   User:" ++ hd [] (lines r)).
  rewrite <- app_assoc. eauto.
Qed.

Lemma indent_anchor (r : text) :
  exists r', indent (str "   User:" ++ r) (str "   ")
             = str "      User:" ++ r'.
Proof.
  destruct (splitlines_user r) as (l & ls & E).
  assert (E' : splitlines_keepends (str "   User:" ++ r)
               = (str "   User:" ++ l) :: ls).
  { change (str "   User:" ++ r)
      with (32%N :: 32%N :: 32%N :: user ++ r).
    cbn [splitlines_keepends].
    change (islinebreak 32 && _) with false. cbv iota.
    rewrite E. reflexivity. }
  unfold indent. rewrite E'. cbn [List.map concat].
  change (forallb isspace (str "   User:" ++ l)) with false. cbv iota.
  eexists. change (str "      User:") with (str "   " ++ str "   User:").
  rewrite <- !app_assoc. reflexivity.
Qed.

(** Whitespace at the end of a text, after a character that is none. *)
Lemma space_suffix (x w y z : text) (c : N) :
  forallb isspace w = true -> isspace c = false ->
  x ++ w = y ++ c :: z -> exists k, z = k ++ w /\ x = y ++ c :: k.
Proof.
  intros Hw Hc E.
  change (y ++ c :: z) with (y ++ [c] ++ z) in E. rewrite app_assoc in E.
  apply app_eq_app in E. destruct E as (l & [[E1 E2]|[E1 E2]]).
  - exists l. rewrite E1, <- app_assoc. auto.
  - destruct l as [|e l].
    + exists []. rewrite app_nil_r in E1. cbn [app] in *.
      rewrite <- E1, E2. auto.
    + exfalso.
      destruct (@exists_last _ (e :: l) ltac:(discriminate)) as (l' & e' & El).
      rewrite El in E1, E2. rewrite app_assoc in E1.
      apply app_inj_tail in E1. destruct E1 as [_ <-].
      rewrite forallb_forall in Hw.
      assert (Hin : In c w)
        by (rewrite E2, !in_app_iff; left; right; left; reflexivity).
      specialize (Hw _ Hin). congruence.
Qed.

Lemma last_In (x g y : text) (e : N) :
  g <> [] -> x ++ g = y ++ [e] -> In e g.
Proof.
  intros Hg E.
  destruct (@exists_last _ g Hg) as (g' & e' & ->).
  rewrite app_assoc in E. apply app_inj_tail in E. destruct E as [_ ->].
  apply in_app_iff. right. left. reflexivity.
Qed.

(** The last line of a text, from two ways of cutting it after a
    newline. *)
Lemma last_line (x1 y1 x2 y2 : text) :
  x1 = [] \/ (exists x, x1 = x ++ [LF]) ->
  (exists x, x2 = x ++ [LF]) ->
  ~ In LF y1 -> ~ In LF y2 ->
  x1 ++ y1 = x2 ++ y2 -> y1 = y2.
Proof.
  intros H1 (x2' & ->) N1 N2 E.
  apply app_eq_app in E. destruct E as (l & [[E1 E2]|[E1 E2]]).
  - destruct l as [|e l]; [rewrite E2; reflexivity|]. exfalso.
    destruct H1 as [->|(x1' & ->)].
    + symmetry in E1. apply app_eq_nil in E1. destruct E1 as [_ E1].
      discriminate E1.
    + symmetry in E1. apply last_In in E1; [|discriminate].
      apply N2. rewrite E2. apply in_app_iff. left. exact E1.
  - destruct l as [|e l]; [rewrite E2; reflexivity|]. exfalso.
    symmetry in E1. apply last_In in E1; [|discriminate].
    apply N1. rewrite E2. apply in_app_iff. left. exact E1.
Qed.

(** An anchor that stands after a directive, indented once more, is no
    place for another directive: the insertion pass leaves the text
    alone when [User:] occurs nowhere else. *)
Lemma insert_directive_guarded (a r : text) :
  count (a ++ LF :: LF :: str "   .. chat::" ++ LF :: LF
           :: str "      User:" ++ r) user = 1 ->
  insert_directive (a ++ LF :: LF :: str "   .. chat::" ++ LF :: LF
                      :: str "      User:" ++ r)
  = a ++ LF :: LF :: str "   .. chat::" ++ LF :: LF
      :: str "      User:" ++ r.
Proof.
  set (u := a ++ LF :: LF :: str "   .. chat::" ++ LF :: LF
              :: str "      User:" ++ r).
  intros Hc. unfold insert_directive, Re.sub.
  replace (2 * length u + 2) with (S (2 * length u + 1)) by lia.
  cbn [sub_loop].
  destruct (search directive_pattern false 0 u) as [[[skipped j] m]|] eqn:E;
    [|reflexivity].
  exfalso.
  destruct (search_sound _ _ _ _ E) as (s' & Eu & Ej & Hin).
  cbn [Nat.add] in Ej.
  destruct (directive_match_parts _ _ _ Hin)
    as (g1 & pre & g3 & mid & r0 & -> & _ & Hg1 & Hparts & _).
  assert (E1 : u = ((a ++ LF :: LF :: str "   .. chat::" ++ LF :: LF
                       :: str "   ") ++ str "   ") ++ user ++ r).
  { unfold u. rewrite <- ?app_assoc. cbn [app]. rewrite <- ?app_assoc.
    reflexivity. }
  assert (E2 : u = ((skipped ++ g1 ++ pre ++ g3 ++ mid) ++ str "   ")
                   ++ user ++ r0).
  { rewrite Eu, <- ?app_assoc. reflexivity. }
  assert (K : (skipped ++ g1 ++ pre ++ g3 ++ mid) ++ str "   "
              = (a ++ LF :: LF :: str "   .. chat::" ++ LF :: LF
                   :: str "   ") ++ str "   ").
  { apply (@user_unique _ r0 _ r).
    - rewrite <- E2. exact Hc.
    - rewrite <- E2. exact E1. }
  apply app_inv_tail in K.
  destruct Hparts as [(-> & -> & ->)
                     |(c1 & w1 & c3 & w3 & w & -> & Hpre & -> & Hg3 & ->
                       & Hw)].
  - rewrite !app_nil_r in K.
    destruct Hg1 as [[-> ->]| ->].
    + destruct skipped; [|discriminate Ej]. cbn [app] in K.
      symmetry in K. apply app_eq_nil in K. destruct K as [_ K].
      discriminate K.
    + change (a ++ LF :: LF :: str "   .. chat::" ++ LF :: LF :: str "   ")
        with (a ++ (LF :: LF :: str "   .. chat::" ++ LF :: LF :: str "  ")
                ++ [32%N]) in K.
      rewrite !app_assoc in K. apply app_inj_tail in K.
      destruct K as [_ K]. discriminate K.
  - assert (K' : (skipped ++ g1 ++ (str "   " ++ c1 :: w1) ++ c3 :: w3)
                 ++ LF :: w
                 = (a ++ LF :: LF :: str "   .. chat:")
                   ++ 58%N :: [LF; LF; 32; 32; 32]%N).
    { rewrite <- ?app_assoc. rewrite <- ?app_assoc in K.
      cbn [app]. cbn [app] in K. rewrite <- ?app_assoc.
      rewrite <- ?app_assoc in K. exact K. }
    apply space_suffix in K';
      [|cbn [forallb]; rewrite Hw; reflexivity | reflexivity].
    destruct K' as (k & Ek & EX).
    assert (Npre : ~ In LF (str "   " ++ c1 :: w1)).
    { rewrite in_app_iff. intros [Hi|Hi].
      - cbn in Hi. repeat (destruct Hi as [Hi|Hi]; [discriminate Hi|]).
        exact Hi.
      - rewrite forallb_forall in Hpre. specialize (Hpre _ Hi).
        discriminate Hpre. }
    destruct k as [|k0 [|k1 k]].
    + (* the newlines of the match are the two newlines after the opener *)
      assert (L : (str "   " ++ c1 :: w1) ++ c3 :: w3 = str "   .. chat::").
      { apply (@last_line (skipped ++ g1) _ (a ++ [LF; LF]) _).
        - destruct Hg1 as [[-> ->]| ->].
          + destruct skipped; [left; reflexivity | discriminate Ej].
          + right. exists skipped. reflexivity.
        - exists (a ++ [LF]). rewrite <- app_assoc. reflexivity.
        - rewrite in_app_iff. intros [Hi|Hi]; [exact (Npre Hi)|].
          exact (Hg3 Hi).
        - intros Hi. cbn in Hi.
          repeat (destruct Hi as [Hi|Hi]; [discriminate Hi|]). exact Hi.
        - rewrite <- ?app_assoc. rewrite <- ?app_assoc in EX.
          cbn [app]. cbn [app] in EX. rewrite <- ?app_assoc.
          rewrite <- ?app_assoc in EX. exact EX. }
      cbn in L. injection L as L _. subst c1.
      cbn [forallb] in Hpre. discriminate Hpre.
    + (* the match would end its heading with a newline *)
      cbn [app] in Ek. injection Ek as <- _.
      assert (Hin' : In LF (c3 :: w3)).
      { apply (@last_In (skipped ++ g1 ++ str "   " ++ c1 :: w1) _
                 (a ++ LF :: LF :: str "   .. chat::")); [discriminate|].
        rewrite <- ?app_assoc. rewrite <- ?app_assoc in EX.
        cbn [app]. cbn [app] in EX. rewrite <- ?app_assoc.
        rewrite <- ?app_assoc in EX. exact EX. }
      exact (Hg3 Hin').
    + cbn [app] in Ek. injection Ek as _ _ Ek.
      assert (Hin' : In LF [32; 32; 32]%N)
        by (rewrite Ek; apply in_app_iff; right; left; reflexivity).
      cbn in Hin'.
      repeat (destruct Hin' as [Hin'|Hin']; [discriminate Hin'|]).
      exact Hin'.
Qed.

Lemma second_run_shape (P r : text) :
  exists a r2,
    indent (normalize_messages
              (P ++ LF :: LF :: opener ++ LF :: LF :: str "   User:" ++ r))
           (str "   ")
    = a ++ LF :: LF :: str "   .. chat::" ++ LF :: LF
        :: str "      User:" ++ r2.
Proof.
  assert (N0 : normalize_messages [] = []) by (vm_compute; reflexivity).
  assert (N1 : normalize_messages opener = opener)
    by (vm_compute; reflexivity).
  assert (I0 : indent [LF] (str "   ") = [LF]) by (vm_compute; reflexivity).
  assert (I1 : indent (opener ++ [LF]) (str "   ")
               = str "   .. chat::" ++ [LF]) by (vm_compute; reflexivity).
  change (P ++ LF :: LF :: opener ++ LF :: LF :: str "   User:" ++ r)
    with (P ++ LF :: [] ++ LF :: opener ++ LF :: [] ++ LF ::
          str "   User:" ++ r).
  rewrite !normalize_messages_LF, N0, N1.
  destruct (normalize_messages_anchor r) as (r' & ->).
  rewrite indent_LF.
  destruct (indent_ends_LF (normalize_messages P)) as (a & ->).
  assert (I2 : forall y, indent (LF :: y) (str "   ")
                         = LF :: indent y (str "   ")).
  { intros y. change (LF :: y) with ([] ++ LF :: y).
    rewrite indent_LF. cbn [app]. rewrite I0. reflexivity. }
  cbn [app]. rewrite I2, (indent_LF opener), I1, I2.
  destruct (indent_anchor r') as (r2 & ->).
  exists a, r2. rewrite <- ?app_assoc. reflexivity.
Qed.

(** C6, amended: for a text that holds [User:] once and no opener
    [.. chat::], when the output of the transform holds exactly one opener,
    a second run on that output leaves it with exactly one: the first pass
    and the indentation keep the opener, and the insertion pass finds no
    place for another directive, so the second output is the first one
    with its lines stripped of markers and indented once more. *)
Theorem second_transform_keeps_one_directive :
  forall s t : text,
    count s (str "User:") = 1 ->
    occurrences s = 0 ->
    transform_examples_to_chat_directives s false = Ok t ->
    occurrences t = 1 ->
    exists t',
      transform_examples_to_chat_directives t false = Ok t' /\
      occurrences t' = 1 /\
      t' = indent (normalize_messages t) (str "   ").
Proof.
  intros s t Hu Hs Ht H1. apply transform_ok_inv in Ht.
  destruct Ht as [Et _].
  assert (Hcu : count (indent (normalize_messages s) (str "   ")) user = 1)
    by (rewrite user_transform; exact Hu).
  assert (Hne : insert_directive (indent (normalize_messages s) (str "   "))
                <> indent (normalize_messages s) (str "   ")).
  { intros E. rewrite Et, E in H1.
    rewrite occurrences_indent, occurrences_normalize_messages in H1. lia. }
  destruct (insert_directive_once Hcu Hne) as (P & r & Ei & Hct).
  rewrite <- Et in Ei, Hct.
  assert (Hc2 : count (indent (normalize_messages t) (str "   ")) user = 1)
    by (rewrite user_transform; exact Hct).
  exists (indent (normalize_messages t) (str "   ")).
  split; [|split; [|reflexivity]].
  - rewrite transform_non_strict. f_equal.
    destruct (second_run_shape P r) as (a & r2 & E2).
    rewrite <- Ei in E2. rewrite E2 in *.
    apply insert_directive_guarded. exact Hc2.
  - rewrite occurrences_indent, occurrences_normalize_messages. exact H1.
Qed.

Lemma second_transform_keeps_one_directive_witness :
  exists t',
    transform_examples_to_chat_directives
      ([LF; LF] ++ str ".. chat::" ++ [LF; LF] ++ str "   User: hello"
       ++ [LF] ++ str "   Assistant: hi") false = Ok t' /\
    occurrences t' = 1 /\
    t' = indent (normalize_messages
                   ([LF; LF] ++ str ".. chat::" ++ [LF; LF]
                    ++ str "   User: hello" ++ [LF]
                    ++ str "   Assistant: hi")) (str "   ").
Proof.
  apply (@second_transform_keeps_one_directive
           (str "User: hello" ++ [LF] ++ str "Assistant: hi")).
  - vm_compute. reflexivity.
  - vm_compute. reflexivity.
  - vm_compute. reflexivity.
  - vm_compute. reflexivity.
Defined.
